(** * Verification of the terraform plan comparison package

    A shallow embedding of [terraform_plan_diff.go] (package [comparison]):
    the JSON boundary helper [extractJSONFromOutput], the normalizer
    ([sortMapKeys], [processValue]), the section extractors ([getVariables],
    [getResources], [getOutputs], [getResourceAttributes]) and the diff
    engine ([generatePlanDiff] and everything it calls).

    Go maps [map[string]interface{}] are finite maps [gmap string value];
    the dynamically typed [interface{}] produced by [json.Unmarshal] is the
    inductive type [value]; a [strings.Builder] is the string written so
    far, threaded through the functions that receive the builder. *)

From Stdlib Require Import Ascii.
From stdpp Require Import gmap strings list fin_maps sorting pretty.

#[local] Set Warnings "-register-all".

(** ** Strings *)

(** The line feed written as a backslash-n escape in the Go literals. *)
Definition nl : string := String (Ascii.ascii_of_nat 10) EmptyString.

(** [strings.Index(s, substr)]: the index of the first instance of [substr]
    in [s], or -1 when there is none. *)
Definition strings_Index (s substr : string) : Z :=
  match String.index 0 substr s with
  | Some i => Z.of_nat i
  | None => (-1)%Z
  end.

(** The slice expression [s[i:]] for [0 <= i <= len(s)]. *)
Definition slice_from (s : string) (i : Z) : string :=
  String.substring (Z.to_nat i) (String.length s - Z.to_nat i) s.

(** The static errors of the package. *)
Inductive error : Type :=
  | ErrNoJSONOutput.

(** [extractJSONFromOutput]: the Go pair [(string, error)], the error being
    [None] for [nil]. *)
Definition extractJSONFromOutput (output : string) : string * option error :=
  let jsonStartIdx := strings_Index output "{" in
  if bool_decide (jsonStartIdx = (-1)%Z) then ("", Some ErrNoJSONOutput)
  else
    let jsonOutput := slice_from output jsonStartIdx in
    (jsonOutput, None).

(** [contains]: is the string in the slice. *)
Fixpoint contains (slice : list string) (s : string) : bool :=
  match slice with
  | [] => false
  | item :: rest => if bool_decide (item = s) then true else contains rest s
  end.

(** The order of [sort.Strings]: byte-wise lexicographic. *)
Definition string_le (a b : string) : Prop := String.leb a b = true.

#[global] Instance string_le_dec : RelDecision string_le.
Proof. intros a b. unfold string_le. apply _. Defined.

(** [sort.Strings]. The library sorts in place with its own algorithm; a
    merge sort over the same order stands in for it. *)
Definition sort_Strings (keys : list string) : list string :=
  merge_sort string_le keys.

(** ** Iteration over Go maps

    [for k, v := range m] visits every entry of [m] exactly once, in an
    order the language leaves unspecified. A [RangeOrder] is one choice of
    that order for every map; every definition below that ranges over a map
    takes it as a parameter, so a theorem holds for all orders. Within one
    run a map is ranged over in the same order each time; the loops of the
    package that range twice over one map append to different slices, so
    this leaves out no result but the relative order of entries that come
    from equal maps. Two runs take two orders. *)
Class RangeOrder : Type := {
  range : ∀ {A : Type}, gmap string A → list (string * A);
  range_perm : ∀ {A : Type} (m : gmap string A), range m ≡ₚ map_to_list m
}.

(** One order: that of [map_to_list]. *)
Definition listRange : RangeOrder :=
  {| range := λ A (m : gmap string A), map_to_list m;
     range_perm := λ A (m : gmap string A), reflexivity (map_to_list m) |}.

(** Another order: [map_to_list] backwards. *)
Definition reverseRange : RangeOrder :=
  {| range := λ A (m : gmap string A), reverse (map_to_list m);
     range_perm := λ A (m : gmap string A), reverse_Permutation (map_to_list m) |}.

(** ** Documents *)

Section Documents.

(** A JSON number is decoded to a [float64]; the package only compares
    numbers (through [reflect.DeepEqual]) and prints them, and the decoder
    never produces a NaN, so a number is a value of a type with decidable
    equality. *)
Context {number : Type} `{!EqDecision number}.

(** What [json.Unmarshal] stores in an [interface{}]: [nil], [bool],
    [float64], [string], [[]interface{}] and [map[string]interface{}]. *)
Inductive value : Type :=
  | VNull
  | VBool (b : bool)
  | VNumber (n : number)
  | VString (s : string)
  | VArray (l : list value)
  | VObject (m : gmap string value).

#[global] Instance value_eq_dec : EqDecision value.
Proof.
  refine (fix go (x y : value) {struct x} : Decision (x = y) :=
    let _ : EqDecision value := @go in
    match x, y with
    | VNull, VNull => left _
    | VBool a, VBool b => cast_if (decide (a = b))
    | VNumber a, VNumber b => cast_if (decide (a = b))
    | VString a, VString b => cast_if (decide (a = b))
    | VArray a, VArray b => cast_if (decide (a = b))
    | VObject a, VObject b => cast_if (decide (a = b))
    | _, _ => right _
    end); abstract congruence.
Defined.

(** [reflect.DeepEqual] on decoded JSON, and on maps of it: equal keys with
    deeply equal values, equal lengths with deeply equal elements, equal
    scalars. *)
Definition DeepEqual {A : Type} `{!EqDecision A} (x y : A) : bool :=
  bool_decide (x = y).

(** The type assertion [v.(map[string]interface{})] with its [ok]. *)
Definition assertMap (v : value) : option (gmap string value) :=
  match v with VObject m => Some m | _ => None end.

(** The type assertion [v.([]interface{})] with its [ok]. *)
Definition assertSlice (v : value) : option (list value) :=
  match v with VArray l => Some l | _ => None end.

(** The type assertion [v.(string)] with its [ok]. *)
Definition assertString (v : value) : option string :=
  match v with VString s => Some s | _ => None end.

(** A [[]map[string]interface{}] stored in an [interface{}]. *)
Definition records (l : list (gmap string value)) : value :=
  VArray (VObject <$> l).

(** The number of constructors of a value, for induction on nested values. *)
Fixpoint value_size (v : value) : nat :=
  match v with
  | VArray l => S (foldr (λ x acc, value_size x + acc) 0 l)
  | VObject m => S (map_fold (λ _ x acc, value_size x + acc) 0 m)
  | _ => 1
  end.

(** ** Normalizer *)

(** [processValue]: a map is rebuilt by [sortMapKeys], a slice element by
    element into a new slice of the same length, anything else is returned
    as it is. The call of [sortMapKeys] on the nested map is written with
    the map functor so that the recursion is structural;
    [processValue_VObject] below shows it is [sortMapKeys] as defined
    next. *)
Fixpoint processValue (v : value) : value :=
  match v with
  | VObject nestedMap => VObject (processValue <$> nestedMap)
  | VArray nestedSlice => VArray (processValue <$> nestedSlice)
  | _ => v
  end.

Context {R : RangeOrder}.

(** [sortMapKeys]: collect the keys, sort them, and fill a new map key by
    key. [m[k]] is the zero value [nil] for a key that is not in [m]. *)
Definition sortMapKeys (m : gmap string value) : gmap string value :=
  let result : gmap string value := ∅ in
  let keys := foldl (λ keys '(k, _), keys ++ [k]) [] (range m) in
  let keys := sort_Strings keys in
  foldl (λ result k,
           let v := default VNull (m !! k) in
           <[k := processValue v]> result)
        result keys.

(** ** Section extractors *)

(** [getVariables]. *)
Definition getVariables (plan : gmap string value) : gmap string value :=
  let result : gmap string value := ∅ in
  match plan !! "variables" ≫= assertMap with
  | Some vars =>
      foldl (λ result '(k, v),
               match assertMap v with
               | Some varMap =>
                   match varMap !! "value" with
                   | Some value => <[k := value]> result
                   | None => result
                   end
               | None => result
               end)
            result (range vars)
  | None => result
  end.

(** [processRootModuleResources]; the map [result] it writes to is passed
    in and returned. *)
Definition processRootModuleResources
    (rootModule result : gmap string value) : gmap string value :=
  match rootModule !! "resources" ≫= assertSlice with
  | None => result
  | Some resources =>
      foldl (λ result res,
               match assertMap res with
               | None => result
               | Some resMap =>
                   match resMap !! "address" with
                   | None => result
                   | Some addressVal =>
                       match assertString addressVal with
                       | None => result
                       | Some address => <[address := VObject resMap]> result
                       end
                   end
               end)
            result resources
  end.

(** [processPriorStateResources]. *)
Definition processPriorStateResources
    (plan result : gmap string value) : gmap string value :=
  match plan !! "prior_state" ≫= assertMap with
  | None => result
  | Some priorState =>
      match priorState !! "values" ≫= assertMap with
      | None => result
      | Some values =>
          match values !! "root_module" ≫= assertMap with
          | None => result
          | Some rootModule => processRootModuleResources rootModule result
          end
      end
  end.

(** [processPlannedValuesResources]. *)
Definition processPlannedValuesResources
    (plan result : gmap string value) : gmap string value :=
  match plan !! "planned_values" ≫= assertMap with
  | None => result
  | Some plannedValues =>
      match plannedValues !! "root_module" ≫= assertMap with
      | None => result
      | Some rootModule => processRootModuleResources rootModule result
      end
  end.

(** [processResourceChanges]. *)
Definition processResourceChanges
    (plan result : gmap string value) : gmap string value :=
  match plan !! "resource_changes" ≫= assertSlice with
  | None => result
  | Some resourceChanges =>
      foldl (λ result change,
               match assertMap change with
               | None => result
               | Some changeMap =>
                   match changeMap !! "address" with
                   | None => result
                   | Some addressVal =>
                       match assertString addressVal with
                       | None => result
                       | Some address => <[address := VObject changeMap]> result
                       end
                   end
               end)
            result resourceChanges
  end.

(** [getResources]. *)
Definition getResources (plan : gmap string value) : gmap string value :=
  let result : gmap string value := ∅ in
  let result := processPriorStateResources plan result in
  let result := processPlannedValuesResources plan result in
  let result := processResourceChanges plan result in
  result.

(** [getOutputs]. *)
Definition getOutputs (plan : gmap string value) : gmap string value :=
  let result : gmap string value := ∅ in
  let result :=
    match plan !! "planned_values" ≫= assertMap with
    | Some plannedValues =>
        match plannedValues !! "outputs" ≫= assertMap with
        | Some outputs =>
            foldl (λ result '(k, v), <[k := v]> result) result (range outputs)
        | None => result
        end
    | None => result
    end in
  match plan !! "output_changes" ≫= assertMap with
  | Some outputChanges =>
      foldl (λ result '(k, v),
               match result !! k with
               | Some _ => result
               | None => <[k := v]> result
               end)
            result (range outputChanges)
  | None => result
  end.

(** [extractValuesField]. *)
Definition extractValuesField
    (resMap result : gmap string value) : gmap string value :=
  match resMap !! "values" ≫= assertMap with
  | None => result
  | Some values =>
      foldl (λ result '(k, v), <[k := v]> result) result (range values)
  end.

(** [extractChangeAfterField]. *)
Definition extractChangeAfterField
    (resMap result : gmap string value) : gmap string value :=
  match resMap !! "change" ≫= assertMap with
  | None => result
  | Some change =>
      match change !! "after" ≫= assertMap with
      | None => result
      | Some after =>
          foldl (λ result '(k, v), <[k := v]> result) result (range after)
      end
  end.

(** [getResourceAttributes]. *)
Definition getResourceAttributes (resource : value) : gmap string value :=
  let result : gmap string value := ∅ in
  match assertMap resource with
  | None => result
  | Some resMap =>
      let result := extractValuesField resMap result in
      let result := extractChangeAfterField resMap result in
      result
  end.

End Documents.

Arguments value : clear implicits.

(** ** Rendering

    [formatValue], [printAttributeDiff] and [formatOutputChange] belong to
    the rendering part of the package, which is not among the files
    embedded here. The text they produce is a parameter of the diff engine:
    [formatValue v] is what the verb [%v] prints for [formatValue(v)],
    [printAttributeDiff k old new] is what the function writes to the
    builder it is given, [formatOutputChange k old new] is the string it
    returns. *)
Class Renderer (number : Type) : Type := {
  formatValue : value number → string;
  printAttributeDiff : string → value number → value number → string;
  formatOutputChange : string → value number → value number → string
}.

(** ** Diff engine *)

Section Engine.

Context {number : Type} `{!EqDecision number}.
Context {R : RangeOrder} {F : Renderer number}.

Abbreviation value := (value number).

(** The [{"name": k, "value": v}] literal. *)
Definition nameValue (k : string) (v : value) : gmap string value :=
  {[ "name" := VString k; "value" := v ]}.

(** The [{"name": k, "old": old, "new": new}] literal. *)
Definition nameOldNew (k : string) (old new : value) : gmap string value :=
  {[ "name" := VString k; "old" := old; "new" := new ]}.

(** The [{"address": k, "value": v}] literal. *)
Definition addressValue (k : string) (v : value) : gmap string value :=
  {[ "address" := VString k; "value" := v ]}.

(** The [{"added": ..., "removed": ..., "changed": ...}] map the
    comparisons fill in. *)
Definition diffRecord (added removed changed : list (gmap string value))
    : gmap string value :=
  <["changed" := records changed]>
    (<["removed" := records removed]>
       (<["added" := records added]> ∅)).

(** The priority list of [processAttributeDifferences]. *)
Definition priorityAttrs : list string := ["id"; "url"; "content"].

(** The skip set of [processAttributeDifferences], a [map[string]bool]. *)
Definition skipAttrs : gmap string bool :=
  {[ "response_body_base64" := true;
     "content_base64sha256" := true;
     "content_base64sha512" := true;
     "content_md5" := true;
     "content_sha1" := true;
     "content_sha256" := true;
     "content_sha512" := true ]}.

(** [skipAttrs[attrK]]: [false] for a key that is not in the map. *)
Definition skipped (skipAttrs : gmap string bool) (attrK : string) : bool :=
  default false (skipAttrs !! attrK).

(** [compareVariables]. A [nil] map is the empty map. *)
Definition compareVariables (origPlan newPlan : gmap string value)
    : string * gmap string value * bool :=
  let origVars := getVariables origPlan in
  let newVars := getVariables newPlan in
  if DeepEqual origVars newVars then ("", ∅, false)
  else
    let diff := "Variables:" +:+ nl in
    let diff := diff +:+ "----------" +:+ nl in
    let '(diff, added) :=
      foldl (λ '(diff, added) '(k, v),
               match origVars !! k with
               | None =>
                   (diff +:+ "+ " +:+ k +:+ ": " +:+ formatValue v +:+ nl,
                    added ++ [nameValue k v])
               | Some _ => (diff, added)
               end)
            (diff, []) (range newVars) in
    let '(diff, removed) :=
      foldl (λ '(diff, removed) '(k, v),
               match newVars !! k with
               | None =>
                   (diff +:+ "- " +:+ k +:+ ": " +:+ formatValue v +:+ nl,
                    removed ++ [nameValue k v])
               | Some _ => (diff, removed)
               end)
            (diff, []) (range origVars) in
    let '(diff, changed) :=
      foldl (λ '(diff, changed) '(k, origV),
               match newVars !! k with
               | Some newV =>
                   if negb (DeepEqual origV newV) then
                     (diff +:+ "~ " +:+ k +:+ ": " +:+ formatValue origV
                           +:+ " => " +:+ formatValue newV +:+ nl,
                      changed ++ [nameOldNew k origV newV])
                   else (diff, changed)
               | None => (diff, changed)
               end)
            (diff, []) (range origVars) in
    let diff := diff +:+ nl in
    (diff, diffRecord added removed changed, true).

(** [compareOutputs]. *)
Definition compareOutputs (origOutputs newOutputs : gmap string value)
    : string * gmap string value :=
  let diff := "" in
  let '(diff, added) :=
    foldl (λ '(diff, added) '(k, v),
             match origOutputs !! k with
             | None =>
                 (diff +:+ "+ " +:+ k +:+ ": " +:+ formatValue v +:+ nl,
                  added ++ [nameValue k v])
             | Some _ => (diff, added)
             end)
          (diff, []) (range newOutputs) in
  let '(diff, removed) :=
    foldl (λ '(diff, removed) '(k, v),
             match newOutputs !! k with
             | None =>
                 (diff +:+ "- " +:+ k +:+ ": " +:+ formatValue v +:+ nl,
                  removed ++ [nameValue k v])
             | Some _ => (diff, removed)
             end)
          (diff, []) (range origOutputs) in
  let '(diff, changed) :=
    foldl (λ '(diff, changed) '(k, origV),
             match newOutputs !! k with
             | Some newV =>
                 if negb (DeepEqual origV newV) then
                   (diff +:+ formatOutputChange k origV newV,
                    changed ++ [nameOldNew k origV newV])
                 else (diff, changed)
             | None => (diff, changed)
             end)
          (diff, []) (range origOutputs) in
  (diff, diffRecord added removed changed).

(** [compareOutputSections]. *)
Definition compareOutputSections (origPlan newPlan : gmap string value)
    : string * gmap string value * bool :=
  let origOutputs := getOutputs origPlan in
  let newOutputs := getOutputs newPlan in
  if DeepEqual origOutputs newOutputs then ("", ∅, false)
  else
    let diff := "Outputs:" +:+ nl in
    let diff := diff +:+ "--------" +:+ nl in
    let '(outputDiff, outputDiffMap) := compareOutputs origOutputs newOutputs in
    let diff := diff +:+ outputDiff in
    (diff, outputDiffMap, true).

(** The state the attribute passes share: the builder and the three slices
    they append to through pointers. *)
Record attrState : Type := AttrState {
  st_diff : string;
  st_added : list (gmap string value);
  st_removed : list (gmap string value);
  st_changed : list (gmap string value)
}.

(** [processPriorityAttributes]: the first case of the [switch] that holds
    is taken. *)
Definition processPriorityAttributes
    (origAttrs newAttrs : gmap string value) (priorityAttrs : list string)
    (st : attrState) : attrState :=
  foldl (λ st attrK,
           match origAttrs !! attrK, newAttrs !! attrK with
           | Some origAttrV, Some newAttrV =>
               if negb (DeepEqual origAttrV newAttrV) then
                 AttrState
                   (st_diff st +:+ printAttributeDiff attrK origAttrV newAttrV)
                   (st_added st) (st_removed st)
                   (st_changed st ++ [nameOldNew attrK origAttrV newAttrV])
               else st
           | Some origAttrV, None =>
               AttrState
                 (st_diff st +:+ "  - " +:+ attrK +:+ ": "
                    +:+ formatValue origAttrV +:+ nl)
                 (st_added st) (st_removed st ++ [nameValue attrK origAttrV])
                 (st_changed st)
           | None, Some newAttrV =>
               AttrState
                 (st_diff st +:+ "  + " +:+ attrK +:+ ": "
                    +:+ formatValue newAttrV +:+ nl)
                 (st_added st ++ [nameValue attrK newAttrV]) (st_removed st)
                 (st_changed st)
           | None, None => st
           end)
        st priorityAttrs.

(** [processRegularAttributeChanges]. *)
Definition processRegularAttributeChanges
    (origAttrs newAttrs : gmap string value) (priorityAttrs : list string)
    (skipAttrs : gmap string bool) (st : attrState) : attrState :=
  foldl (λ st '(attrK, origAttrV),
           if contains priorityAttrs attrK || skipped skipAttrs attrK then st
           else
             match newAttrs !! attrK with
             | Some newAttrV =>
                 if negb (DeepEqual origAttrV newAttrV) then
                   AttrState
                     (st_diff st +:+ printAttributeDiff attrK origAttrV newAttrV)
                     (st_added st) (st_removed st)
                     (st_changed st ++ [nameOldNew attrK origAttrV newAttrV])
                 else st
             | None =>
                 AttrState
                   (st_diff st +:+ "  - " +:+ attrK +:+ ": "
                      +:+ formatValue origAttrV +:+ nl)
                   (st_added st) (st_removed st ++ [nameValue attrK origAttrV])
                   (st_changed st)
             end)
        st (range origAttrs).

(** [processAddedAttributes]. *)
Definition processAddedAttributes
    (origAttrs newAttrs : gmap string value) (priorityAttrs : list string)
    (skipAttrs : gmap string bool) (st : attrState) : attrState :=
  foldl (λ st '(attrK, newAttrV),
           match origAttrs !! attrK with
           | None =>
               if negb (contains priorityAttrs attrK)
                  && negb (skipped skipAttrs attrK) then
                 AttrState
                   (st_diff st +:+ "  + " +:+ attrK +:+ ": "
                      +:+ formatValue newAttrV +:+ nl)
                   (st_added st ++ [nameValue attrK newAttrV]) (st_removed st)
                   (st_changed st)
               else st
           | Some _ => st
           end)
        st (range newAttrs).

(** The three passes of [processAttributeDifferences], from empty slices. *)
Definition attributePasses (diff : string)
    (origAttrs newAttrs : gmap string value) : attrState :=
  let st := AttrState diff [] [] [] in
  let st := processPriorityAttributes origAttrs newAttrs priorityAttrs st in
  let st :=
    processRegularAttributeChanges origAttrs newAttrs priorityAttrs skipAttrs st in
  let st := processAddedAttributes origAttrs newAttrs priorityAttrs skipAttrs st in
  st.

(** [processAttributeDifferences]: the builder after the call and the map
    returned. *)
Definition processAttributeDifferences (diff : string)
    (origAttrs newAttrs : gmap string value) : string * gmap string value :=
  let st := attributePasses diff origAttrs newAttrs in
  (st_diff st, diffRecord (st_added st) (st_removed st) (st_changed st)).

(** [processResourceAdditionsAndRemovals]: the builder after the call and
    the two slices returned. *)
Definition processResourceAdditionsAndRemovals (diff : string)
    (origResources newResources : gmap string value)
    : string * list (gmap string value) * list (gmap string value) :=
  let '(diff, added) :=
    foldl (λ '(diff, added) '(k, v),
             match origResources !! k with
             | None => (diff +:+ "+ " +:+ k +:+ nl, added ++ [addressValue k v])
             | Some _ => (diff, added)
             end)
          (diff, []) (range newResources) in
  let '(diff, removed) :=
    foldl (λ '(diff, removed) '(k, v),
             match newResources !! k with
             | None => (diff +:+ "- " +:+ k +:+ nl, removed ++ [addressValue k v])
             | Some _ => (diff, removed)
             end)
          (diff, []) (range origResources) in
  (diff, added, removed).

(** [processChangedResources]: the builder after the call and the slice
    returned. *)
Definition processChangedResources (diff : string)
    (origResources newResources : gmap string value)
    : string * list (gmap string value) :=
  foldl (λ '(diff, changed) '(k, origV),
           match newResources !! k with
           | None => (diff, changed)
           | Some newV =>
               if DeepEqual origV newV then (diff, changed)
               else
                 let diff := diff +:+ k +:+ nl in
                 let origAttrs := getResourceAttributes origV in
                 let newAttrs := getResourceAttributes newV in
                 let '(diff, attrChanges) :=
                   processAttributeDifferences diff origAttrs newAttrs in
                 (diff,
                  changed ++ [ {[ "address" := VString k;
                                  "attributes" := VObject attrChanges ]} ])
           end)
        (diff, []) (range origResources).

(** [compareResources]. *)
Definition compareResources (origResources newResources : gmap string value)
    : string * gmap string value :=
  let diff := "" in
  let '(diff, added, removed) :=
    processResourceAdditionsAndRemovals diff origResources newResources in
  let diffMap : gmap string value :=
    <["removed" := records removed]> (<["added" := records added]> ∅) in
  let '(diff, changed) :=
    processChangedResources diff origResources newResources in
  let diffMap := <["changed" := records changed]> diffMap in
  (diff, diffMap).

(** [compareResourceSections]. *)
Definition compareResourceSections (origPlan newPlan : gmap string value)
    : string * gmap string value * bool :=
  let origResources := getResources origPlan in
  let newResources := getResources newPlan in
  if DeepEqual origResources newResources then ("", ∅, false)
  else
    let diff := "Resources:" +:+ nl in
    let diff := diff +:+ "-----------" +:+ nl in
    let diff := diff +:+ nl in
    let '(resourceDiff, resourceDiffMap) :=
      compareResources origResources newResources in
    let diff := diff +:+ resourceDiff in
    let diff := diff +:+ nl in
    (diff, resourceDiffMap, true).

(** [generatePlanDiff]. *)
Definition generatePlanDiff (origPlan newPlan : gmap string value)
    : string * gmap string value * bool :=
  let diff := "" in
  let hasDiff := false in
  let diffMap : gmap string value := ∅ in
  let '(diff, diffMap, hasDiff) :=
    let '(varsDiff, varsMap, varsHasDiff) := compareVariables origPlan newPlan in
    if varsHasDiff then
      (diff +:+ varsDiff, <["variables" := VObject varsMap]> diffMap, true)
    else (diff, diffMap, hasDiff) in
  let '(diff, diffMap, hasDiff) :=
    let '(resourcesDiff, resourcesMap, resourcesHasDiff) :=
      compareResourceSections origPlan newPlan in
    if resourcesHasDiff then
      (diff +:+ resourcesDiff, <["resources" := VObject resourcesMap]> diffMap,
       true)
    else (diff, diffMap, hasDiff) in
  let '(diff, diffMap, hasDiff) :=
    let '(outputsDiff, outputsMap, outputsHasDiff) :=
      compareOutputSections origPlan newPlan in
    if outputsHasDiff then
      (diff +:+ outputsDiff, <["outputs" := VObject outputsMap]> diffMap, true)
    else (diff, diffMap, hasDiff) in
  (diff, diffMap, hasDiff).

End Engine.

(** ** Entry points

    The functions that obtain the two documents and print the result. What
    they call outside the package is a parameter: the JSON decoder, the
    [terraform show] command, the creation of the temporary directory and
    the test that a file is missing. *)

(** An error value: a static error of the package, an error returned by a
    library, [errors.New] with a message, and an error wrapped with a
    message by [errors.Wrap] or by the verb [%w]. *)
Inductive failure : Type :=
  | Static (e : error)
  | Library (description : string)
  | New (message : string)
  | Wrap (cause : failure) (message : string).

(** What a run leaves behind: the text written to [os.Stdout], the lines
    given to [log.Printf], the plan files [terraform show] was run on, and
    the directories removed by [os.RemoveAll]. *)
Record world : Type := World {
  stdout : string;
  logged : list string;
  shown : list string;
  removedDirs : list string
}.

(** [fmt.Fprintln(os.Stdout, s)]. *)
Definition Fprintln (s : string) (w : world) : world :=
  World (stdout w +:+ s +:+ nl) (logged w) (shown w) (removedDirs w).

(** [log.Printf(s)] with a format that has no verb. *)
Definition log_Printf (s : string) (w : world) : world :=
  World (stdout w) (logged w ++ [s]) (shown w) (removedDirs w).

(** The calls that leave the package. [json_Unmarshal s] is the error or
    the map that [json.Unmarshal] leaves in a [map[string]interface{}]
    variable; [terraform_show planFile] is the error or the output of the
    command run by [runTerraformShow]; [os_MkdirTemp] is the error or the
    directory created; [os_notExist path] is [os.IsNotExist] of the error
    of [os.Stat(path)]. *)
Class Externals (number : Type) : Type := {
  json_Unmarshal : string → failure + gmap string (value number);
  terraform_show : string → failure + string;
  os_MkdirTemp : failure + string;
  os_notExist : string → bool
}.

Section EntryPoints.

Context {number : Type} `{!EqDecision number}.
Context {R : RangeOrder} {F : Renderer number} {E : Externals number}.

Abbreviation value := (value number).

(** The four results of the entry points; a [nil] map is the empty map and
    a [nil] error is [None]. *)
Abbreviation outcome :=
  (string * gmap string value * bool * option failure)%type.

(** The part the two entry points share: sort both maps, generate the diff
    and print it. *)
Definition sortAndReport (origPlan newPlan : gmap string value) (w : world)
    : outcome * world :=
  let w := log_Printf "Parsed both JSONs. Sorting maps now..." w in
  let origPlan := sortMapKeys origPlan in
  let newPlan := sortMapKeys newPlan in
  let w := log_Printf "Sorted maps. Generating diff now..." w in
  let '(diff_string, diff_map, hasDiff) := generatePlanDiff origPlan newPlan in
  let w :=
    if hasDiff then
      let w := Fprintln (nl +:+ "Diff Output") w in
      let w := Fprintln "===========" w in
      let w := Fprintln "" w in
      Fprintln diff_string w
    else Fprintln "The planfiles are identical" w in
  ((diff_string, diff_map, hasDiff, None), w).

(** [ComparePlansAndGenerateDiff]. *)
Definition ComparePlansAndGenerateDiff
    (origPlanFileJSON newPlanFileJSON : string) (w : world)
    : outcome * world :=
  match json_Unmarshal origPlanFileJSON with
  | inl err =>
      (("", ∅, false, Some (Wrap err "error parsing original plan JSON")), w)
  | inr origPlan =>
      match json_Unmarshal newPlanFileJSON with
      | inl err =>
          (("", ∅, false, Some (Wrap err "error parsing new plan JSON")), w)
      | inr newPlan => sortAndReport origPlan newPlan w
      end
  end.

(** [runTerraformShow]. *)
Definition runTerraformShow (planFile : string) (w : world)
    : (string * option failure) * world :=
  let w := World (stdout w) (logged w) (shown w ++ [planFile]) (removedDirs w) in
  match terraform_show planFile with
  | inl err => (("", Some (Wrap err "error running terraform show")), w)
  | inr output => ((output, None), w)
  end.

(** [getTerraformPlanJSON]. *)
Definition getTerraformPlanJSON (planFile : string) (w : world)
    : (string * option failure) * world :=
  let w := log_Printf "Running terraform show..." w in
  let '((output, err), w) := runTerraformShow planFile w in
  match err with
  | Some err => (("", Some err), w)
  | None =>
      let w := log_Printf "Extracting JSON from output..." w in
      let '(jsonOutput, err) := extractJSONFromOutput output in
      ((jsonOutput, Static <$> err), w)
  end.

(** [comparePlansAndGenerateDiff], on two plan files. *)
Definition comparePlansAndGenerateDiff (origPlanFile newPlanFile : string)
    (w : world) : outcome * world :=
  let w := log_Printf "Getting JSON for original plan..." w in
  let '((origPlanJSON, err), w) := getTerraformPlanJSON origPlanFile w in
  match err with
  | Some err =>
      (("", ∅, false,
        Some (Wrap err "error getting JSON for original plan")), w)
  | None =>
      let w := log_Printf "Getting JSON for new plan..." w in
      let '((newPlanJSON, err), w) := getTerraformPlanJSON newPlanFile w in
      match err with
      | Some err =>
          (("", ∅, false, Some (Wrap err "error getting JSON for new plan")),
           w)
      | None =>
          let w := log_Printf "Got both JSONs. Parsing them now..." w in
          match json_Unmarshal origPlanJSON with
          | inl err =>
              (("", ∅, false,
                Some (Wrap err "error parsing original plan JSON")), w)
          | inr origPlan =>
              match json_Unmarshal newPlanJSON with
              | inl err =>
                  (("", ∅, false,
                    Some (Wrap err "error parsing new plan JSON")), w)
              | inr newPlan => sortAndReport origPlan newPlan w
              end
          end
      end
  end.

(** [TerraformPlanDiff]; the deferred [os.RemoveAll(tmpDir)] runs at every
    return after the directory was created. *)
Definition TerraformPlanDiff (tfplanpathOld tfplanpathNew : string)
    (w : world) : outcome * world :=
  match os_MkdirTemp with
  | inl err =>
      (("", ∅, false, Some (Wrap err "error creating temporary directory")),
       w)
  | inr tmpDir =>
      let '(result, w) :=
        if os_notExist tfplanpathOld then
          (("", ∅, false, Some (New "old plan file does not exist")), w)
        else if os_notExist tfplanpathNew then
          (("", ∅, false, Some (New "new plan file does not exist")), w)
        else
          let origPlanFile := tfplanpathOld in
          let newPlanFile := tfplanpathNew in
          comparePlansAndGenerateDiff origPlanFile newPlanFile w in
      (result, World (stdout w) (logged w) (shown w) (removedDirs w ++ [tmpDir]))
  end.

End EntryPoints.


(** ** The normalizer on the heap

    [sortMapKeys] and [processValue] once more, on documents as Go holds
    them: a map and a slice are references, [make] allocates a new object,
    an assignment to a key or to an index writes to the object referred
    to. This is the level at which the argument of [sortMapKeys] could be
    written to. A [nil] map or slice is not told apart from an empty
    one. *)

Module Heap.

Section Heap.

Context {number : Type} {R : RangeOrder}.

(** Addresses of the maps and of the arrays behind the slices. *)
Definition loc : Type := positive.

(** An [interface{}] of a decoded document as Go holds it: a map and a
    slice are references to an object on the heap. *)
Inductive hvalue : Type :=
  | HNull
  | HBool (b : bool)
  | HNumber (n : number)
  | HString (s : string)
  | HSlice (s : loc)
  | HMap (m : loc).

Inductive object : Type :=
  | OSlice (elems : list hvalue)
  | OMap (entries : gmap string hvalue).

Abbreviation heap := (gmap loc object).

(** [m[k]]: the zero value for a key that is not in the map. *)
Definition loadKey (m : loc) (k : string) (h : heap) : option hvalue :=
  match h !! m with
  | Some (OMap entries) => Some (default HNull (entries !! k))
  | _ => None
  end.

(** [result[k] = v]. *)
Definition storeKey (result : loc) (k : string) (v : hvalue) (h : heap)
    : option heap :=
  match h !! result with
  | Some (OMap entries) => Some (<[result := OMap (<[k := v]> entries)]> h)
  | _ => None
  end.

(** [processedSlice[i] = v]; an index out of range panics. *)
Definition storeIndex (s : loc) (i : nat) (v : hvalue) (h : heap)
    : option heap :=
  match h !! s with
  | Some (OSlice elems) =>
      if decide (i < length elems)
      then Some (<[s := OSlice (<[i := v]> elems)]> h)
      else None
  | _ => None
  end.

(** [sortMapKeys], with the function it calls on every value. *)
Definition sortMapKeysWith
    (processValue : hvalue → heap → option (hvalue * heap))
    (m : loc) (h : heap) : option (loc * heap) :=
  match h !! m with
  | Some (OMap entries) =>
      let result := fresh (dom h) in
      let h := <[result := OMap ∅]> h in
      let keys := foldl (λ keys '(k, _), keys ++ [k]) [] (range entries) in
      let keys := sort_Strings keys in
      h ← foldl (λ oh k,
                   h ← oh;
                   v ← loadKey m k h;
                   '(pv, h) ← processValue v h;
                   storeKey result k pv h)
                (Some h) keys;
      Some (result, h)
  | _ => None
  end.

(** [processValue]; the recursion is bounded by the fuel. *)
Fixpoint processValue (fuel : nat) (v : hvalue) (h : heap)
    : option (hvalue * heap) :=
  match fuel with
  | 0 => None
  | S fuel =>
      match v with
      | HMap nestedMap =>
          '(result, h) ← sortMapKeysWith (processValue fuel) nestedMap h;
          Some (HMap result, h)
      | HSlice s =>
          match h !! s with
          | Some (OSlice nestedSlice) =>
              let processedSlice := fresh (dom h) in
              let h :=
                <[processedSlice :=
                    OSlice (replicate (length nestedSlice) HNull)]> h in
              '(_, h) ← foldl (λ st item,
                                 '(i, h) ← st;
                                 '(pv, h) ← processValue fuel item h;
                                 h ← storeIndex processedSlice i pv h;
                                 Some (S i, h))
                              (Some (0, h)) nestedSlice;
              Some (HSlice processedSlice, h)
          | _ => None
          end
      | _ => Some (v, h)
      end
  end.

(** [sortMapKeys]. *)
Definition sortMapKeys (fuel : nat) (m : loc) (h : heap)
    : option (loc * heap) :=
  sortMapKeysWith (processValue fuel) m h.

(** The heap value stands for the document value: scalars are equal, a
    slice reference leads to an array of representatives of the elements,
    a map reference to a map with the same keys and representatives of
    the values. *)
Inductive represents (h : heap) : hvalue → value number → Prop :=
  | represents_null : represents h HNull VNull
  | represents_bool b : represents h (HBool b) (VBool b)
  | represents_number n : represents h (HNumber n) (VNumber n)
  | represents_string s : represents h (HString s) (VString s)
  | represents_slice s elems l :
      h !! s = Some (OSlice elems) →
      Forall2 (represents h) elems l →
      represents h (HSlice s) (VArray l)
  | represents_map m entries d :
      h !! m = Some (OMap entries) →
      (∀ k, option_Forall2 (represents h) (entries !! k) (d !! k)) →
      represents h (HMap m) (VObject d).

End Heap.

End Heap.

(** ** Vocabulary of the properties *)

(** No byte of [s] is the opening brace. *)
Definition braceFree (s : string) : Prop :=
  ∀ i, String.get i s ≠ Some "{"%char.

#[global] Instance braceFree_dec (s : string) : Decision (braceFree s).
Proof.
  induction s as [|a s IH].
  - left. by intros [|i].
  - destruct (decide (a = "{"%char)) as [Ha|Ha].
    + right. intros H. apply (H 0). simpl. by rewrite Ha.
    + destruct IH as [Hs|Hs].
      * left. intros [|i]; simpl; [congruence | apply Hs].
      * right. intros H. apply Hs. intros i. apply (H (S i)).
Defined.

Section Vocabulary.

Context {number : Type} `{!EqDecision number}.
Context {R : RangeOrder} {F : Renderer number}.

Abbreviation value := (value number).

(** The value found by following a path of keys through nested maps. *)
Fixpoint fieldAt (keys : list string) (v : value) : option value :=
  match keys with
  | [] => Some v
  | k :: keys =>
      match v with
      | VObject m =>
          match m !! k with
          | Some x => fieldAt keys x
          | None => None
          end
      | _ => None
      end
  end.

(** The map at a path, empty when the path does not lead to a map. *)
Definition mapAt (keys : list string) (v : value) : gmap string value :=
  default ∅ (fieldAt keys v ≫= assertMap).

(** The sequence at a path, empty when the path does not lead to one. *)
Definition sliceAt (keys : list string) (v : value) : list value :=
  default [] (fieldAt keys v ≫= assertSlice).

(** The address of a well-formed resource record: a map with a string
    under ["address"]. *)
Definition addressOf (v : value) : option string :=
  match v with
  | VObject m => m !! "address" ≫= assertString
  | _ => None
  end.

(** The last record of a sequence that carries the address. *)
Definition lastRecord (a : string) (l : list value) : option value :=
  last (filter (λ v, addressOf v = Some a) l).

(** The value a well-formed variable declaration carries. *)
Definition declaredValue (v : value) : option value :=
  match v with
  | VObject varMap => varMap !! "value"
  | _ => None
  end.

(** The collection under a key of a diff record; a record without the key
    (the [nil] map of a section without difference) has none. *)
Definition entriesOf (category : string) (diffMap : gmap string value)
    : list value :=
  default [] (diffMap !! category ≫= assertSlice).

(** The entries a comparison of two section dictionaries reports as
    added: the keys of the new one that the old one lacks. *)
Definition addedEntries (g : string → value → gmap string value)
    (orig : gmap string value) (kv : string * value)
    : list (gmap string value) :=
  match orig !! kv.1 with
  | None => [g kv.1 kv.2]
  | Some _ => []
  end.

(** The entries reported as changed: the keys of the old one that the new
    one has with a value that is not deeply equal. *)
Definition changedEntries (new : gmap string value) (kv : string * value)
    : list (gmap string value) :=
  match new !! kv.1 with
  | Some newV =>
      if negb (DeepEqual kv.2 newV) then [nameOldNew kv.1 kv.2 newV] else []
  | None => []
  end.

(** A diff record reports the key with the value in a category. *)
Definition reports (category k : string) (v : value)
    (diffMap : gmap string value) : Prop :=
  VObject (nameValue k v) ∈ entriesOf category diffMap.

(** An entry that names an attribute outside the skip set. *)
Definition namesUnskipped (e : gmap string value) : Prop :=
  ∃ k, e !! "name" = Some (VString k) ∧ skipped skipAttrs k = false.

(** Every entry of the three slices names an attribute outside the skip
    set. *)
Definition unskippedState (st : attrState) : Prop :=
  Forall namesUnskipped (st_added st) ∧
  Forall namesUnskipped (st_removed st) ∧
  Forall namesUnskipped (st_changed st).

(** The seven names of the skip set. *)
Definition skipSet : list string :=
  ["response_body_base64"; "content_base64sha256"; "content_base64sha512";
   "content_md5"; "content_sha1"; "content_sha256"; "content_sha512"].

(** The two attribute dictionaries agree on every key outside the skip
    set. *)
Definition agreeOutsideSkipSet (origAttrs newAttrs : gmap string value)
    : Prop :=
  ∀ k, skipped skipAttrs k = false → origAttrs !! k = newAttrs !! k.

(** The entry of the changed collection for a resource whose attribute
    comparison found nothing. *)
Definition unchangedAttributesEntry (address : string) : gmap string value :=
  {[ "address" := VString address;
     "attributes" := VObject (diffRecord [] [] []) ]}.

(** With the fuel given, [processValue] returns for every heap value that
    stands for a document value of at most that size; the heap it returns
    is the heap given together with new objects, and the value returned
    stands, in the new objects alone, for the processed document value. *)
Definition processes (fuel : nat) : Prop :=
  ∀ (h : gmap Heap.loc Heap.object) (hv : Heap.hvalue) (v : value),
    Heap.represents h hv v → value_size v ≤ fuel →
    ∃ (hv' : Heap.hvalue) (hnew : gmap Heap.loc Heap.object),
      Heap.processValue fuel hv h = Some (hv', h ∪ hnew) ∧
      h ##ₘ hnew ∧
      Heap.represents hnew hv' (processValue v).

End Vocabulary.

(** ** Closed forms of the loops

    What the loops of the extractors and of the diff engine compute,
    written without the loop: the entries a pass selects from the pairs it
    ranges over, the line and the entry it writes for each, and the state
    a pass of the attribute comparison adds. *)

Section ClosedForms.

Context {number : Type} `{!EqDecision number}.
Context {R : RangeOrder} {F : Renderer number}.

Abbreviation value := (value number).
Abbreviation attrState := (attrState (number := number)).

(** The records of the three sources of resources, in the order they are
    applied. *)
Definition resourceSources (plan : gmap string value) : list value :=
  sliceAt ["prior_state"; "values"; "root_module"; "resources"]
    (VObject plan) ++
  sliceAt ["planned_values"; "root_module"; "resources"] (VObject plan) ++
  sliceAt ["resource_changes"] (VObject plan).

(** The lines written one after the other. *)
Definition joinLines (lines : list string) : string :=
  foldr String.append "" lines.

(** The name an entry of a collection carries. *)
Definition entryName (e : gmap string value) : option value := e !! "name".

(** The entry of a dictionary when the other dictionary lacks its key. *)
Definition absentFrom (other : gmap string value) (kv : string * value)
    : option (string * value) :=
  match other !! kv.1 with
  | None => Some kv
  | Some _ => None
  end.

(** The entry of the old dictionary with the value the new one has for its
    key, when that value is not deeply equal. *)
Definition differingIn (new : gmap string value) (kv : string * value)
    : option (string * value * value) :=
  match new !! kv.1 with
  | Some newV =>
      if negb (DeepEqual kv.2 newV) then Some (kv.1, kv.2, newV) else None
  | None => None
  end.

(** The entries of the collections for a key with a value and for a key
    with two. *)
Definition valueEntry (kv : string * value) : gmap string value :=
  nameValue kv.1 kv.2.

Definition changeEntry (t : string * value * value) : gmap string value :=
  nameOldNew t.1.1 t.1.2 t.2.

(** The line [compareOutputs] writes for an added and for a removed
    output. *)
Definition addedLine (kv : string * value) : string :=
  "+ " +:+ kv.1 +:+ ": " +:+ formatValue kv.2 +:+ nl.

Definition removedLine (kv : string * value) : string :=
  "- " +:+ kv.1 +:+ ": " +:+ formatValue kv.2 +:+ nl.

Definition outputChangeLine (t : string * value * value) : string :=
  formatOutputChange t.1.1 t.1.2 t.2.

(** The line [compareVariables] writes for a changed variable. *)
Definition variableChangeLine (t : string * value * value) : string :=
  "~ " +:+ t.1.1 +:+ ": " +:+ formatValue t.1.2 +:+ " => "
    +:+ formatValue t.2 +:+ nl.

(** What one step of a pass adds to the builder and to the three slices,
    as a state of its own; [appendState] adds it to the state before the
    step. *)
Definition emptyState : attrState := AttrState "" [] [] [].

Definition appendState (st delta : attrState) : attrState :=
  AttrState (st_diff st +:+ st_diff delta)
    (st_added st ++ st_added delta)
    (st_removed st ++ st_removed delta)
    (st_changed st ++ st_changed delta).

Definition sumStates (deltas : list attrState) : attrState :=
  foldr appendState emptyState deltas.

(** The entries of the three slices of a state. *)
Definition allEntries (st : attrState) : list (gmap string value) :=
  st_added st ++ st_removed st ++ st_changed st.

(** The step of [processPriorityAttributes] for one priority key. *)
Definition priorityStep (origAttrs newAttrs : gmap string value)
    (attrK : string) : attrState :=
  match origAttrs !! attrK, newAttrs !! attrK with
  | Some origAttrV, Some newAttrV =>
      if negb (DeepEqual origAttrV newAttrV) then
        AttrState (printAttributeDiff attrK origAttrV newAttrV) [] []
          [nameOldNew attrK origAttrV newAttrV]
      else emptyState
  | Some origAttrV, None =>
      AttrState ("  - " +:+ attrK +:+ ": " +:+ formatValue origAttrV +:+ nl)
        [] [nameValue attrK origAttrV] []
  | None, Some newAttrV =>
      AttrState ("  + " +:+ attrK +:+ ": " +:+ formatValue newAttrV +:+ nl)
        [nameValue attrK newAttrV] [] []
  | None, None => emptyState
  end.

(** The step of [processRegularAttributeChanges] for one entry of the old
    attributes. *)
Definition regularStep (newAttrs : gmap string value)
    (kv : string * value) : attrState :=
  if contains priorityAttrs kv.1 || skipped skipAttrs kv.1 then emptyState
  else
    match newAttrs !! kv.1 with
    | Some newAttrV =>
        if negb (DeepEqual kv.2 newAttrV) then
          AttrState (printAttributeDiff kv.1 kv.2 newAttrV) [] []
            [nameOldNew kv.1 kv.2 newAttrV]
        else emptyState
    | None =>
        AttrState ("  - " +:+ kv.1 +:+ ": " +:+ formatValue kv.2 +:+ nl)
          [] [nameValue kv.1 kv.2] []
    end.

(** The step of [processAddedAttributes] for one entry of the new
    attributes. *)
Definition addedStep (origAttrs : gmap string value)
    (kv : string * value) : attrState :=
  match origAttrs !! kv.1 with
  | None =>
      if negb (contains priorityAttrs kv.1)
         && negb (skipped skipAttrs kv.1) then
        AttrState ("  + " +:+ kv.1 +:+ ": " +:+ formatValue kv.2 +:+ nl)
          [nameValue kv.1 kv.2] [] []
      else emptyState
  | Some _ => emptyState
  end.

(** What the three passes add, one pass after the other. *)
Definition attributeDelta (origAttrs newAttrs : gmap string value)
    : attrState :=
  appendState
    (appendState
       (sumStates (priorityStep origAttrs newAttrs <$> priorityAttrs))
       (sumStates (regularStep newAttrs <$> range origAttrs)))
    (sumStates (addedStep origAttrs <$> range newAttrs)).

(** The entry of the added and of the removed resources. *)
Definition resourceEntry (kv : string * value) : gmap string value :=
  addressValue kv.1 kv.2.

(** The entry of the changed resources for an address with its two
    records, and the lines written for it: the address and the lines of
    the attribute comparison. *)
Definition changedResourceEntry (t : string * value * value)
    : gmap string value :=
  {[ "address" := VString t.1.1;
     "attributes" :=
       VObject (processAttributeDifferences ""
                  (getResourceAttributes t.1.2)
                  (getResourceAttributes t.2)).2 ]}.

Definition changedResourceLines (t : string * value * value) : string :=
  t.1.1 +:+ nl +:+
  (processAttributeDifferences ""
     (getResourceAttributes t.1.2) (getResourceAttributes t.2)).1.

End ClosedForms.

(** ** Sample documents *)

(** Modelled from the spec: the rendering functions are not in the files
    embedded here. The spec has scalars rendered directly and nested
    structures through a generic stringification, a changed output on one
    line with the tilde sign and a changed attribute in an indented form. *)
Fixpoint sample_formatValue (v : value Z) : string :=
  match v with
  | VNull => "<nil>"
  | VBool b => if b then "true" else "false"
  | VNumber n => pretty n
  | VString s => s
  | VArray l =>
      "[" +:+ foldr (λ x acc, sample_formatValue x +:+ " " +:+ acc) "]" l
  | VObject m =>
      "map[" +:+
      map_fold (λ k x acc, k +:+ ":" +:+ sample_formatValue x +:+ " " +:+ acc)
        "]" m
  end.

Definition sampleRenderer : Renderer Z :=
  {| formatValue := sample_formatValue;
     printAttributeDiff := λ k old new,
       "  ~ " +:+ k +:+ ": " +:+ sample_formatValue old +:+ " => "
         +:+ sample_formatValue new +:+ nl;
     formatOutputChange := λ k old new,
       "~ " +:+ k +:+ ": " +:+ sample_formatValue old +:+ " => "
         +:+ sample_formatValue new +:+ nl |}.

(** A plan whose output [url] is in both sources of outputs. *)
Definition sample_outputs : gmap string (value Z) :=
  {[ "url" := VString "https://new.example" ]}.

Definition sample_planned_values : gmap string (value Z) :=
  {[ "outputs" := VObject sample_outputs ]}.

Definition sample_output_changes : gmap string (value Z) :=
  {[ "url" := VString "https://old.example";
     "arn" := VString "arn:aws:s3:::b" ]}.

Definition sample_outputs_plan : gmap string (value Z) :=
  {[ "planned_values" := VObject sample_planned_values;
     "output_changes" := VObject sample_output_changes ]}.

(** A plan whose resource [null_resource.a] is in the prior state and in
    the resource changes, with different records. *)
Definition sample_prior_record : value Z :=
  VObject {[ "address" := VString "null_resource.a";
             "values" := VObject {[ "id" := VString "1";
                                    "content_md5" := VString "aa" ]} ]}.

Definition sample_change_record : value Z :=
  VObject {[ "address" := VString "null_resource.a";
             "change" :=
               VObject {[ "after" :=
                            VObject {[ "id" := VString "1";
                                       "content_md5" := VString "bb" ]} ]} ]}.

Definition sample_resources_plan : gmap string (value Z) :=
  {[ "prior_state" :=
       VObject {[ "values" :=
         VObject {[ "root_module" :=
           VObject {[ "resources" := VArray [sample_prior_record] ]} ]} ]};
     "resource_changes" := VArray [sample_change_record] ]}.

(** A plan with the prior record only. *)
Definition sample_prior_plan : gmap string (value Z) :=
  {[ "prior_state" :=
       VObject {[ "values" :=
         VObject {[ "root_module" :=
           VObject {[ "resources" := VArray [sample_prior_record] ]} ]} ]} ]}.

(** A plan with the change record only. *)
Definition sample_change_plan : gmap string (value Z) :=
  {[ "resource_changes" := VArray [sample_change_record] ]}.

(** A record with both attribute sources. *)
Definition sample_both_record : value Z :=
  VObject {[ "address" := VString "null_resource.b";
             "values" := VObject {[ "id" := VString "1";
                                    "size" := VNumber 2%Z ]};
             "change" :=
               VObject {[ "after" := VObject {[ "size" := VNumber 3%Z ]} ]} ]}.

(** Two documents of the end-to-end scenario of the variables section. *)
Definition sample_east : gmap string (value Z) :=
  {[ "variables" :=
       VObject {[ "region" :=
                    VObject {[ "value" := VString "us-east-1" ]} ]} ]}.

Definition sample_west : gmap string (value Z) :=
  {[ "variables" :=
       VObject {[ "region" :=
                    VObject {[ "value" := VString "us-west-2" ]} ]} ]}.

(** Two documents that differ in a key no section is extracted from. *)
Definition sample_versioned : gmap string (value Z) :=
  {[ "terraform_version" := VString "1.5.0" ]}.

Definition sample_unversioned : gmap string (value Z) := ∅.

(** Attribute dictionaries that differ in a skipped key and in another. *)
Definition sample_old_attrs : gmap string (value Z) :=
  {[ "content_md5" := VString "aa"; "filename" := VString "a.txt";
     "content_sha1" := VString "cc" ]}.

Definition sample_new_attrs : gmap string (value Z) :=
  {[ "content_md5" := VString "bb"; "filename" := VString "b.txt";
     "content_sha256" := VString "dd" ]}.

(** A heap that holds a document with a nested sequence, and the
    document. *)
Definition sample_heap : gmap Heap.loc (Heap.object (number := Z)) :=
  {[ 1%positive :=
       Heap.OMap {[ "b" := Heap.HSlice 2%positive;
                    "a" := Heap.HNumber 1%Z ]};
     2%positive := Heap.OSlice [Heap.HString "x"; Heap.HNull] ]}.

Definition sample_heap_document : gmap string (value Z) :=
  {[ "b" := VArray [VString "x"; VNull]; "a" := VNumber 1%Z ]}.

(** A plan that carries a key [getResources] does not read, besides the
    resources of [sample_resources_plan]. *)
Definition sample_versioned_resources_plan : gmap string (value Z) :=
  <["terraform_version" := VString "1.5.0"]> sample_resources_plan.

(** The text of a document: a string between double quotes. *)
Definition sample_quoted (s : string) : string :=
  String (Ascii.ascii_of_nat 34) s +:+ String (Ascii.ascii_of_nat 34) "".

Definition sample_region_json (region : string) : string :=
  "{" +:+ sample_quoted "variables" +:+ ":{" +:+ sample_quoted "region"
    +:+ ":{" +:+ sample_quoted "value" +:+ ":" +:+ sample_quoted region
    +:+ "}}}".

Definition sample_east_json : string := sample_region_json "us-east-1".

Definition sample_west_json : string := sample_region_json "us-west-2".

(** An environment for the sample runs. The decoder knows the texts of
    [sample_east] and [sample_west] and rejects every other text;
    [terraform show] prints a warning before the text of [old.tfplan],
    the text alone for [new.tfplan], no JSON for [empty.tfplan], and
    fails on every other file; the temporary directory is created; the
    only missing file is [missing.tfplan]. *)
Definition sampleExternals : Externals Z :=
  {| json_Unmarshal := λ s,
       if decide (s = sample_east_json) then inr sample_east
       else if decide (s = sample_west_json) then inr sample_west
       else inl (Library "invalid character");
     terraform_show := λ planFile,
       if decide (planFile = "old.tfplan") then
         inr ("Warning: deprecated" +:+ nl +:+ sample_east_json)
       else if decide (planFile = "new.tfplan") then inr sample_west_json
       else if decide (planFile = "empty.tfplan") then inr "No state."
       else inl (Library "exit status 1");
     os_MkdirTemp := inr "/tmp/terraform-plan-diff1";
     os_notExist := λ path, bool_decide (path = "missing.tfplan") |}.

(** The world before a run. *)
Definition sample_world : world := World "" [] [] [].


(** * Properties *)

(** ** Strings *)

Lemma braceFree_cons a s :
  braceFree (String a s) ↔ a ≠ "{"%char ∧ braceFree s.
Proof.
  split.
  - intros H. split.
    + intros ->. by apply (H 0).
    + intros i. apply (H (S i)).
  - intros [Ha Hs] [|i]; simpl; [congruence | apply Hs].
Qed.

Lemma prefix_brace b s :
  String.prefix "{" (String b s) = bool_decide (b = "{"%char).
Proof.
  change (String.prefix "{" (String b s))
    with (if Ascii.ascii_dec "{" b then String.prefix "" s else false).
  destruct (Ascii.ascii_dec "{" b) as [<-|Hb].
  - by destruct s.
  - rewrite bool_decide_eq_false_2; [done | congruence].
Qed.

Lemma index_brace_cons b s :
  String.index 0 "{" (String b s) =
    if bool_decide (b = "{"%char) then Some 0
    else S <$> String.index 0 "{" s.
Proof.
  change (String.index 0 "{" (String b s))
    with (if String.prefix "{" (String b s) then Some 0
          else match String.index 0 "{" s with
               | Some n => Some (S n)
               | None => None
               end).
  rewrite prefix_brace. by destruct (String.index 0 "{" s).
Qed.

Lemma index_brace_None s :
  braceFree s → String.index 0 "{" s = None.
Proof.
  induction s as [|a s IH]; intros H; [done|].
  apply braceFree_cons in H as [Ha Hs].
  rewrite index_brace_cons, bool_decide_eq_false_2 by done.
  by rewrite IH.
Qed.

Lemma index_brace_Some pre post :
  braceFree pre →
  String.index 0 "{" (pre +:+ String "{" post) = Some (String.length pre).
Proof.
  induction pre as [|a pre IH]; intros H.
  - change ("" +:+ String "{" post) with (String "{" post).
    by rewrite index_brace_cons, bool_decide_eq_true_2.
  - apply braceFree_cons in H as [Ha Hs].
    change (String a pre +:+ String "{" post)
      with (String a (pre +:+ String "{" post)).
    rewrite index_brace_cons, bool_decide_eq_false_2 by done.
    by rewrite IH.
Qed.

Lemma substring_whole s :
  String.substring 0 (String.length s) s = s.
Proof. induction s as [|b s IH]; simpl; [done | by rewrite IH]. Qed.

Lemma substring_suffix pre s :
  String.substring (String.length pre)
    (String.length (pre +:+ s) - String.length pre) (pre +:+ s) = s.
Proof.
  induction pre as [|a pre IH]; simpl.
  - rewrite Nat.sub_0_r. apply substring_whole.
  - apply IH.
Qed.

Lemma brace_split s :
  braceFree s ∨
  ∃ pre post, s = pre +:+ String "{" post ∧ braceFree pre.
Proof.
  induction s as [|a s IH].
  - left. by intros [|i].
  - destruct (decide (a = "{"%char)) as [->|Ha].
    + right. exists "", s. split; [done|]. by intros [|i].
    + destruct IH as [IH|(pre & post & -> & Hpre)].
      * left. by apply braceFree_cons.
      * right. exists (String a pre), post. split; [done|].
        by apply braceFree_cons.
Qed.

(** C9: [extractJSONFromOutput] returns the suffix of its input that starts
    at the first opening brace, with no error; on an input without an
    opening brace it returns the empty string and [ErrNoJSONOutput]; every
    input is of one of the two kinds. *)
Theorem extractJSONFromOutput_first_brace (output : string) :
  (∀ pre post,
     output = pre +:+ String "{" post → braceFree pre →
     extractJSONFromOutput output = (String "{" post, None)) ∧
  (braceFree output →
     extractJSONFromOutput output = ("", Some ErrNoJSONOutput)) ∧
  ((∃ pre post, output = pre +:+ String "{" post ∧ braceFree pre) ∨
   braceFree output).
Proof.
  split; [|split].
  - intros pre post -> Hpre.
    unfold extractJSONFromOutput, strings_Index, slice_from.
    rewrite index_brace_Some by done.
    rewrite bool_decide_eq_false_2 by lia.
    rewrite Nat2Z.id. by rewrite substring_suffix.
  - intros Hfree.
    unfold extractJSONFromOutput, strings_Index.
    by rewrite index_brace_None.
  - destruct (brace_split output); auto.
Qed.

(** ** Nested values *)

Section ValueInduction.

Context {number : Type}.

Abbreviation value := (value number).

Lemma value_size_elem (l : list value) (x : value) :
  x ∈ l → value_size x < value_size (VArray l).
Proof.
  intros Hx. simpl. apply Nat.lt_succ_r.
  induction Hx as [x l|x y l _ IH]; simpl; lia.
Qed.

Lemma value_size_lookup (m : gmap string value) (k : string) (x : value) :
  m !! k = Some x → value_size x < value_size (VObject m).
Proof.
  intros Hk. simpl.
  rewrite (map_fold_delete_L _ _ k x m); [lia | | done].
  intros. lia.
Qed.

(** Induction on a value with the hypothesis for every element of a slice
    and every entry of a map. *)
Lemma value_nested_ind (P : value → Prop) :
  P VNull →
  (∀ b, P (VBool b)) →
  (∀ n, P (VNumber n)) →
  (∀ s, P (VString s)) →
  (∀ l, Forall P l → P (VArray l)) →
  (∀ m, map_Forall (λ _, P) m → P (VObject m)) →
  ∀ v, P v.
Proof.
  intros Hnull Hbool Hnum Hstr Harr Hobj v.
  remember (value_size v) as sz eqn:Hsz.
  revert v Hsz. induction sz as [sz IH] using lt_wf_ind. intros v ->.
  destruct v as [| | | |l|m]; auto.
  - apply Harr, Forall_forall. intros x Hx.
    eapply IH; [|done]. by apply value_size_elem.
  - apply Hobj. intros k x Hk.
    eapply IH; [|done]. by eapply value_size_lookup.
Qed.

End ValueInduction.

(** ** Ranging over a map *)

Section RangeFacts.

Context {R : RangeOrder}.

Lemma range_elem_of {A} (m : gmap string A) (k : string) (v : A) :
  (k, v) ∈ range m ↔ m !! k = Some v.
Proof. by rewrite (range_perm m), elem_of_map_to_list. Qed.

Lemma range_NoDup_fst {A} (m : gmap string A) : NoDup (range m).*1.
Proof. rewrite (range_perm m). apply NoDup_fst_map_to_list. Qed.

Lemma range_fst_elem_of {A} (m : gmap string A) (k : string) :
  k ∈ (range m).*1 ↔ is_Some (m !! k).
Proof.
  rewrite list_elem_of_fmap. split.
  - intros ([k' v] & -> & Hin). apply range_elem_of in Hin. eauto.
  - intros [v Hv]. exists (k, v). split; [done|]. by apply range_elem_of.
Qed.

Lemma list_to_map_range {A} (m : gmap string A) :
  list_to_map (range m) = m.
Proof.
  rewrite <-(list_to_map_to_list m) at 2.
  apply list_to_map_proper; [apply range_NoDup_fst | apply range_perm].
Qed.

Lemma range_empty {A} : range (∅ : gmap string A) = [].
Proof.
  apply Permutation_nil_r. by rewrite (range_perm ∅), map_to_list_empty.
Qed.

End RangeFacts.

(** ** Loops that fill a map *)

Section FillLoops.

Context {A : Type}.

(** The loop [for k, v := range m { result[k] = v }]. *)
Lemma foldl_insert_union (l : list (string * A)) (r : gmap string A) :
  NoDup l.*1 →
  foldl (λ result '(k, v), <[k := v]> result) r l = list_to_map l ∪ r.
Proof.
  revert r. induction l as [|[k v] l IH]; intros r Hnd; simpl.
  - by rewrite (left_id_L ∅ (∪)).
  - apply NoDup_cons in Hnd as [Hk Hnd].
    simpl in Hk. apply not_elem_of_list_to_map_1 in Hk.
    rewrite IH by done.
    by rewrite <-insert_union_l, (insert_union_r _ _ _ _ Hk).
Qed.

(** The loop [for k, v := range m { if _, exists := result[k]; !exists
    { result[k] = v } }]. *)
Lemma foldl_insert_absent_union (l : list (string * A)) (r : gmap string A) :
  NoDup l.*1 →
  foldl (λ result '(k, v),
           match result !! k with
           | Some _ => result
           | None => <[k := v]> result
           end) r l = r ∪ list_to_map l.
Proof.
  revert r. induction l as [|[k v] l IH]; intros r Hnd; simpl.
  - by rewrite (right_id_L ∅ (∪)).
  - apply NoDup_cons in Hnd as [Hk Hnd].
    simpl in Hk. apply not_elem_of_list_to_map_1 in Hk.
    destruct (r !! k) as [x|] eqn:Hr; rewrite IH by done;
      apply map_eq; intros i; rewrite !lookup_union;
      destruct (decide (i = k)) as [->|Hne].
    + by rewrite Hr, lookup_insert_eq, Hk.
    + by rewrite lookup_insert_ne.
    + by rewrite !lookup_insert_eq, Hr, Hk.
    + by rewrite !lookup_insert_ne.
Qed.

(** The loop [for _, k := range keys { result[k] = g(k) }]. *)
Lemma foldl_insert_keys_lookup {B} (g : string → B) (keys : list string)
    (r : gmap string B) (k : string) :
  foldl (λ result k, <[k := g k]> result) r keys !! k =
    if decide (k ∈ keys) then Some (g k) else r !! k.
Proof.
  revert r. induction keys as [|k0 keys IH]; intros r.
  - rewrite decide_False; [done | apply not_elem_of_nil].
  - change (foldl (λ result k, <[k := g k]> result) (<[k0 := g k0]> r) keys
              !! k = if decide (k ∈ k0 :: keys) then Some (g k) else r !! k).
    rewrite IH. destruct (decide (k ∈ keys)) as [Hin|Hnin].
    + rewrite decide_True; [done | by right].
    + destruct (decide (k = k0)) as [->|Hne].
      * rewrite decide_True, lookup_insert_eq; [done | by left].
      * rewrite decide_False, lookup_insert_ne; [done | done |].
        rewrite elem_of_cons. tauto.
Qed.

(** The loop [for k := range m { keys = append(keys, k) }]. *)
Lemma foldl_collect_keys (l : list (string * A)) (keys : list string) :
  foldl (λ keys '(k, _), keys ++ [k]) keys l = keys ++ l.*1.
Proof.
  revert keys. induction l as [|[k v] l IH]; intros keys; simpl.
  - by rewrite app_nil_r.
  - by rewrite IH, <-app_assoc.
Qed.

End FillLoops.

(** ** Normalizer *)

Section Normalizer.

Context {number : Type} {R : RangeOrder}.

Abbreviation value := (value number).

Lemma sortMapKeys_lookup (m : gmap string value) (k : string) :
  sortMapKeys m !! k = processValue <$> m !! k.
Proof.
  unfold sortMapKeys.
  rewrite (foldl_insert_keys_lookup
             (λ k, processValue (default VNull (m !! k)))).
  rewrite foldl_collect_keys, app_nil_l.
  unfold sort_Strings. destruct (decide _) as [Hin|Hnin].
  - rewrite merge_sort_Permutation in Hin.
    apply range_fst_elem_of in Hin as [v ->]. done.
  - rewrite merge_sort_Permutation, range_fst_elem_of in Hnin.
    rewrite lookup_empty. by destruct (m !! k) as [v|]; [destruct Hnin; eauto|].
Qed.

(** The new map has the keys of the old one, each with its value
    processed. *)
Lemma sortMapKeys_fmap (m : gmap string value) :
  sortMapKeys m = processValue <$> m.
Proof.
  apply map_eq. intros k. by rewrite sortMapKeys_lookup, lookup_fmap.
Qed.

(** The recursion of the source: [processValue] of a map is [sortMapKeys]
    of it. *)
Lemma processValue_VObject (m : gmap string value) :
  processValue (VObject m) = VObject (sortMapKeys m).
Proof. simpl. by rewrite sortMapKeys_fmap. Qed.

(** The keys are taken in ascending order when the new map is filled. *)
Lemma sort_Strings_sorted (keys : list string) :
  Sorted string_le (sort_Strings keys).
Proof.
  apply Sorted_merge_sort. intros a b. apply String.leb_total.
Qed.

(** A Go map has no order of its own: the processed value is deeply equal
    to the value given. *)
Lemma processValue_id (v : value) : processValue v = v.
Proof.
  induction v as [| | | |l IH|m IH] using value_nested_ind; simpl; try done.
  - f_equal. rewrite <-(list_fmap_id l) at 2.
    by apply Forall_fmap_ext_1.
  - f_equal. apply map_eq. intros k. rewrite lookup_fmap.
    destruct (m !! k) as [x|] eqn:Hk; [|done]. simpl.
    by rewrite (IH k x Hk).
Qed.

Lemma sortMapKeys_id (m : gmap string value) : sortMapKeys m = m.
Proof.
  rewrite sortMapKeys_fmap. apply map_eq. intros k.
  rewrite lookup_fmap. destruct (m !! k); simpl; [|done].
  by rewrite processValue_id.
Qed.

End Normalizer.

(** ** The normalizer on the heap *)

Section HeapFacts.

Context {number : Type} {R : RangeOrder}.

Abbreviation value := (value number).
Abbreviation hvalue := (Heap.hvalue (number := number)).
Abbreviation heap := (gmap Heap.loc (Heap.object (number := number))).

Lemma value_size_pos (v : value) : 1 ≤ value_size v.
Proof. destruct v; simpl; lia. Qed.

Lemma Forall2_impl_Forall {A B} (P Q : A → B → Prop) (l1 : list A)
    (l2 : list B) :
  Forall2 P l1 l2 → Forall (λ y, ∀ x, P x y → Q x y) l2 → Forall2 Q l1 l2.
Proof.
  induction 1 as [|x y l1 l2 Hxy _ IH]; intros Hall; [constructor|].
  apply Forall_cons in Hall as [Hy Hl]. constructor; auto.
Qed.

Lemma represents_weaken (h h' : heap) (hv : hvalue) (v : value) :
  h ⊆ h' → Heap.represents h hv v → Heap.represents h' hv v.
Proof.
  intros Hsub. revert hv.
  induction v as [| | | |l IH|d IH] using value_nested_ind;
    intros hv Hrep; inversion Hrep; subst; try constructor.
  - econstructor; [by eapply lookup_weaken|].
    by eapply Forall2_impl_Forall.
  - econstructor; [by eapply lookup_weaken|].
    intros k.
    match goal with H : ∀ k, option_Forall2 _ _ _ |- _ => specialize (H k) end.
    destruct (d !! k) as [x|] eqn:Hk;
      match goal with H : option_Forall2 _ _ _ |- _ => inversion H; subst end;
      constructor.
    by apply (IH k x Hk).
Qed.

Lemma union_insert_new (h hnew hn2 : heap) (p : Heap.loc)
    (o o' : Heap.object) :
  h ##ₘ hnew → (h ∪ hnew) ##ₘ hn2 → hnew !! p = Some o →
  <[p := o']> ((h ∪ hnew) ∪ hn2) = h ∪ <[p := o']> (hnew ∪ hn2) ∧
  h ##ₘ <[p := o']> (hnew ∪ hn2) ∧
  delete p hnew ⊆ delete p (<[p := o']> (hnew ∪ hn2)) ∧
  hn2 ⊆ delete p (<[p := o']> (hnew ∪ hn2)) ∧
  ((h ∪ hnew) ∪ hn2) !! p = Some o.
Proof.
  intros Hdisj Hdisj2 Hp.
  assert (h !! p = None) as Hhp by by eapply map_disjoint_Some_r.
  assert (hn2 !! p = None) as Hn2p.
  { eapply map_disjoint_Some_l; [done|].
    by apply lookup_union_Some_r. }
  apply map_disjoint_union_l in Hdisj2 as [Hh2 Hnew2].
  split; [|split; [|split; [|split]]].
  - by rewrite <-(assoc_L (∪)), insert_union_r.
  - apply map_disjoint_insert_r_2; [done|].
    by apply map_disjoint_union_r_2.
  - rewrite delete_insert_eq, delete_union.
    apply map_union_subseteq_l.
  - rewrite delete_insert_eq, delete_union, (delete_id hn2) by done.
    apply map_union_subseteq_r. by apply map_disjoint_delete_l.
  - apply lookup_union_Some_l. by apply lookup_union_Some_r.
Qed.

Lemma slice_loop (fuel : nat) (h : heap) (p : Heap.loc)
    (items : list hvalue) (vs : list value) :
  processes (number := number) fuel →
  Forall2 (Heap.represents h) items vs →
  Forall (λ x, value_size x ≤ fuel) vs →
  ∀ (done : list hvalue) (doneV : list value) (hnew : heap),
    h ##ₘ hnew →
    hnew !! p =
      Some (Heap.OSlice (done ++ replicate (length items) Heap.HNull)) →
    Forall2 (Heap.represents (delete p hnew)) done doneV →
    ∃ (hnew' : heap) (out : list hvalue),
      foldl (λ st item,
               '(i, h) ← st;
               '(pv, h) ← Heap.processValue fuel item h;
               h ← Heap.storeIndex p i pv h;
               Some (S i, h))
            (Some (length done, h ∪ hnew)) items =
        Some (length out, h ∪ hnew') ∧
      h ##ₘ hnew' ∧
      hnew' !! p = Some (Heap.OSlice out) ∧
      Forall2 (Heap.represents (delete p hnew')) out
        (doneV ++ (processValue <$> vs)).
Proof.
  intros Hfuel Hitems. induction Hitems as [|e x items vs Hex _ IH];
    intros Hsize done doneV hnew Hdisj Hp Hdone.
  - exists hnew, done. simpl in *. rewrite app_nil_r in *. done.
  - apply Forall_cons in Hsize as [Hx Hsize].
    destruct (Hfuel (h ∪ hnew) e x) as (pv & hn2 & Hrun & Hdisj2 & Hpv);
      [|done|].
    { eapply represents_weaken; [|done]. apply map_union_subseteq_l. }
    simpl foldl. simpl mbind at 1. rewrite Hrun. simpl.
    destruct (union_insert_new h hnew hn2 p _
                (Heap.OSlice (done ++ pv :: replicate (length items) Heap.HNull))
                Hdisj Hdisj2 Hp) as (Heq & Hdisj' & Hsub1 & Hsub2 & Hlook).
    unfold Heap.storeIndex. rewrite Hlook.
    rewrite decide_True by (rewrite length_app; simpl; lia).
    simpl.
    replace (<[length done:=pv]>
               (done ++ Heap.HNull :: replicate (length items) Heap.HNull))
      with (done ++ pv :: replicate (length items) Heap.HNull).
    2:{ rewrite insert_app_r_alt, Nat.sub_diag by done. done. }
    rewrite Heq.
    destruct (IH Hsize (done ++ [pv]) (doneV ++ [processValue x])
                (<[p := Heap.OSlice
                          (done ++ pv :: replicate (length items) Heap.HNull)]>
                   (hnew ∪ hn2)))
      as (hnew' & out & Hloop & Hdisj3 & Hp3 & Hout).
    + done.
    + by rewrite lookup_insert_eq, <-app_assoc.
    + apply Forall2_app.
      * eapply Forall2_impl; [exact Hdone|].
        intros hv v Hrep. by apply (represents_weaken _ _ _ _ Hsub1).
      * constructor; [|constructor].
        by apply (represents_weaken _ _ _ _ Hsub2).
    + exists hnew', out. rewrite length_app, Nat.add_1_r in Hloop.
      split; [done|]. split; [done|]. split; [done|].
      by rewrite <-app_assoc in Hout.
Qed.

Lemma map_loop (fuel : nat) (h : heap) (m p : Heap.loc)
    (entries : gmap string hvalue) (d : gmap string value)
    (keys : list string) :
  processes (number := number) fuel →
  h !! m = Some (Heap.OMap entries) →
  (∀ k, option_Forall2 (Heap.represents h) (entries !! k) (d !! k)) →
  (∀ k x, d !! k = Some x → value_size x ≤ fuel) →
  Forall (λ k, is_Some (d !! k)) keys →
  ∀ (rh : gmap string hvalue) (rv : gmap string value) (hnew : heap),
    h ##ₘ hnew →
    hnew !! p = Some (Heap.OMap rh) →
    (∀ k, option_Forall2 (Heap.represents (delete p hnew))
            (rh !! k) (rv !! k)) →
    ∃ (hnew' : heap) (rh' : gmap string hvalue),
      foldl (λ oh k,
               h ← oh;
               v ← Heap.loadKey m k h;
               '(pv, h) ← Heap.processValue fuel v h;
               Heap.storeKey p k pv h)
            (Some (h ∪ hnew)) keys = Some (h ∪ hnew') ∧
      h ##ₘ hnew' ∧
      hnew' !! p = Some (Heap.OMap rh') ∧
      ∀ k, option_Forall2 (Heap.represents (delete p hnew')) (rh' !! k)
             (foldl (λ result k,
                       <[k := processValue (default VNull (d !! k))]> result)
                    rv keys !! k).
Proof.
  intros Hfuel Hm Hentries Hsize Hkeys.
  induction Hkeys as [|k keys [x Hx] _ IH]; intros rh rv hnew Hdisj Hp Hdone.
  - by exists hnew, rh.
  - pose proof (Hentries k) as Hk. rewrite Hx in Hk.
    inversion Hk as [e x' Hex He|]; subst x'. symmetry in He.
    destruct (Hfuel (h ∪ hnew) e x) as (pv & hn2 & Hrun & Hdisj2 & Hpv).
    { eapply represents_weaken; [|done]. apply map_union_subseteq_l. }
    { by eapply Hsize. }
    destruct (union_insert_new h hnew hn2 p _
                (Heap.OMap (<[k := pv]> rh)) Hdisj Hdisj2 Hp)
      as (Heq & Hdisj' & Hsub1 & Hsub2 & Hlook).
    assert (Heap.loadKey m k (h ∪ hnew) = Some e) as Hload.
    { unfold Heap.loadKey.
      by rewrite (lookup_union_Some_l _ _ _ _ Hm), He. }
    assert (Heap.storeKey p k pv (h ∪ hnew ∪ hn2) =
              Some (h ∪ <[p := Heap.OMap (<[k := pv]> rh)]> (hnew ∪ hn2)))
      as Hstore.
    { unfold Heap.storeKey. by rewrite Hlook, Heq. }
    simpl foldl. simpl mbind at 1. rewrite Hload. simpl.
    rewrite Hrun. simpl. rewrite Hstore, Hx. simpl.
    apply (IH (<[k := pv]> rh));
      [done | by rewrite lookup_insert_eq |].
    intros k'. destruct (decide (k' = k)) as [->|Hne].
    + rewrite !lookup_insert_eq. constructor.
      by apply (represents_weaken _ _ _ _ Hsub2).
    + rewrite !lookup_insert_ne by done.
      destruct (Hdone k'); constructor.
      by apply (represents_weaken _ _ _ _ Hsub1).
Qed.

Lemma processes_all (fuel : nat) : processes (number := number) fuel.
Proof.
  induction fuel as [|fuel IH]; intros h hv v Hrep Hsize.
  { pose proof (value_size_pos v). lia. }
  inversion Hrep as [| | | |s elems l Hs Helems|m entries d Hm Hentries];
    subst; simpl.
  - exists Heap.HNull, ∅. rewrite (right_id_L ∅ (∪)).
    repeat split; [apply map_disjoint_empty_r | constructor].
  - exists (Heap.HBool b), ∅. rewrite (right_id_L ∅ (∪)).
    repeat split; [apply map_disjoint_empty_r | constructor].
  - exists (Heap.HNumber n), ∅. rewrite (right_id_L ∅ (∪)).
    repeat split; [apply map_disjoint_empty_r | constructor].
  - exists (Heap.HString s), ∅. rewrite (right_id_L ∅ (∪)).
    repeat split; [apply map_disjoint_empty_r | constructor].
  - rewrite Hs.
    set (p := fresh (dom h)).
    assert (h !! p = None) as Hp by apply not_elem_of_dom, is_fresh.
    rewrite (insert_union_singleton_r h p) by done.
    destruct (slice_loop fuel h p elems l IH Helems) with
      (done := @nil hvalue) (doneV := @nil value)
      (hnew := ({[p := Heap.OSlice (replicate (length elems) Heap.HNull)]}
                  : heap))
      as (hnew' & out & Hloop & Hdisj & Hout & Hall).
    + apply Forall_forall. intros x Hx.
      pose proof (value_size_elem l x Hx). lia.
    + by apply map_disjoint_singleton_r_2.
    + by rewrite lookup_singleton_eq.
    + constructor.
    + simpl in Hloop. rewrite Hloop. simpl.
      exists (Heap.HSlice p), hnew'. split; [done|]. split; [done|].
      econstructor; [done|].
      eapply Forall2_impl; [exact Hall|].
      intros hv v Hv. eapply represents_weaken; [|done]. apply delete_subseteq.
  - unfold Heap.sortMapKeysWith. rewrite Hm.
    set (p := fresh (dom h)).
    assert (h !! p = None) as Hp by apply not_elem_of_dom, is_fresh.
    rewrite (insert_union_singleton_r h p) by done.
    assert (∀ k, is_Some (entries !! k) ↔ is_Some (d !! k)) as Hdom.
    { intros k. destruct (Hentries k); split; intros [? ?]; eauto; done. }
    destruct (map_loop fuel h m p entries d
                (sort_Strings
                   (foldl (λ keys '(k, _), keys ++ [k]) [] (range entries)))
                IH Hm Hentries)
      with (rh := (∅ : gmap string hvalue)) (rv := (∅ : gmap string value))
           (hnew := ({[p := Heap.OMap ∅]} : heap))
      as (hnew' & rh' & Hloop & Hdisj & Hout & Hall).
    + intros k x Hk. pose proof (value_size_lookup d k x Hk). lia.
    + apply Forall_forall. intros k Hk. apply Hdom.
      unfold sort_Strings in Hk.
      rewrite merge_sort_Permutation, foldl_collect_keys, app_nil_l in Hk.
      by apply range_fst_elem_of.
    + by apply map_disjoint_singleton_r_2.
    + by rewrite lookup_singleton_eq.
    + intros k. rewrite !lookup_empty. constructor.
    + rewrite Hloop. simpl.
      exists (Heap.HMap p), hnew'. split; [done|]. split; [done|].
      econstructor; [done|]. intros k. specialize (Hall k).
      rewrite foldl_insert_keys_lookup in Hall.
      rewrite lookup_fmap.
      destruct (decide _) as [Hin|Hnin].
      * unfold sort_Strings in Hin.
        rewrite merge_sort_Permutation, foldl_collect_keys, app_nil_l in Hin.
        apply range_fst_elem_of, Hdom in Hin as [x Hx]. rewrite Hx in *.
        simpl in *. inversion Hall; subst. constructor.
        eapply represents_weaken; [|done]. apply delete_subseteq.
      * unfold sort_Strings in Hnin.
        rewrite merge_sort_Permutation, foldl_collect_keys, app_nil_l,
          range_fst_elem_of, Hdom in Hnin.
        rewrite lookup_empty in Hall.
        destruct (d !! k) as [x|] eqn:Hx; [destruct Hnin; eauto|].
        simpl. inversion Hall; subst. constructor.
Qed.

Lemma sortMapKeys_on_heap (fuel : nat) (h : heap) (m : Heap.loc)
    (d : gmap string value) :
  Heap.represents h (Heap.HMap m) (VObject d) →
  value_size (VObject d) ≤ S fuel →
  ∃ (result : Heap.loc) (hnew : heap),
    Heap.sortMapKeys fuel m h = Some (result, h ∪ hnew) ∧
    h ##ₘ hnew ∧
    Heap.represents hnew (Heap.HMap result) (VObject (sortMapKeys d)).
Proof.
  intros Hrep Hsize.
  destruct (processes_all (S fuel) h (Heap.HMap m) (VObject d) Hrep Hsize)
    as (hv' & hnew & Hrun & Hdisj & Hout).
  simpl in Hrun. unfold Heap.sortMapKeys.
  destruct (Heap.sortMapKeysWith (Heap.processValue fuel) m h)
    as [[result h']|]; [|done].
  simpl in Hrun. injection Hrun as <- ->.
  exists result, hnew. rewrite sortMapKeys_fmap. done.
Qed.

Lemma represents_entries_insert (h : heap) (k : string) (e : hvalue)
    (x : value) (entries : gmap string hvalue) (d : gmap string value) :
  Heap.represents h e x →
  (∀ k', option_Forall2 (Heap.represents h) (entries !! k') (d !! k')) →
  ∀ k', option_Forall2 (Heap.represents h)
          (<[k := e]> entries !! k') (<[k := x]> d !! k').
Proof.
  intros Hex Hall k'. destruct (decide (k' = k)) as [->|Hne].
  - rewrite !lookup_insert_eq. by constructor.
  - by rewrite !lookup_insert_ne.
Qed.

Lemma represents_entries_singleton (h : heap) (k : string) (e : hvalue)
    (x : value) :
  Heap.represents h e x →
  ∀ k', option_Forall2 (Heap.represents h)
          (({[k := e]} : gmap string hvalue) !! k')
          (({[k := x]} : gmap string value) !! k').
Proof.
  intros Hex k'. destruct (decide (k' = k)) as [->|Hne].
  - rewrite !lookup_singleton_eq. by constructor.
  - rewrite !lookup_singleton_ne by done. constructor.
Qed.

(** C7: normalization is idempotent, [sortMapKeys (sortMapKeys d)] is
    [sortMapKeys d]; the function keeps every key and processes its value
    recursively, a nested map by [sortMapKeys] and a sequence element by
    element in the order given, and passes every other value through
    unchanged. It does not write to its argument: on a heap that holds the
    document, with fuel for its size, [sortMapKeys] returns a new map, the
    heap it leaves is the heap given together with new objects, every
    object of the heap given is as it was, the argument still stands for
    the document, and the new map stands for the normalized document in
    the new objects alone. *)
Theorem sortMapKeys_idempotent (d : gmap string value) :
  sortMapKeys (sortMapKeys d) = sortMapKeys d ∧
  (∀ k, sortMapKeys d !! k = processValue <$> d !! k) ∧
  (∀ m : gmap string value,
     processValue (VObject m) = VObject (sortMapKeys m)) ∧
  (∀ l : list value,
     processValue (VArray l) = VArray (processValue <$> l) ∧
     length (processValue <$> l) = length l) ∧
  processValue (VNull : value) = VNull ∧
  (∀ b, processValue (VBool b : value) = VBool b) ∧
  (∀ n : number, processValue (VNumber n) = VNumber n) ∧
  (∀ s, processValue (VString s : value) = VString s) ∧
  (∀ (h : heap) (m : Heap.loc),
     Heap.represents h (Heap.HMap m) (VObject d) →
     ∃ (result : Heap.loc) (hnew : heap),
       Heap.sortMapKeys (value_size (VObject d)) m h =
         Some (result, h ∪ hnew) ∧
       h ##ₘ hnew ∧
       (∀ l o, h !! l = Some o → (h ∪ hnew) !! l = Some o) ∧
       Heap.represents (h ∪ hnew) (Heap.HMap m) (VObject d) ∧
       Heap.represents hnew (Heap.HMap result) (VObject (sortMapKeys d))).
Proof.
  split; [by rewrite !sortMapKeys_id|].
  split; [apply sortMapKeys_lookup|].
  split; [apply processValue_VObject|].
  split; [intros l; split; [done | apply length_fmap]|].
  do 4 (split; [done|]).
  intros h m Hrep.
  destruct (sortMapKeys_on_heap (value_size (VObject d)) h m d Hrep)
    as (result & hnew & Hrun & Hdisj & Hout); [lia|].
  exists result, hnew. split; [done|]. split; [done|].
  split; [|split; [|done]].
  - intros l o Hl. by apply lookup_union_Some_l.
  - eapply represents_weaken; [|done]. apply map_union_subseteq_l.
Qed.
End HeapFacts.

(** ** Section extractors *)

Section Extractors.

Context {number : Type} `{!EqDecision number} {R : RangeOrder}.

Abbreviation value := (value number).

Lemma lastRecord_cons (a : string) (x : value) (l : list value) :
  lastRecord a (x :: l) =
    match lastRecord a l with
    | Some r => Some r
    | None => if decide (addressOf x = Some a) then Some x else None
    end.
Proof.
  unfold lastRecord. rewrite filter_cons.
  destruct (decide (addressOf x = Some a)).
  - by rewrite last_cons.
  - by destruct (last _).
Qed.

Lemma lastRecord_None (a : string) (l : list value) :
  lastRecord a l = None ↔ ∀ x, x ∈ l → addressOf x ≠ Some a.
Proof.
  unfold lastRecord. rewrite last_None. split.
  - intros Hnil x Hx Ha.
    assert (x ∈ filter (λ v, addressOf v = Some a) l) as Hin
      by by apply list_elem_of_filter.
    rewrite Hnil in Hin. by apply not_elem_of_nil in Hin.
  - intros Hall. destruct (filter _ l) as [|y l'] eqn:Hf; [done|].
    assert (y ∈ filter (λ v, addressOf v = Some a) l) as Hin
      by (rewrite Hf; left).
    apply list_elem_of_filter in Hin as [Ha Hy]. by destruct (Hall y Hy).
Qed.

Lemma lastRecord_Some (a : string) (l : list value) (r : value) :
  lastRecord a l = Some r ↔
  ∃ l1 l2, l = l1 ++ r :: l2 ∧ addressOf r = Some a ∧
           ∀ x, x ∈ l2 → addressOf x ≠ Some a.
Proof.
  induction l as [|x l IH].
  - split; [done|]. intros (l1 & l2 & Hl & _). by destruct l1.
  - rewrite lastRecord_cons. split.
    + destruct (lastRecord a l) as [r'|] eqn:Hlast.
      * intros [= ->]. destruct (proj1 IH eq_refl) as (l1 & l2 & -> & Ha & Hl2).
        by exists (x :: l1), l2.
      * case_decide as Hx; [|done]. intros [= ->].
        exists [], l. split; [done|]. split; [done|].
        by apply lastRecord_None.
    + intros (l1 & l2 & Hl & Ha & Hl2). destruct l1 as [|y l1].
      * injection Hl as -> ->.
        apply lastRecord_None in Hl2. rewrite Hl2.
        by rewrite decide_True.
      * injection Hl as -> ->.
        by rewrite (proj2 (IH) (ex_intro _ l1 (ex_intro _ l2
                     (conj eq_refl (conj Ha Hl2))))).
Qed.

(** The loop of [processRootModuleResources] and of
    [processResourceChanges]. *)
Lemma resource_loop_lookup (l : list value) (result : gmap string value)
    (a : string) :
  foldl (λ result res,
           match assertMap res with
           | None => result
           | Some resMap =>
               match resMap !! "address" with
               | None => result
               | Some addressVal =>
                   match assertString addressVal with
                   | None => result
                   | Some address => <[address := VObject resMap]> result
                   end
               end
           end) result l !! a =
    match lastRecord a l with
    | Some r => Some r
    | None => result !! a
    end.
Proof.
  revert result. induction l as [|x l IH]; intros result; [done|].
  simpl. rewrite IH, lastRecord_cons.
  destruct (lastRecord a l) as [r|]; [done|].
  unfold addressOf. destruct x as [| | | | |m]; simpl; try done.
  destruct (m !! "address") as [[| | |s| |]|]; simpl; try done.
  destruct (decide (s = a)) as [->|Hne].
  - by rewrite decide_True, lookup_insert_eq.
  - rewrite decide_False, lookup_insert_ne by congruence. done.
Qed.

Lemma processRootModuleResources_lookup
    (rootModule result : gmap string value) (a : string) :
  processRootModuleResources rootModule result !! a =
    match lastRecord a (sliceAt ["resources"] (VObject rootModule)) with
    | Some r => Some r
    | None => result !! a
    end.
Proof.
  unfold processRootModuleResources, sliceAt. simpl.
  destruct (rootModule !! "resources") as [v|]; simpl; [|done].
  destruct v; simpl; try done. apply resource_loop_lookup.
Qed.

Lemma processPriorStateResources_lookup
    (plan result : gmap string value) (a : string) :
  processPriorStateResources plan result !! a =
    match lastRecord a
            (sliceAt ["prior_state"; "values"; "root_module"; "resources"]
               (VObject plan)) with
    | Some r => Some r
    | None => result !! a
    end.
Proof.
  unfold processPriorStateResources, sliceAt. simpl.
  destruct (plan !! "prior_state") as [v|]; simpl; [|done].
  destruct v as [| | | | |m1]; simpl; try done.
  destruct (m1 !! "values") as [v|]; simpl; [|done].
  destruct v as [| | | | |m2]; simpl; try done.
  destruct (m2 !! "root_module") as [v|]; simpl; [|done].
  destruct v as [| | | | |m3]; simpl; try done.
  apply processRootModuleResources_lookup.
Qed.

Lemma processPlannedValuesResources_lookup
    (plan result : gmap string value) (a : string) :
  processPlannedValuesResources plan result !! a =
    match lastRecord a
            (sliceAt ["planned_values"; "root_module"; "resources"]
               (VObject plan)) with
    | Some r => Some r
    | None => result !! a
    end.
Proof.
  unfold processPlannedValuesResources, sliceAt. simpl.
  destruct (plan !! "planned_values") as [v|]; simpl; [|done].
  destruct v as [| | | | |m1]; simpl; try done.
  destruct (m1 !! "root_module") as [v|]; simpl; [|done].
  destruct v as [| | | | |m2]; simpl; try done.
  apply processRootModuleResources_lookup.
Qed.

Lemma processResourceChanges_lookup
    (plan result : gmap string value) (a : string) :
  processResourceChanges plan result !! a =
    match lastRecord a (sliceAt ["resource_changes"] (VObject plan)) with
    | Some r => Some r
    | None => result !! a
    end.
Proof.
  unfold processResourceChanges, sliceAt. simpl.
  destruct (plan !! "resource_changes") as [v|]; simpl; [|done].
  destruct v; simpl; try done. apply resource_loop_lookup.
Qed.

(** C2: [getResources] maps an address to the last record carrying it in
    the latest of the three sources that has one, the sources being applied
    in the order prior state, planned values, resource changes; so a record
    of [resource_changes] is retained whatever the other two sources hold
    for its address. *)
Theorem getResources_precedence (plan : gmap string value) (a : string) :
  let prior :=
    sliceAt ["prior_state"; "values"; "root_module"; "resources"]
      (VObject plan) in
  let planned :=
    sliceAt ["planned_values"; "root_module"; "resources"] (VObject plan) in
  let changes := sliceAt ["resource_changes"] (VObject plan) in
  getResources plan !! a =
    match lastRecord a changes with
    | Some r => Some r
    | None =>
        match lastRecord a planned with
        | Some r => Some r
        | None => lastRecord a prior
        end
    end ∧
  (∀ r, lastRecord a changes = Some r →
        getResources plan !! a = Some r ∧ r ∈ changes ∧
        addressOf r = Some a) ∧
  (∀ r, lastRecord a changes = None → lastRecord a planned = Some r →
        getResources plan !! a = Some r ∧ r ∈ planned ∧
        addressOf r = Some a) ∧
  (∀ r, lastRecord a changes = None → lastRecord a planned = None →
        lastRecord a prior = Some r →
        getResources plan !! a = Some r ∧ r ∈ prior ∧ addressOf r = Some a).
Proof.
  intros prior planned changes.
  assert (getResources plan !! a =
            match lastRecord a changes with
            | Some r => Some r
            | None =>
                match lastRecord a planned with
                | Some r => Some r
                | None => lastRecord a prior
                end
            end) as Heq.
  { unfold getResources.
    rewrite processResourceChanges_lookup,
      processPlannedValuesResources_lookup,
      processPriorStateResources_lookup, lookup_empty.
    fold prior planned changes. by destruct (lastRecord a prior). }
  assert (∀ (l : list value) (r : value),
            lastRecord a l = Some r → r ∈ l ∧ addressOf r = Some a) as Hin.
  { intros l r (l1 & l2 & -> & Ha & _)%lastRecord_Some. split; [|done].
    apply elem_of_app. right. left. }
  split; [done|]. rewrite Heq. split; [|split].
  - intros r Hc. rewrite Hc. destruct (Hin _ _ Hc). done.
  - intros r Hc Hp. rewrite Hc, Hp. destruct (Hin _ _ Hp). done.
  - intros r Hc Hp Hs. rewrite Hc, Hp. destruct (Hin _ _ Hs). done.
Qed.

Lemma getOutputs_union (plan : gmap string value) :
  getOutputs plan =
    mapAt ["planned_values"; "outputs"] (VObject plan) ∪
    mapAt ["output_changes"] (VObject plan).
Proof.
  assert (∀ m r : gmap string value,
            foldl (λ result '(k, v), <[k := v]> result) r (range m) = m ∪ r)
    as Hfill.
  { intros m r. rewrite foldl_insert_union by apply range_NoDup_fst.
    by rewrite list_to_map_range. }
  assert (∀ m r : gmap string value,
            foldl (λ result '(k, v),
                     match result !! k with
                     | Some _ => result
                     | None => <[k := v]> result
                     end) r (range m) = r ∪ m) as Hadd.
  { intros m r. rewrite foldl_insert_absent_union by apply range_NoDup_fst.
    by rewrite list_to_map_range. }
  unfold getOutputs, mapAt. simpl.
  destruct (plan !! "output_changes") as [oc|] eqn:Hoc; simpl.
  - destruct oc as [| | | | |oc]; simpl;
      rewrite ?(right_id_L ∅ (∪)), ?Hadd;
      (destruct (plan !! "planned_values") as [[| | | | |pv]|]; simpl;
       [done..| |done]);
      (destruct (pv !! "outputs") as [[| | | | |outs]|]; simpl;
       rewrite ?Hfill, ?(right_id_L ∅ (∪)); done).
  - rewrite ?(right_id_L ∅ (∪)).
    destruct (plan !! "planned_values") as [[| | | | |pv]|]; simpl;
      try done.
    destruct (pv !! "outputs") as [[| | | | |outs]|]; simpl;
      rewrite ?Hfill, ?(right_id_L ∅ (∪)); done.
Qed.

(** C1: when an output name is both in the [planned_values.outputs] map,
    with value [X], and in the [output_changes] map, with another value
    [Y], [getOutputs] maps it to [X]; for every name the entry of
    [planned_values.outputs] is taken when there is one, and that of
    [output_changes] otherwise. *)
Theorem getOutputs_planned_values_first
    (plan plannedValues outputs outputChanges : gmap string value)
    (k : string) (X Y : value) :
  plan !! "planned_values" = Some (VObject plannedValues) →
  plannedValues !! "outputs" = Some (VObject outputs) →
  plan !! "output_changes" = Some (VObject outputChanges) →
  outputs !! k = Some X →
  outputChanges !! k = Some Y →
  X ≠ Y →
  getOutputs plan !! k = Some X ∧
  ∀ k', getOutputs plan !! k' =
          match outputs !! k' with
          | Some x => Some x
          | None => outputChanges !! k'
          end.
Proof.
  intros Hpv Houts Hoc HX HY Hne.
  assert (∀ k', getOutputs plan !! k' =
                  match outputs !! k' with
                  | Some x => Some x
                  | None => outputChanges !! k'
                  end) as Hall.
  { intros k'. rewrite getOutputs_union. unfold mapAt. simpl.
    rewrite Hpv, Houts, Hoc. simpl. rewrite lookup_union.
    by destruct (outputs !! k'), (outputChanges !! k'). }
  split; [|done]. by rewrite Hall, HX.
Qed.

Lemma getResourceAttributes_union (resource : value) :
  getResourceAttributes resource =
    mapAt ["change"; "after"] resource ∪ mapAt ["values"] resource.
Proof.
  assert (∀ m r : gmap string value,
            foldl (λ result '(k, v), <[k := v]> result) r (range m) = m ∪ r)
    as Hfill.
  { intros m r. rewrite foldl_insert_union by apply range_NoDup_fst.
    by rewrite list_to_map_range. }
  unfold getResourceAttributes, mapAt.
  destruct resource as [| | | | |resMap]; simpl;
    rewrite ?(left_id_L ∅ (∪)); try done.
  unfold extractChangeAfterField, extractValuesField.
  destruct (resMap !! "change") as [[| | | | |change]|]; simpl;
    rewrite ?(left_id_L ∅ (∪));
    try (destruct (resMap !! "values") as [[| | | | |values]|]; simpl;
         rewrite ?Hfill, ?(right_id_L ∅ (∪)); done).
  destruct (change !! "after") as [[| | | | |after]|]; simpl;
    rewrite ?(left_id_L ∅ (∪)), ?Hfill;
    destruct (resMap !! "values") as [[| | | | |values]|]; simpl;
    rewrite ?Hfill, ?(right_id_L ∅ (∪)); done.
Qed.

(** C8: the effective attributes of a resource record are the fields of
    its [values] map overlaid by the fields of its [change.after] map, the
    latter winning on a key both have; a record with neither map, and a
    value that is not a map, have no attributes. *)
Theorem getResourceAttributes_overlay (resource : value) :
  let values := mapAt ["values"] resource in
  let after := mapAt ["change"; "after"] resource in
  (∀ k, getResourceAttributes resource !! k =
          match after !! k with
          | Some x => Some x
          | None => values !! k
          end) ∧
  (fieldAt ["values"] resource ≫= assertMap = None →
   fieldAt ["change"; "after"] resource ≫= assertMap = None →
   getResourceAttributes resource = ∅) ∧
  (assertMap resource = None → getResourceAttributes resource = ∅).
Proof.
  intros values after. split; [|split].
  - intros k. rewrite getResourceAttributes_union, lookup_union.
    fold values after. by destruct (after !! k), (values !! k).
  - intros Hv Ha. rewrite getResourceAttributes_union. unfold mapAt.
    rewrite Hv, Ha. simpl. by rewrite (left_id_L ∅ (∪)).
  - by destruct resource.
Qed.

End Extractors.

(** ** Loops that append to a slice *)

Section AppendLoops.

Context {S X E : Type}.

(** A loop whose body appends [sel x] to one slice of its state appends
    the selections of the elements visited, in the order of the visit. *)
Lemma foldl_append (f : S → X → S) (proj : S → list E) (sel : X → list E)
    (l : list X) (st : S) :
  (∀ st x, proj (f st x) = proj st ++ sel x) →
  proj (foldl f st l) = proj st ++ (l ≫= sel).
Proof.
  intros Hf. revert st. induction l as [|x l IH]; intros st; simpl.
  - by rewrite app_nil_r.
  - by rewrite IH, Hf, <-app_assoc.
Qed.

(** A property of the state that every step keeps holds after the loop. *)
Lemma foldl_invariant (P : S → Prop) (f : S → X → S) (l : list X) (st : S) :
  (∀ st x, x ∈ l → P st → P (f st x)) → P st → P (foldl f st l).
Proof.
  revert st. induction l as [|x l IH]; intros st Hstep Hst; [done|].
  simpl. apply IH.
  - intros st' y Hy. apply Hstep. by right.
  - apply Hstep; [by left | done].
Qed.

(** What the step for one element establishes, and every step keeps, holds
    after a loop that visits the element. *)
Lemma foldl_reaches (P : S → Prop) (f : S → X → S) (l : list X) (st : S)
    (x : X) :
  x ∈ l → (∀ st, P (f st x)) → (∀ st y, P st → P (f st y)) →
  P (foldl f st l).
Proof.
  intros Hx Hhit Hkeep. revert st.
  induction l as [|y l IH]; intros st; [by apply not_elem_of_nil in Hx|].
  simpl. apply elem_of_cons in Hx as [->|Hx].
  - apply foldl_invariant; [|apply Hhit]. intros st' z _. apply Hkeep.
  - by apply IH.
Qed.

End AppendLoops.

(** ** Diff engine *)

Section EngineFacts.

Context {number : Type} `{!EqDecision number}.

Abbreviation value := (value number).

Lemma entriesOf_diffRecord (category : string)
    (added removed changed : list (gmap string value)) :
  entriesOf category (diffRecord added removed changed) =
    if decide (category = "changed") then VObject <$> changed
    else if decide (category = "removed") then VObject <$> removed
    else if decide (category = "added") then VObject <$> added
    else [].
Proof.
  unfold entriesOf, diffRecord, records.
  repeat case_decide; subst; simplify_map_eq; done.
Qed.

Lemma diffRecord_lookup_added (added removed changed : list (gmap string value)) :
  diffRecord added removed changed !! "added" = Some (records added).
Proof. unfold diffRecord. by simplify_map_eq. Qed.

Lemma diffRecord_lookup_removed
    (added removed changed : list (gmap string value)) :
  diffRecord added removed changed !! "removed" = Some (records removed).
Proof. unfold diffRecord. by simplify_map_eq. Qed.

Lemma diffRecord_lookup_changed
    (added removed changed : list (gmap string value)) :
  diffRecord added removed changed !! "changed" = Some (records changed).
Proof. unfold diffRecord. by simplify_map_eq. Qed.

Context {R : RangeOrder} {F : Renderer number}.

Lemma added_loop (orig new : gmap string value)
    (line : string → value → string) (g : string → value → gmap string value)
    (diff : string) :
  (foldl (λ '(diff, added) '(k, v),
            match orig !! k with
            | None => (diff +:+ line k v, added ++ [g k v])
            | Some _ => (diff, added)
            end) (diff, []) (range new)).2 =
    range new ≫= addedEntries g orig.
Proof.
  rewrite (foldl_append _ snd (addedEntries g orig)); [done|].
  intros [d acc] [k v]. unfold addedEntries. simpl.
  destruct (orig !! k); simpl; by rewrite ?app_nil_r.
Qed.

Lemma changed_loop (orig new : gmap string value)
    (line : string → value → value → string) (diff : string) :
  (foldl (λ '(diff, changed) '(k, origV),
            match new !! k with
            | Some newV =>
                if negb (DeepEqual origV newV) then
                  (diff +:+ line k origV newV,
                   changed ++ [nameOldNew k origV newV])
                else (diff, changed)
            | None => (diff, changed)
            end) (diff, []) (range orig)).2 =
    range orig ≫= changedEntries new.
Proof.
  rewrite (foldl_append _ snd (changedEntries new)); [done|].
  intros [d acc] [k v]. unfold changedEntries. simpl.
  destruct (new !! k) as [newV|]; simpl; [|by rewrite app_nil_r].
  destruct (DeepEqual v newV); simpl; by rewrite ?app_nil_r.
Qed.

(** The structured result of [compareOutputs]. *)
Lemma compareOutputs_map (orig new : gmap string value) :
  (compareOutputs orig new).2 =
    diffRecord (range new ≫= addedEntries nameValue orig)
               (range orig ≫= addedEntries nameValue new)
               (range orig ≫= changedEntries new).
Proof.
  unfold compareOutputs.
  pose proof (added_loop orig new
    (λ k v, "+ " +:+ k +:+ ": " +:+ formatValue v +:+ nl) nameValue "")
    as Hadd.
  destruct (foldl _ _ (range new)) as [d1 added]. simpl in Hadd.
  pose proof (added_loop new orig
    (λ k v, "- " +:+ k +:+ ": " +:+ formatValue v +:+ nl) nameValue d1)
    as Hrem.
  destruct (foldl _ _ (range orig)) as [d2 removed]. simpl in Hrem.
  pose proof (changed_loop orig new formatOutputChange d2) as Hch.
  destruct (foldl _ _ (range orig)) as [d3 changed]. simpl in Hch.
  simpl. by rewrite Hadd, Hrem, Hch.
Qed.

Lemma addedEntries_elem_of (g : string → value → gmap string value)
    (orig new : gmap string value) (e : gmap string value) :
  e ∈ range new ≫= addedEntries g orig ↔
  ∃ k v, new !! k = Some v ∧ orig !! k = None ∧ e = g k v.
Proof.
  rewrite list_elem_of_bind. unfold addedEntries. split.
  - intros ([k v] & He & Hin). apply range_elem_of in Hin. simpl in He.
    destruct (orig !! k) eqn:Hk; [by apply not_elem_of_nil in He|].
    apply list_elem_of_singleton in He. eauto.
  - intros (k & v & Hnew & Horig & ->). exists (k, v). simpl.
    rewrite Horig. split; [by left | by apply range_elem_of].
Qed.

Lemma changedEntries_elem_of (orig new : gmap string value)
    (e : gmap string value) :
  e ∈ range orig ≫= changedEntries new ↔
  ∃ k origV newV, orig !! k = Some origV ∧ new !! k = Some newV ∧
                  origV ≠ newV ∧ e = nameOldNew k origV newV.
Proof.
  rewrite list_elem_of_bind. unfold changedEntries, DeepEqual. split.
  - intros ([k v] & He & Hin). apply range_elem_of in Hin. simpl in He.
    destruct (new !! k) as [newV|] eqn:Hk; [|by apply not_elem_of_nil in He].
    case_bool_decide; simpl in He; [by apply not_elem_of_nil in He|].
    apply list_elem_of_singleton in He. naive_solver.
  - intros (k & origV & newV & Horig & Hnew & Hne & ->). exists (k, origV).
    simpl. rewrite Hnew, bool_decide_eq_false_2 by done.
    split; [by left | by apply range_elem_of].
Qed.

Lemma variables_loop_lookup (l : list (string * value))
    (result : gmap string value) (k : string) :
  NoDup l.*1 →
  foldl (λ result '(k, v),
           match assertMap v with
           | Some varMap =>
               match varMap !! "value" with
               | Some value => <[k := value]> result
               | None => result
               end
           | None => result
           end) result l !! k =
    match (list_to_map l : gmap string value) !! k ≫= declaredValue with
    | Some x => Some x
    | None => result !! k
    end.
Proof.
  revert result. induction l as [|[k0 v0] l IH]; intros result Hnd; [done|].
  apply NoDup_cons in Hnd as [Hk0 Hnd]. simpl in Hk0.
  apply not_elem_of_list_to_map_1 in Hk0.
  simpl. rewrite IH by done.
  destruct (decide (k = k0)) as [->|Hne].
  - rewrite Hk0, lookup_insert_eq. simpl.
    destruct v0 as [| | | | |varMap]; simpl; try done.
    destruct (varMap !! "value"); [|done]. by rewrite lookup_insert_eq.
  - rewrite lookup_insert_ne by done.
    destruct (list_to_map l !! k ≫= declaredValue); [done|].
    destruct v0 as [| | | | |varMap]; simpl; try done.
    destruct (varMap !! "value"); [|done]. by rewrite lookup_insert_ne.
Qed.

(** [getVariables] keeps, under its name, the value of every entry of the
    [variables] map that is a map with a ["value"] field. *)
Lemma getVariables_lookup (plan : gmap string value) (k : string) :
  getVariables plan !! k =
    mapAt ["variables"] (VObject plan) !! k ≫= declaredValue.
Proof.
  unfold getVariables, mapAt. simpl.
  destruct (plan !! "variables") as [[| | | | |vars]|]; simpl;
    rewrite ?lookup_empty; try done.
  rewrite variables_loop_lookup by apply range_NoDup_fst.
  rewrite list_to_map_range, lookup_empty.
  by destruct (vars !! k ≫= declaredValue).
Qed.

(** The structured result of [compareVariables]. *)
Lemma compareVariables_map (origPlan newPlan : gmap string value) :
  (compareVariables origPlan newPlan).1.2 =
    if DeepEqual (getVariables origPlan) (getVariables newPlan) then ∅
    else
      diffRecord
        (range (getVariables newPlan) ≫=
           addedEntries nameValue (getVariables origPlan))
        (range (getVariables origPlan) ≫=
           addedEntries nameValue (getVariables newPlan))
        (range (getVariables origPlan) ≫=
           changedEntries (getVariables newPlan)).
Proof.
  unfold compareVariables.
  destruct (DeepEqual _ _); [done|].
  set (orig := getVariables origPlan). set (new := getVariables newPlan).
  pose proof (added_loop orig new
    (λ k v, "+ " +:+ k +:+ ": " +:+ formatValue v +:+ nl) nameValue
    (("Variables:" +:+ nl) +:+ "----------" +:+ nl)) as Hadd.
  destruct (foldl _ _ (range new)) as [d1 added]. simpl in Hadd.
  pose proof (added_loop new orig
    (λ k v, "- " +:+ k +:+ ": " +:+ formatValue v +:+ nl) nameValue d1)
    as Hrem.
  destruct (foldl _ _ (range orig)) as [d2 removed]. simpl in Hrem.
  pose proof (changed_loop orig new
    (λ k origV newV, "~ " +:+ k +:+ ": " +:+ formatValue origV +:+ " => "
                       +:+ formatValue newV +:+ nl) d2) as Hch.
  destruct (foldl _ _ (range orig)) as [d3 changed]. simpl in Hch.
  simpl. by rewrite Hadd, Hrem, Hch.
Qed.

Lemma compareVariables_hasDiff (origPlan newPlan : gmap string value) :
  (compareVariables origPlan newPlan).2 =
    negb (DeepEqual (getVariables origPlan) (getVariables newPlan)).
Proof.
  unfold compareVariables. destruct (DeepEqual _ _); [done|].
  by repeat destruct (foldl _ _ _).
Qed.

Lemma compareOutputSections_map (origPlan newPlan : gmap string value) :
  (compareOutputSections origPlan newPlan).1.2 =
    if DeepEqual (getOutputs origPlan) (getOutputs newPlan) then ∅
    else (compareOutputs (getOutputs origPlan) (getOutputs newPlan)).2.
Proof.
  unfold compareOutputSections. destruct (DeepEqual _ _); [done|].
  by destruct (compareOutputs _ _).
Qed.

Lemma compareOutputSections_hasDiff (origPlan newPlan : gmap string value) :
  (compareOutputSections origPlan newPlan).2 =
    negb (DeepEqual (getOutputs origPlan) (getOutputs newPlan)).
Proof.
  unfold compareOutputSections. destruct (DeepEqual _ _); [done|].
  by destruct (compareOutputs _ _).
Qed.

Lemma nameValue_inj (k k' : string) (v v' : value) :
  nameValue k v = nameValue k' v' → k = k' ∧ v = v'.
Proof.
  intros Heq. split.
  - apply (f_equal (λ m : gmap string value, m !! "name")) in Heq.
    unfold nameValue in Heq. simplify_map_eq. done.
  - apply (f_equal (λ m : gmap string value, m !! "value")) in Heq.
    unfold nameValue in Heq. simplify_map_eq. done.
Qed.

Lemma reports_empty (category k : string) (v : value) :
  ¬ reports category k v ∅.
Proof. unfold reports, entriesOf. rewrite lookup_empty. apply not_elem_of_nil. Qed.

Lemma reports_added (orig new : gmap string value)
    (removed changed : list (gmap string value)) (k : string) (v : value) :
  reports "added" k v
    (diffRecord (range new ≫= addedEntries nameValue orig) removed changed) ↔
  new !! k = Some v ∧ orig !! k = None.
Proof.
  unfold reports. rewrite entriesOf_diffRecord. simpl.
  rewrite list_elem_of_fmap. split.
  - intros (e & [= <-] & (k' & v' & Hnew & Horig & Heq)%addedEntries_elem_of).
    by apply nameValue_inj in Heq as [-> ->].
  - intros [Hnew Horig]. exists (nameValue k v). split; [done|].
    apply addedEntries_elem_of. eauto.
Qed.

Lemma reports_removed (orig new : gmap string value)
    (added changed : list (gmap string value)) (k : string) (v : value) :
  reports "removed" k v
    (diffRecord added (range orig ≫= addedEntries nameValue new) changed) ↔
  orig !! k = Some v ∧ new !! k = None.
Proof.
  unfold reports. rewrite entriesOf_diffRecord. simpl.
  rewrite list_elem_of_fmap. split.
  - intros (e & [= <-] & (k' & v' & Hnew & Horig & Heq)%addedEntries_elem_of).
    by apply nameValue_inj in Heq as [-> ->].
  - intros [Hnew Horig]. exists (nameValue k v). split; [done|].
    apply addedEntries_elem_of. eauto.
Qed.

End EngineFacts.

(** ** Two runs of the comparison *)

Section TwoRuns.

Context {number : Type} `{!EqDecision number}.

Abbreviation value := (value number).

(** The two runs may range over their maps in different orders and render
    with different functions. *)
Context (R1 R2 : RangeOrder) (F1 F2 : Renderer number).

Lemma getVariables_order (plan : gmap string value) :
  getVariables (R := R1) plan = getVariables (R := R2) plan.
Proof. apply map_eq. intros k. by rewrite !getVariables_lookup. Qed.

Lemma getOutputs_order (plan : gmap string value) :
  getOutputs (R := R1) plan = getOutputs (R := R2) plan.
Proof. by rewrite !getOutputs_union. Qed.

Lemma compareOutputs_symmetry (orig new : gmap string value) (k : string)
    (v : value) :
  reports "added" k v (compareOutputs (R := R1) (F := F1) orig new).2 ↔
  reports "removed" k v (compareOutputs (R := R2) (F := F2) new orig).2.
Proof.
  rewrite !compareOutputs_map.
  by rewrite (reports_added (R := R1)), (reports_removed (R := R2)).
Qed.

Lemma compareVariables_added (A B : gmap string value) (k : string)
    (v : value) :
  reports "added" k v (compareVariables (R := R1) (F := F1) A B).1.2 ↔
  getVariables (R := R1) B !! k = Some v ∧
  getVariables (R := R1) A !! k = None.
Proof.
  rewrite compareVariables_map. unfold DeepEqual. case_bool_decide as Heq.
  - split; [intros Hrep; by apply reports_empty in Hrep|].
    rewrite Heq. intros [? ?]. congruence.
  - apply reports_added.
Qed.

Lemma compareVariables_removed (A B : gmap string value) (k : string)
    (v : value) :
  reports "removed" k v (compareVariables (R := R2) (F := F2) B A).1.2 ↔
  getVariables (R := R2) B !! k = Some v ∧
  getVariables (R := R2) A !! k = None.
Proof.
  rewrite compareVariables_map. unfold DeepEqual. case_bool_decide as Heq.
  - split; [intros Hrep; by apply reports_empty in Hrep|].
    rewrite Heq. intros [? ?]. congruence.
  - apply reports_removed.
Qed.

Lemma compareOutputSections_added (A B : gmap string value) (k : string)
    (v : value) :
  reports "added" k v (compareOutputSections (R := R1) (F := F1) A B).1.2 ↔
  getOutputs (R := R1) B !! k = Some v ∧ getOutputs (R := R1) A !! k = None.
Proof.
  rewrite compareOutputSections_map. unfold DeepEqual.
  case_bool_decide as Heq.
  - split; [intros Hrep; by apply reports_empty in Hrep|].
    rewrite Heq. intros [? ?]. congruence.
  - rewrite compareOutputs_map. apply reports_added.
Qed.

Lemma compareOutputSections_removed (A B : gmap string value) (k : string)
    (v : value) :
  reports "removed" k v (compareOutputSections (R := R2) (F := F2) B A).1.2 ↔
  getOutputs (R := R2) B !! k = Some v ∧ getOutputs (R := R2) A !! k = None.
Proof.
  rewrite compareOutputSections_map. unfold DeepEqual.
  case_bool_decide as Heq.
  - split; [intros Hrep; by apply reports_empty in Hrep|].
    rewrite Heq. intros [? ?]. congruence.
  - rewrite compareOutputs_map. apply reports_removed.
Qed.

(** C6: for documents [A] and [B], a key [k] and a value [v], the
    comparison of [(A, B)] reports [k] as added with [v] exactly when the
    comparison of [(B, A)] reports [k] as removed with [v]; this holds for
    the variables, for the outputs of two documents and for
    [compareOutputs] on two output dictionaries, and a key is reported as
    added exactly when the new section has it with that value and the old
    one lacks it. *)
Theorem added_removed_symmetry (A B : gmap string value) (k : string)
    (v : value) :
  (reports "added" k v (compareVariables (R := R1) (F := F1) A B).1.2 ↔
   reports "removed" k v (compareVariables (R := R2) (F := F2) B A).1.2) ∧
  (reports "added" k v (compareOutputSections (R := R1) (F := F1) A B).1.2 ↔
   reports "removed" k v (compareOutputSections (R := R2) (F := F2) B A).1.2) ∧
  (reports "added" k v (compareOutputs (R := R1) (F := F1) A B).2 ↔
   reports "removed" k v (compareOutputs (R := R2) (F := F2) B A).2) ∧
  (reports "added" k v (compareVariables (R := R1) (F := F1) A B).1.2 ↔
   getVariables (R := R1) B !! k = Some v ∧
   getVariables (R := R1) A !! k = None) ∧
  (reports "added" k v (compareOutputSections (R := R1) (F := F1) A B).1.2 ↔
   getOutputs (R := R1) B !! k = Some v ∧
   getOutputs (R := R1) A !! k = None).
Proof.
  split; [|split; [|split; [|split]]].
  - rewrite compareVariables_added, compareVariables_removed.
    by rewrite !getVariables_order.
  - rewrite compareOutputSections_added, compareOutputSections_removed.
    by rewrite !getOutputs_order.
  - apply compareOutputs_symmetry.
  - apply compareVariables_added.
  - apply compareOutputSections_added.
Qed.

End TwoRuns.

(** ** The comparison of two documents *)

Section EngineTheorems.

Context {number : Type} `{!EqDecision number}.
Context {R : RangeOrder} {F : Renderer number}.

Abbreviation value := (value number).

Lemma DeepEqual_refl {A : Type} `{!EqDecision A} (x : A) :
  DeepEqual x x = true.
Proof. unfold DeepEqual. by apply bool_decide_eq_true_2. Qed.

Lemma DeepEqual_true {A : Type} `{!EqDecision A} (x y : A) :
  DeepEqual x y = true ↔ x = y.
Proof. unfold DeepEqual. apply bool_decide_eq_true. Qed.

Lemma DeepEqual_false {A : Type} `{!EqDecision A} (x y : A) :
  DeepEqual x y = false ↔ x ≠ y.
Proof. unfold DeepEqual. apply bool_decide_eq_false. Qed.

Lemma compareResourceSections_hasDiff (origPlan newPlan : gmap string value) :
  (compareResourceSections origPlan newPlan).2 =
    negb (DeepEqual (getResources origPlan) (getResources newPlan)).
Proof.
  unfold compareResourceSections. destruct (DeepEqual _ _); [done|].
  by destruct (compareResources _ _).
Qed.

Lemma compareResourceSections_map (origPlan newPlan : gmap string value) :
  (compareResourceSections origPlan newPlan).1.2 =
    if DeepEqual (getResources origPlan) (getResources newPlan) then ∅
    else (compareResources (getResources origPlan) (getResources newPlan)).2.
Proof.
  unfold compareResourceSections. destruct (DeepEqual _ _); [done|].
  by destruct (compareResources _ _).
Qed.

(** The flag of [generatePlanDiff] is raised by any of the three section
    comparisons. *)
Lemma generatePlanDiff_hasDiff (origPlan newPlan : gmap string value) :
  (generatePlanDiff origPlan newPlan).2 =
    (compareVariables origPlan newPlan).2
    || (compareResourceSections origPlan newPlan).2
    || (compareOutputSections origPlan newPlan).2.
Proof.
  unfold generatePlanDiff.
  destruct (compareVariables origPlan newPlan) as [[t1 m1] [|]];
    destruct (compareResourceSections origPlan newPlan) as [[t2 m2] [|]];
    destruct (compareOutputSections origPlan newPlan) as [[t3 m3] [|]];
    done.
Qed.

(** The structured diff has a key for a section exactly when the
    comparison of that section raised its flag. *)
Lemma generatePlanDiff_map (origPlan newPlan : gmap string value) :
  let diffMap := (generatePlanDiff origPlan newPlan).1.2 in
  let section (r : string * gmap string value * bool) :=
    if r.2 then Some (VObject r.1.2) else None in
  diffMap !! "variables" = section (compareVariables origPlan newPlan) ∧
  diffMap !! "resources" =
    section (compareResourceSections origPlan newPlan) ∧
  diffMap !! "outputs" = section (compareOutputSections origPlan newPlan) ∧
  ∀ k, k ≠ "variables" → k ≠ "resources" → k ≠ "outputs" →
       diffMap !! k = None.
Proof.
  unfold generatePlanDiff.
  destruct (compareVariables origPlan newPlan) as [[t1 m1] [|]];
    destruct (compareResourceSections origPlan newPlan) as [[t2 m2] [|]];
    destruct (compareOutputSections origPlan newPlan) as [[t3 m3] [|]];
    simpl; repeat split; intros; by simplify_map_eq.
Qed.

Lemma generatePlanDiff_refl (d : gmap string value) :
  generatePlanDiff d d = ("", ∅, false).
Proof.
  unfold generatePlanDiff, compareVariables, compareResourceSections,
    compareOutputSections.
  by rewrite !DeepEqual_refl.
Qed.

(** C4: comparing a document against itself returns no difference, the
    empty report and the empty structured diff, which has no key at all. *)
Theorem generatePlanDiff_same (d : gmap string value) :
  generatePlanDiff d d = ("", ∅, false) ∧
  (generatePlanDiff d d).2 = false ∧
  (generatePlanDiff d d).1.1 = "" ∧
  (generatePlanDiff d d).1.2 !! "variables" = None ∧
  (generatePlanDiff d d).1.2 !! "resources" = None ∧
  (generatePlanDiff d d).1.2 !! "outputs" = None.
Proof.
  by rewrite generatePlanDiff_refl.
Qed.

(** C5, as the code has it: no difference is reported exactly when the
    variables, the resources and the outputs extracted from the two
    documents are equal section by section; equal documents have equal
    sections, so they are reported without difference. *)
Theorem generatePlanDiff_no_diff_iff (origPlan newPlan : gmap string value) :
  ((generatePlanDiff origPlan newPlan).2 = false ↔
   getVariables origPlan = getVariables newPlan ∧
   getResources origPlan = getResources newPlan ∧
   getOutputs origPlan = getOutputs newPlan) ∧
  (sortMapKeys origPlan = sortMapKeys newPlan →
   (generatePlanDiff (sortMapKeys origPlan) (sortMapKeys newPlan)).2 = false) ∧
  ((compareVariables origPlan newPlan).2 = false ↔
   getVariables origPlan = getVariables newPlan) ∧
  ((compareResourceSections origPlan newPlan).2 = false ↔
   getResources origPlan = getResources newPlan) ∧
  ((compareOutputSections origPlan newPlan).2 = false ↔
   getOutputs origPlan = getOutputs newPlan).
Proof.
  assert (∀ (x y : gmap string value), negb (DeepEqual x y) = false ↔ x = y)
    as Hneg.
  { intros x y. rewrite negb_false_iff. apply DeepEqual_true. }
  split; [|split; [|split; [|split]]].
  - rewrite generatePlanDiff_hasDiff, compareVariables_hasDiff,
      compareResourceSections_hasDiff, compareOutputSections_hasDiff.
    rewrite !orb_false_iff, !Hneg. tauto.
  - intros ->. by rewrite generatePlanDiff_refl.
  - by rewrite compareVariables_hasDiff, Hneg.
  - by rewrite compareResourceSections_hasDiff, Hneg.
  - by rewrite compareOutputSections_hasDiff, Hneg.
Qed.

(** *** Attribute comparison *)

Lemma namesUnskipped_nameValue (k : string) (v : value) :
  skipped skipAttrs k = false → namesUnskipped (nameValue k v).
Proof. intros Hk. exists k. split; [|done]. unfold nameValue. by simplify_map_eq. Qed.

Lemma namesUnskipped_nameOldNew (k : string) (old new : value) :
  skipped skipAttrs k = false → namesUnskipped (nameOldNew k old new).
Proof. intros Hk. exists k. split; [|done]. unfold nameOldNew. by simplify_map_eq. Qed.

Lemma Forall_snoc {A} (P : A → Prop) (l : list A) (x : A) :
  Forall P l → P x → Forall P (l ++ [x]).
Proof. intros Hl Hx. apply Forall_app. auto. Qed.

Lemma priorityAttrs_unskipped (k : string) :
  k ∈ priorityAttrs → skipped skipAttrs k = false.
Proof.
  unfold priorityAttrs. rewrite !elem_of_cons, elem_of_nil.
  intros [->|[->|[->|[]]]]; reflexivity.
Qed.

Lemma processPriorityAttributes_unskipped
    (origAttrs newAttrs : gmap string value) (st : attrState) :
  unskippedState st →
  unskippedState (processPriorityAttributes origAttrs newAttrs priorityAttrs st).
Proof.
  apply foldl_invariant. clear st.
  intros st k Hk%priorityAttrs_unskipped (Ha & Hr & Hc).
  destruct (origAttrs !! k) as [o|], (newAttrs !! k) as [n|];
    [destruct (DeepEqual o n)|..]; simpl; repeat split; simpl;
    auto using Forall_snoc, namesUnskipped_nameValue,
      namesUnskipped_nameOldNew.
Qed.

Lemma processRegularAttributeChanges_unskipped
    (origAttrs newAttrs : gmap string value) (st : attrState) :
  unskippedState st →
  unskippedState
    (processRegularAttributeChanges origAttrs newAttrs priorityAttrs
       skipAttrs st).
Proof.
  apply foldl_invariant. clear st.
  intros st [k o] _ (Ha & Hr & Hc).
  destruct (contains priorityAttrs k); simpl; [done|].
  destruct (skipped skipAttrs k) eqn:Hk; simpl; [done|].
  destruct (newAttrs !! k) as [n|];
    [destruct (DeepEqual o n)|]; simpl; repeat split; simpl;
    auto using Forall_snoc, namesUnskipped_nameValue,
      namesUnskipped_nameOldNew.
Qed.

Lemma processAddedAttributes_unskipped
    (origAttrs newAttrs : gmap string value) (st : attrState) :
  unskippedState st →
  unskippedState
    (processAddedAttributes origAttrs newAttrs priorityAttrs skipAttrs st).
Proof.
  apply foldl_invariant. clear st.
  intros st [k n] _ (Ha & Hr & Hc).
  destruct (origAttrs !! k); [done|].
  destruct (contains priorityAttrs k); simpl; [done|].
  destruct (skipped skipAttrs k) eqn:Hk; simpl; [done|].
  repeat split; simpl;
    auto using Forall_snoc, namesUnskipped_nameValue.
Qed.

Lemma attributePasses_unskipped (diff : string)
    (origAttrs newAttrs : gmap string value) :
  unskippedState (attributePasses diff origAttrs newAttrs).
Proof.
  unfold attributePasses.
  apply processAddedAttributes_unskipped,
    processRegularAttributeChanges_unskipped,
    processPriorityAttributes_unskipped.
  by repeat split.
Qed.

Lemma skipSet_skipped (k : string) :
  k ∈ skipSet ↔ skipped skipAttrs k = true.
Proof.
  split.
  - unfold skipSet. rewrite !elem_of_cons, elem_of_nil.
    intros [->|[->|[->|[->|[->|[->|[->|[]]]]]]]]; reflexivity.
  - unfold skipped, skipAttrs. intros Hk.
    destruct (decide (k ∈ skipSet)) as [|Hnin]; [done|].
    unfold skipSet in Hnin. rewrite !not_elem_of_cons in Hnin.
    destruct Hnin as (? & ? & ? & ? & ? & ? & ? & _).
    by rewrite !lookup_insert_ne, lookup_singleton_ne in Hk.
Qed.

(** C3: for a key of the skip set, whatever the old and the new attribute
    dictionaries hold for it, the result of [processAttributeDifferences]
    has no entry with that name in its added, removed or changed
    collection; every entry of the three collections is a record whose
    name is a string outside the skip set. *)
Theorem skip_set_never_reported (diff : string)
    (origAttrs newAttrs : gmap string value) (k category : string) :
  k ∈ skipSet →
  category ∈ ["added"; "removed"; "changed"] →
  ∃ l : list value,
    (processAttributeDifferences diff origAttrs newAttrs).2 !! category =
      Some (VArray l) ∧
    ∀ e, e ∈ l →
      ∃ (m : gmap string value) (k' : string),
        e = VObject m ∧ m !! "name" = Some (VString k') ∧ (k' ∉ skipSet) ∧
        m !! "name" ≠ Some (VString k).
Proof.
  intros Hk Hcat.
  destruct (attributePasses_unskipped diff origAttrs newAttrs)
    as (Ha & Hr & Hc).
  unfold processAttributeDifferences. simpl.
  assert (∃ l, Forall namesUnskipped l ∧
               diffRecord (st_added (attributePasses diff origAttrs newAttrs))
                 (st_removed (attributePasses diff origAttrs newAttrs))
                 (st_changed (attributePasses diff origAttrs newAttrs))
                 !! category = Some (records l)) as (l & Hl & Hlook).
  { rewrite !elem_of_cons, elem_of_nil in Hcat.
    destruct Hcat as [->|[->|[->|[]]]].
    - eauto using diffRecord_lookup_added.
    - eauto using diffRecord_lookup_removed.
    - eauto using diffRecord_lookup_changed. }
  exists (VObject <$> l). split; [done|].
  intros e (m & -> & Hm)%list_elem_of_fmap.
  rewrite Forall_forall in Hl. destruct (Hl m Hm) as (k' & Hname & Hk').
  assert (k' ∉ skipSet) as Hnot.
  { rewrite skipSet_skipped. by rewrite Hk'. }
  exists m, k'. repeat split; [done..|].
  rewrite Hname. by intros [= ->].
Qed.

(** *** Resources whose records differ outside the reported attributes *)

Lemma processPriorityAttributes_agree
    (origAttrs newAttrs : gmap string value) (st : attrState) :
  agreeOutsideSkipSet origAttrs newAttrs →
  processPriorityAttributes origAttrs newAttrs priorityAttrs st = st.
Proof.
  intros Hagree.
  apply (foldl_invariant (λ st', st' = st)); [|done].
  intros st' k Hk%priorityAttrs_unskipped ->.
  rewrite (Hagree k Hk). destruct (newAttrs !! k) as [n|]; [|done].
  by rewrite DeepEqual_refl.
Qed.

Lemma processRegularAttributeChanges_agree
    (origAttrs newAttrs : gmap string value) (st : attrState) :
  agreeOutsideSkipSet origAttrs newAttrs →
  processRegularAttributeChanges origAttrs newAttrs priorityAttrs skipAttrs st
    = st.
Proof.
  intros Hagree.
  apply (foldl_invariant (λ st', st' = st)); [|done].
  intros st' [k o] Hin%range_elem_of ->.
  destruct (contains priorityAttrs k); simpl; [done|].
  destruct (skipped skipAttrs k) eqn:Hk; simpl; [done|].
  rewrite <-(Hagree k Hk), Hin. by rewrite DeepEqual_refl.
Qed.

Lemma processAddedAttributes_agree
    (origAttrs newAttrs : gmap string value) (st : attrState) :
  agreeOutsideSkipSet origAttrs newAttrs →
  processAddedAttributes origAttrs newAttrs priorityAttrs skipAttrs st = st.
Proof.
  intros Hagree.
  apply (foldl_invariant (λ st', st' = st)); [|done].
  intros st' [k n] Hin%range_elem_of ->.
  destruct (origAttrs !! k) as [o|] eqn:Ho; [done|].
  destruct (contains priorityAttrs k); simpl; [done|].
  destruct (skipped skipAttrs k) eqn:Hk; simpl; [done|].
  rewrite (Hagree k Hk) in Ho. congruence.
Qed.

(** With no difference outside the skip set the attribute comparison
    writes nothing and returns three empty collections. *)
Lemma processAttributeDifferences_agree (diff : string)
    (origAttrs newAttrs : gmap string value) :
  agreeOutsideSkipSet origAttrs newAttrs →
  processAttributeDifferences diff origAttrs newAttrs =
    (diff, diffRecord [] [] []).
Proof.
  intros Hagree. unfold processAttributeDifferences, attributePasses.
  by rewrite processPriorityAttributes_agree,
    processRegularAttributeChanges_agree, processAddedAttributes_agree.
Qed.

Lemma processChangedResources_agree (diff : string)
    (origResources newResources : gmap string value) (address : string)
    (origV newV : value) :
  origResources !! address = Some origV →
  newResources !! address = Some newV →
  origV ≠ newV →
  agreeOutsideSkipSet (getResourceAttributes origV)
    (getResourceAttributes newV) →
  unchangedAttributesEntry address ∈
    (processChangedResources diff origResources newResources).2.
Proof.
  intros Horig Hnew Hne Hagree. unfold processChangedResources.
  apply (foldl_reaches (λ st, unchangedAttributesEntry address ∈ st.2)
           _ _ _ (address, origV)).
  - by apply range_elem_of.
  - intros [d changed]. rewrite Hnew.
    rewrite (proj2 (DeepEqual_false origV newV) Hne).
    rewrite processAttributeDifferences_agree by done. simpl.
    apply elem_of_app. right. by left.
  - intros [d changed] [k v] Hin. simpl in *.
    destruct (newResources !! k) as [v'|]; [|done].
    destruct (DeepEqual v v'); [done|].
    destruct (processAttributeDifferences (d +:+ k +:+ nl)
                (getResourceAttributes v) (getResourceAttributes v'))
      as [d' attrChanges].
    simpl. apply elem_of_app. by left.
Qed.

Lemma compareResources_changed
    (origResources newResources : gmap string value) :
  ∃ diff,
    (compareResources origResources newResources).2 !! "changed" =
      Some (records (processChangedResources diff origResources
                       newResources).2).
Proof.
  unfold compareResources.
  destruct (processResourceAdditionsAndRemovals _ _ _) as [[d added] removed].
  exists d. destruct (processChangedResources _ _ _) as [d' changed].
  simpl. by simplify_map_eq.
Qed.

(** C10: when the resource dictionaries of two documents both have an
    address, with records that are not deeply equal but whose effective
    attributes agree on every key outside the skip set, the comparison
    reports a difference, and the changed collection of the resources
    section has an entry for the address whose attribute diff record has
    empty added, removed and changed lists. *)
Theorem skip_only_difference_reported (origPlan newPlan : gmap string value)
    (address : string) (origV newV : value) :
  getResources origPlan !! address = Some origV →
  getResources newPlan !! address = Some newV →
  origV ≠ newV →
  agreeOutsideSkipSet (getResourceAttributes origV)
    (getResourceAttributes newV) →
  (generatePlanDiff origPlan newPlan).2 = true ∧
  ∃ (resourcesMap : gmap string value) (changed : list value),
    (generatePlanDiff origPlan newPlan).1.2 !! "resources" =
      Some (VObject resourcesMap) ∧
    resourcesMap !! "changed" = Some (VArray changed) ∧
    VObject {[ "address" := VString address;
               "attributes" :=
                 VObject {[ "added" := VArray [];
                            "removed" := VArray [];
                            "changed" := VArray [] ]} ]} ∈ changed.
Proof.
  intros Horig Hnew Hne Hagree.
  assert (getResources origPlan ≠ getResources newPlan) as Hres.
  { intros Heq. rewrite Heq in Horig. congruence. }
  apply DeepEqual_false in Hres.
  split.
  - rewrite generatePlanDiff_hasDiff, compareResourceSections_hasDiff, Hres.
    simpl. by rewrite orb_true_r.
  - destruct (generatePlanDiff_map origPlan newPlan) as (_ & Hlook & _).
    rewrite compareResourceSections_hasDiff, compareResourceSections_map,
      Hres in Hlook. simpl in Hlook.
    destruct (compareResources_changed (getResources origPlan)
                (getResources newPlan)) as [diff Hchanged].
    eexists _, _. split; [exact Hlook|]. split; [exact Hchanged|].
    apply list_elem_of_fmap.
    exists (unchangedAttributesEntry address). split.
    + vm_compute. reflexivity.
    + by apply (processChangedResources_agree diff _ _ address origV newV).
Qed.

End EngineTheorems.

(** ** Further properties of the helpers *)

(** X1: [contains] returns true exactly when the string is an element of
    the slice. *)
Theorem contains_elem_of (slice : list string) (s : string) :
  contains slice s = true ↔ s ∈ slice.
Proof.
  induction slice as [|item rest IH]; simpl.
  - split; [done | by intros ?%elem_of_nil].
  - rewrite elem_of_cons. case_bool_decide as Heq.
    + split; [by left | done].
    + rewrite IH. split; [by right | by intros [->|?]].
Qed.

Lemma string_app_nil_r (s : string) : s +:+ "" = s.
Proof.
  induction s as [|a s IH]; [done|].
  change (String a (s +:+ "") = String a s). by f_equal.
Qed.

Lemma string_app_assoc (s1 s2 s3 : string) :
  (s1 +:+ s2) +:+ s3 = s1 +:+ s2 +:+ s3.
Proof.
  induction s1 as [|a s1 IH]; [done|].
  change (String a ((s1 +:+ s2) +:+ s3) = String a (s1 +:+ s2 +:+ s3)).
  by f_equal.
Qed.

Lemma string_app_empty (s1 s2 : string) :
  s1 +:+ s2 = "" ↔ s1 = "" ∧ s2 = "".
Proof.
  split; [|by intros [-> ->]].
  destruct s1 as [|a s1]; [done|].
  change (String a (s1 +:+ s2) = "" → String a s1 = "" ∧ s2 = "").
  discriminate.
Qed.

Lemma string_app_length (s1 s2 : string) :
  String.length (s1 +:+ s2) = String.length s1 + String.length s2.
Proof.
  induction s1 as [|a s1 IH]; [done|].
  change (S (String.length (s1 +:+ s2)) =
          S (String.length s1 + String.length s2)).
  by f_equal.
Qed.

Lemma extract_brace_first (post : string) :
  extractJSONFromOutput (String "{" post) = (String "{" post, None).
Proof.
  unfold extractJSONFromOutput, strings_Index, slice_from.
  rewrite index_brace_cons.
  rewrite (bool_decide_eq_true_2 ("{"%char = "{"%char) eq_refl).
  rewrite bool_decide_eq_false_2 by done.
  change (Z.to_nat (Z.of_nat 0)) with 0. rewrite Nat.sub_0_r.
  by rewrite (substring_whole (String "{" post)).
Qed.

Lemma extract_cases (output : string) :
  (braceFree output ∧
   extractJSONFromOutput output = ("", Some ErrNoJSONOutput)) ∨
  (∃ pre post, output = pre +:+ String "{" post ∧ braceFree pre ∧
               extractJSONFromOutput output = (String "{" post, None)).
Proof.
  destruct (brace_split output) as [Hfree|(pre & post & -> & Hpre)].
  - left. split; [done|].
    unfold extractJSONFromOutput, strings_Index.
    by rewrite index_brace_None.
  - right. exists pre, post. split; [done|]. split; [done|].
    unfold extractJSONFromOutput, strings_Index, slice_from.
    rewrite index_brace_Some by done.
    rewrite bool_decide_eq_false_2 by lia.
    rewrite Nat2Z.id. by rewrite substring_suffix.
Qed.

(** X2: when [extractJSONFromOutput] returns no error, what it returns
    starts with an opening brace, is no longer than its input, and is
    returned unchanged, again without error, when given to
    [extractJSONFromOutput] once more. *)
Theorem extractJSONFromOutput_idempotent (output json : string) :
  extractJSONFromOutput output = (json, None) →
  String.get 0 json = Some "{"%char ∧
  String.length json ≤ String.length output ∧
  extractJSONFromOutput json = (json, None).
Proof.
  intros Hrun.
  destruct (extract_cases output) as [[_ Herr]|(pre & post & -> & _ & Hok)].
  - rewrite Herr in Hrun. discriminate.
  - rewrite Hok in Hrun. injection Hrun as <-.
    split; [done|]. split; [|apply extract_brace_first].
    rewrite string_app_length. lia.
Qed.


(** ** Further properties of the section extractors *)

Section ExtractorProperties.

Context {number : Type} `{!EqDecision number} {R : RangeOrder}.

Abbreviation value := (value number).

(** X3: [getVariables] maps a name to the ["value"] field of its entry in
    the top-level [variables] map when that entry is a map with such a
    field, a [null] field included; an entry that is not a map or has no
    such field is left out, and a document whose [variables] is missing or
    not a map has no variables. *)
Theorem getVariables_declared_values (plan : gmap string value) (k : string) :
  getVariables plan !! k =
    match plan !! "variables" with
    | Some (VObject vars) =>
        match vars !! k with
        | Some (VObject varMap) => varMap !! "value"
        | _ => None
        end
    | _ => None
    end.
Proof.
  rewrite getVariables_lookup. unfold mapAt. simpl.
  destruct (plan !! "variables") as [[| | | | |vars]|]; simpl;
    rewrite ?lookup_empty; done.
Qed.

Lemma getResources_lookup (plan : gmap string value) (a : string) :
  getResources plan !! a =
    match lastRecord a (sliceAt ["resource_changes"] (VObject plan)) with
    | Some r => Some r
    | None =>
        match lastRecord a
                (sliceAt ["planned_values"; "root_module"; "resources"]
                   (VObject plan)) with
        | Some r => Some r
        | None =>
            lastRecord a
              (sliceAt ["prior_state"; "values"; "root_module"; "resources"]
                 (VObject plan))
        end
    end.
Proof.
  unfold getResources.
  rewrite processResourceChanges_lookup,
    processPlannedValuesResources_lookup,
    processPriorStateResources_lookup, lookup_empty.
  by destruct (lastRecord a (sliceAt ["prior_state"; _; _; _] _)).
Qed.

Lemma lastRecord_is_Some (a : string) (l : list value) :
  is_Some (lastRecord a l) ↔ ∃ r, r ∈ l ∧ addressOf r = Some a.
Proof.
  split.
  - intros [r (l1 & l2 & -> & Ha & _)%lastRecord_Some].
    exists r. split; [|done]. apply elem_of_app. right. left.
  - intros (r & Hin & Ha).
    destruct (lastRecord a l) as [r'|] eqn:Hlast; [eauto|].
    rewrite lastRecord_None in Hlast. by destruct (Hlast r Hin).
Qed.

(** X4: every record [getResources] holds is stored under the address it
    carries and is an element of one of the three sources; an address is a
    key of the result exactly when some element of the three sources is a
    map with that string under ["address"]; elements that are not maps,
    or have no address, or one that is not a string, contribute nothing. *)
Theorem getResources_keys_are_addresses (plan : gmap string value)
    (a : string) :
  (∀ r, getResources plan !! a = Some r →
        addressOf r = Some a ∧ r ∈ resourceSources plan) ∧
  (is_Some (getResources plan !! a) ↔
   ∃ r, r ∈ resourceSources plan ∧ addressOf r = Some a).
Proof.
  unfold resourceSources.
  set (prior := sliceAt ["prior_state"; _; _; _] _).
  set (planned := sliceAt ["planned_values"; _; _] _).
  set (changes := sliceAt ["resource_changes"] _).
  assert (∀ (l : list value) (r : value),
            lastRecord a l = Some r → r ∈ l ∧ addressOf r = Some a) as Hin.
  { intros l r (l1 & l2 & -> & Ha & _)%lastRecord_Some. split; [|done].
    apply elem_of_app. right. left. }
  rewrite getResources_lookup. fold prior planned changes. split.
  - intros r Hr. rewrite !elem_of_app.
    destruct (lastRecord a changes) as [r1|] eqn:H1.
    { injection Hr as ->. destruct (Hin _ _ H1). auto. }
    destruct (lastRecord a planned) as [r2|] eqn:H2.
    { injection Hr as ->. destruct (Hin _ _ H2). auto. }
    destruct (Hin _ _ Hr). auto.
  - split.
    + intros [r Hr]. exists r. rewrite !elem_of_app.
      destruct (lastRecord a changes) as [r1|] eqn:H1.
      { injection Hr as ->. destruct (Hin _ _ H1). auto. }
      destruct (lastRecord a planned) as [r2|] eqn:H2.
      { injection Hr as ->. destruct (Hin _ _ H2). auto. }
      destruct (Hin _ _ Hr). auto.
    + intros (r & Hr & Ha). rewrite !elem_of_app in Hr.
      destruct (lastRecord a changes) as [r1|] eqn:H1; [eauto|].
      destruct (lastRecord a planned) as [r2|] eqn:H2; [eauto|].
      apply lastRecord_is_Some.
      rewrite lastRecord_None in H1, H2.
      destruct Hr as [Hr|[Hr|Hr]]; [eauto | | ].
      * by destruct (H2 r Hr).
      * by destruct (H1 r Hr).
Qed.

(** X5: [getResources] reads nothing but the three sequences at
    [prior_state.values.root_module.resources],
    [planned_values.root_module.resources] and [resource_changes]: two
    documents that agree on them have the same resources, whatever else
    they hold, child modules included. *)
Theorem getResources_reads_three_sources (plan plan' : gmap string value) :
  sliceAt ["prior_state"; "values"; "root_module"; "resources"]
    (VObject plan) =
  sliceAt ["prior_state"; "values"; "root_module"; "resources"]
    (VObject plan') →
  sliceAt ["planned_values"; "root_module"; "resources"] (VObject plan) =
  sliceAt ["planned_values"; "root_module"; "resources"] (VObject plan') →
  sliceAt ["resource_changes"] (VObject plan) =
  sliceAt ["resource_changes"] (VObject plan') →
  getResources plan = getResources plan'.
Proof.
  intros H1 H2 H3. apply map_eq. intros a.
  by rewrite !getResources_lookup, H1, H2, H3.
Qed.

(** X6: for every name, [getOutputs] holds the entry of the map at
    [planned_values.outputs] when there is one and the entry of the map at
    [output_changes] otherwise, each of the two maps counting as empty
    when it is missing or not a map; so a document with neither has no
    outputs, and the names of the result are the names of the two maps. *)
Theorem getOutputs_sources (plan : gmap string value) :
  let planned := mapAt ["planned_values"; "outputs"] (VObject plan) in
  let changes := mapAt ["output_changes"] (VObject plan) in
  (∀ k, getOutputs plan !! k =
          match planned !! k with
          | Some x => Some x
          | None => changes !! k
          end) ∧
  dom (getOutputs plan) = dom planned ∪ dom changes ∧
  (fieldAt ["planned_values"; "outputs"] (VObject plan) ≫= assertMap = None →
   getOutputs plan = changes) ∧
  (fieldAt ["output_changes"] (VObject plan) ≫= assertMap = None →
   getOutputs plan = planned).
Proof.
  intros planned changes. rewrite getOutputs_union. fold planned changes.
  split; [|split; [|split]].
  - intros k. rewrite lookup_union.
    by destruct (planned !! k), (changes !! k).
  - apply dom_union_L.
  - intros Hnone. unfold planned, mapAt. rewrite Hnone. simpl.
    by rewrite (left_id_L ∅ (∪)).
  - intros Hnone. unfold changes, mapAt. rewrite Hnone. simpl.
    by rewrite (right_id_L ∅ (∪)).
Qed.

End ExtractorProperties.


(** ** Loops that write a line and append an entry *)

Lemma joinLines_app (l1 l2 : list string) :
  joinLines (l1 ++ l2) = joinLines l1 +:+ joinLines l2.
Proof.
  induction l1 as [|s l1 IH]; [done|].
  change (s +:+ joinLines (l1 ++ l2) = (s +:+ joinLines l1) +:+ joinLines l2).
  by rewrite IH, string_app_assoc.
Qed.

Section SelectLoops.

Context {X Y E : Type}.

(** A loop that, for the elements [select] picks, writes a line to the
    builder and appends an entry to the slice, writes the lines and
    appends the entries of the picked elements in the order of the
    visit. *)
Lemma foldl_select (select : X → option Y) (line : Y → string)
    (entry : Y → E) (f : string * list E → X → string * list E)
    (l : list X) (diff : string) (acc : list E) :
  (∀ diff acc x,
     f (diff, acc) x =
       match select x with
       | Some y => (diff +:+ line y, acc ++ [entry y])
       | None => (diff, acc)
       end) →
  foldl f (diff, acc) l =
    (diff +:+ joinLines (line <$> omap select l),
     acc ++ (entry <$> omap select l)).
Proof.
  intros Hf. revert diff acc.
  induction l as [|x l IH]; intros diff acc; simpl.
  - by rewrite string_app_nil_r, app_nil_r.
  - rewrite Hf. destruct (select x) as [y|]; simpl; [|apply IH].
    rewrite IH. f_equal.
    + change (joinLines (line y :: (line <$> omap select l)))
        with (line y +:+ joinLines (line <$> omap select l)).
      by rewrite string_app_assoc.
    + by rewrite <-app_assoc.
Qed.

(** The entries appended for a list without duplicate keys have no
    duplicate names when every element yields at most one entry, named by
    its key. *)
Lemma bind_names_NoDup {N : Type} (key : X → N) (name : E → N)
    (sel : X → list E) (l : list X) :
  NoDup (key <$> l) →
  (∀ x e, e ∈ sel x → name e = key x) →
  (∀ x, length (sel x) ≤ 1) →
  NoDup (name <$> (l ≫= sel)).
Proof.
  intros Hnd Hname Hone. induction l as [|x l IH]; [constructor|].
  apply NoDup_cons in Hnd as [Hx Hnd].
  change ((x :: l) ≫= sel) with (sel x ++ (l ≫= sel)).
  rewrite fmap_app. apply NoDup_app. split; [|split; [|by apply IH]].
  - specialize (Hone x). destruct (sel x) as [|e [|e' rest]]; simpl in *;
      [constructor | apply NoDup_singleton | lia].
  - intros n (e & -> & He)%list_elem_of_fmap
      (e' & Heq & (x' & He' & Hx')%list_elem_of_bind)%list_elem_of_fmap.
    apply Hx. rewrite <-(Hname x e He), Heq, (Hname x' e' He').
    by apply list_elem_of_fmap_2.
Qed.

End SelectLoops.


(** ** Further properties of the comparison of two dictionaries *)

Section DictionaryComparison.

Context {number : Type} `{!EqDecision number}.

Abbreviation value := (value number).

Lemma entryName_nameValue (k : string) (v : value) :
  entryName (nameValue k v) = Some (VString k).
Proof. unfold entryName, nameValue. by simplify_map_eq. Qed.

Lemma entryName_nameOldNew (k : string) (old new : value) :
  entryName (nameOldNew k old new) = Some (VString k).
Proof. unfold entryName, nameOldNew. by simplify_map_eq. Qed.

Lemma nameOldNew_inj (k k' : string) (old old' new new' : value) :
  nameOldNew k old new = nameOldNew k' old' new' →
  k = k' ∧ old = old' ∧ new = new'.
Proof.
  intros Heq. split; [|split].
  - apply (f_equal (λ m : gmap string value, m !! "name")) in Heq.
    unfold nameOldNew in Heq. simplify_map_eq. done.
  - apply (f_equal (λ m : gmap string value, m !! "old")) in Heq.
    unfold nameOldNew in Heq. simplify_map_eq. done.
  - apply (f_equal (λ m : gmap string value, m !! "new")) in Heq.
    unfold nameOldNew in Heq. simplify_map_eq. done.
Qed.

Context {R : RangeOrder}.

Lemma absentFrom_elem_of (other m : gmap string value) (kv : string * value) :
  kv ∈ omap (absentFrom other) (range m) ↔
  m !! kv.1 = Some kv.2 ∧ other !! kv.1 = None.
Proof.
  rewrite list_elem_of_omap. unfold absentFrom. split.
  - intros ([k v] & Hin%range_elem_of & Hsel). simpl in Hsel.
    destruct (other !! k) eqn:Hk; [done|]. by injection Hsel as <-.
  - intros [Hm Hother]. exists kv. destruct kv as [k v]. simpl in *.
    rewrite Hother. split; [by apply range_elem_of | done].
Qed.

Lemma differingIn_elem_of (orig new : gmap string value)
    (t : string * value * value) :
  t ∈ omap (differingIn new) (range orig) ↔
  orig !! t.1.1 = Some t.1.2 ∧ new !! t.1.1 = Some t.2 ∧ t.1.2 ≠ t.2.
Proof.
  rewrite list_elem_of_omap. unfold differingIn, DeepEqual. split.
  - intros ([k v] & Hin%range_elem_of & Hsel). simpl in Hsel.
    destruct (new !! k) as [n|] eqn:Hk; [|done].
    case_bool_decide; [done|]. simpl in Hsel. by injection Hsel as <-.
  - destruct t as [[k o] n]. simpl. intros (Ho & Hn & Hne).
    exists (k, o). split; [by apply range_elem_of|]. simpl.
    by rewrite Hn, bool_decide_eq_false_2.
Qed.

Lemma omap_keys_NoDup {Y : Type} (select : string * value → option Y)
    (key : Y → string) (m : gmap string value) :
  (∀ kv y, select kv = Some y → key y = kv.1) →
  NoDup (key <$> omap select (range m)).
Proof.
  intros Hkey. pose proof (range_NoDup_fst m) as Hnd.
  induction (range m) as [|kv l IH]; [constructor|].
  apply NoDup_cons in Hnd as [Hkv Hnd]. simpl.
  destruct (select kv) as [y|] eqn:Hsel; [|by apply IH].
  simpl. apply NoDup_cons. split; [|by apply IH].
  intros (y' & Heq & (kv' & Hin & Hsel')%list_elem_of_omap)%list_elem_of_fmap.
  apply Hkv. rewrite <-(Hkey kv y Hsel), Heq, (Hkey kv' y' Hsel').
  by apply list_elem_of_fmap_2.
Qed.

Context {F : Renderer number}.

(** [compareOutputs] in closed form. *)
Lemma compareOutputs_closed (orig new : gmap string value) :
  compareOutputs orig new =
    (joinLines (addedLine <$> omap (absentFrom orig) (range new))
       +:+ joinLines (removedLine <$> omap (absentFrom new) (range orig))
       +:+ joinLines (outputChangeLine <$> omap (differingIn new) (range orig)),
     diffRecord (valueEntry <$> omap (absentFrom orig) (range new))
       (valueEntry <$> omap (absentFrom new) (range orig))
       (changeEntry <$> omap (differingIn new) (range orig))).
Proof.
  unfold compareOutputs.
  rewrite (foldl_select (absentFrom orig) addedLine valueEntry).
  2:{ intros diff acc [k v]. unfold absentFrom. simpl.
      by destruct (orig !! k). }
  rewrite (foldl_select (absentFrom new) removedLine valueEntry).
  2:{ intros diff acc [k v]. unfold absentFrom. simpl.
      by destruct (new !! k). }
  rewrite (foldl_select (differingIn new) outputChangeLine changeEntry).
  2:{ intros diff acc [k v]. unfold differingIn. simpl.
      destruct (new !! k) as [n|]; [|done]. by destruct (DeepEqual v n). }
  simpl. by rewrite !string_app_assoc.
Qed.

(** [compareVariables] in closed form, for variables that differ. *)
Lemma compareVariables_closed (origPlan newPlan : gmap string value) :
  getVariables origPlan ≠ getVariables newPlan →
  compareVariables origPlan newPlan =
    ("Variables:" +:+ nl +:+ "----------" +:+ nl
       +:+ joinLines (addedLine <$>
                        omap (absentFrom (getVariables origPlan))
                          (range (getVariables newPlan)))
       +:+ joinLines (removedLine <$>
                        omap (absentFrom (getVariables newPlan))
                          (range (getVariables origPlan)))
       +:+ joinLines (variableChangeLine <$>
                        omap (differingIn (getVariables newPlan))
                          (range (getVariables origPlan)))
       +:+ nl,
     diffRecord
       (valueEntry <$> omap (absentFrom (getVariables origPlan))
                         (range (getVariables newPlan)))
       (valueEntry <$> omap (absentFrom (getVariables newPlan))
                         (range (getVariables origPlan)))
       (changeEntry <$> omap (differingIn (getVariables newPlan))
                          (range (getVariables origPlan))),
     true).
Proof.
  intros Hne. unfold compareVariables.
  rewrite (proj2 (bool_decide_eq_false _) Hne : DeepEqual _ _ = false).
  set (orig := getVariables origPlan). set (new := getVariables newPlan).
  rewrite (foldl_select (absentFrom orig) addedLine valueEntry).
  2:{ intros diff acc [k v]. unfold absentFrom. simpl.
      by destruct (orig !! k). }
  rewrite (foldl_select (absentFrom new) removedLine valueEntry).
  2:{ intros diff acc [k v]. unfold absentFrom. simpl.
      by destruct (new !! k). }
  rewrite (foldl_select (differingIn new) variableChangeLine changeEntry).
  2:{ intros diff acc [k v]. unfold differingIn. simpl.
      destruct (new !! k) as [n|]; [|done]. by destruct (DeepEqual v n). }
  simpl. by rewrite !string_app_assoc.
Qed.

Lemma valueEntry_elem_of (other m : gmap string value)
    (e : gmap string value) :
  e ∈ valueEntry <$> omap (absentFrom other) (range m) ↔
  ∃ k v, m !! k = Some v ∧ other !! k = None ∧ e = nameValue k v.
Proof.
  rewrite list_elem_of_fmap. split.
  - intros ([k v] & -> & [Hm Ho]%absentFrom_elem_of). by exists k, v.
  - intros (k & v & Hm & Ho & ->). exists (k, v). split; [done|].
    by apply absentFrom_elem_of.
Qed.

Lemma changeEntry_elem_of (orig new : gmap string value)
    (e : gmap string value) :
  e ∈ changeEntry <$> omap (differingIn new) (range orig) ↔
  ∃ k old new', orig !! k = Some old ∧ new !! k = Some new' ∧
                old ≠ new' ∧ e = nameOldNew k old new'.
Proof.
  rewrite list_elem_of_fmap. split.
  - intros ([[k o] n] & -> & (Ho & Hn & Hne)%differingIn_elem_of).
    by exists k, o, n.
  - intros (k & o & n & Ho & Hn & Hne & ->). exists (k, o, n).
    split; [done|]. by apply differingIn_elem_of.
Qed.

(** X7: [compareOutputs] reports a key as added exactly when only the new
    dictionary has it, as removed exactly when only the old one has it,
    and as changed exactly when both have it with values that are not
    deeply equal; the entry carries the value, or the old and the new
    value. A key both dictionaries hold with equal values is in no
    collection. *)
Theorem compareOutputs_classification (orig new : gmap string value) :
  ∃ added removed changed : list (gmap string value),
    (compareOutputs orig new).2 = diffRecord added removed changed ∧
    (∀ e, e ∈ added ↔
          ∃ k v, new !! k = Some v ∧ orig !! k = None ∧ e = nameValue k v) ∧
    (∀ e, e ∈ removed ↔
          ∃ k v, orig !! k = Some v ∧ new !! k = None ∧ e = nameValue k v) ∧
    (∀ e, e ∈ changed ↔
          ∃ k old new', orig !! k = Some old ∧ new !! k = Some new' ∧
                        old ≠ new' ∧ e = nameOldNew k old new').
Proof.
  rewrite compareOutputs_closed. eexists _, _, _. split; [done|].
  split; [|split]; intros e.
  - apply valueEntry_elem_of.
  - apply valueEntry_elem_of.
  - apply changeEntry_elem_of.
Qed.

Lemma dictionary_names_NoDup (orig new : gmap string value) :
  NoDup (entryName <$>
           ((valueEntry <$> omap (absentFrom orig) (range new)) ++
            (valueEntry <$> omap (absentFrom new) (range orig)) ++
            (changeEntry <$> omap (differingIn new) (range orig)))).
Proof.
  assert (∀ l : list string,
            NoDup l → NoDup ((λ k, Some (VString k : value)) <$> l))
    as Hinj.
  { intros l Hl. apply NoDup_fmap_2; [|done]. by intros k k' [= ->]. }
  assert (∀ (other m : gmap string value),
            NoDup (entryName <$>
                     (valueEntry <$> omap (absentFrom other) (range m))))
    as Hvalue.
  { intros other m.
    assert (entryName <$>
              (valueEntry <$> omap (absentFrom other) (range m)) =
            (λ k, Some (VString k : value)) <$>
              (fst <$> omap (absentFrom other) (range m))) as ->.
    { induction (omap (absentFrom other) (range m)) as [|[k v] l IH];
        [done|].
      rewrite !fmap_cons, IH. unfold valueEntry. simpl.
      by rewrite entryName_nameValue. }
    apply Hinj, omap_keys_NoDup. intros [k v] y. unfold absentFrom. simpl.
    destruct (other !! k); [done|]. by intros [= <-]. }
  assert (NoDup (entryName <$>
                   (changeEntry <$> omap (differingIn new) (range orig))))
    as Hchange.
  { assert (entryName <$>
              (changeEntry <$> omap (differingIn new) (range orig)) =
            (λ k, Some (VString k : value)) <$>
              ((λ t, t.1.1) <$> omap (differingIn new) (range orig))) as ->.
    { induction (omap (differingIn new) (range orig)) as [|[[k o] n] l IH];
        [done|].
      rewrite !fmap_cons, IH. unfold changeEntry. simpl.
      by rewrite entryName_nameOldNew. }
    apply Hinj, omap_keys_NoDup. intros [k v] y. unfold differingIn. simpl.
    destruct (new !! k) as [n|]; [|done].
    destruct (negb _); [|done]. by intros [= <-]. }
  rewrite !fmap_app. apply NoDup_app. split; [apply Hvalue|].
  split; [|apply NoDup_app; split; [apply Hvalue|split; [|apply Hchange]]].
  - intros name Hin Hin'.
    apply list_elem_of_fmap in Hin as (e & -> & Hin).
    apply valueEntry_elem_of in Hin as (k & v & Hn & Ho & ->).
    rewrite entryName_nameValue in Hin'.
    apply elem_of_app in Hin' as [Hin'|Hin'];
      apply list_elem_of_fmap in Hin' as (e' & Heq & Hin').
    + apply valueEntry_elem_of in Hin' as (k' & v' & Ho' & _ & ->).
      rewrite entryName_nameValue in Heq. congruence.
    + apply changeEntry_elem_of in Hin' as (k' & o' & n' & Ho' & _ & _ & ->).
      rewrite entryName_nameOldNew in Heq. congruence.
  - intros name Hin Hin'.
    apply list_elem_of_fmap in Hin as (e & -> & Hin).
    apply valueEntry_elem_of in Hin as (k & v & Ho & Hn & ->).
    rewrite entryName_nameValue in Hin'.
    apply list_elem_of_fmap in Hin' as (e' & Heq & Hin').
    apply changeEntry_elem_of in Hin' as (k' & o' & n' & _ & Hn' & _ & ->).
    rewrite entryName_nameOldNew in Heq. congruence.
Qed.

(** X8: in the result of [compareOutputs] no name occurs twice: a key is
    in at most one of the added, removed and changed collections, and at
    most once there. *)
Theorem compareOutputs_names_unique (orig new : gmap string value) :
  ∃ added removed changed : list (gmap string value),
    (compareOutputs orig new).2 = diffRecord added removed changed ∧
    NoDup (entryName <$> (added ++ removed ++ changed)) ∧
    (∀ e, e ∈ added ++ removed ++ changed →
          ∃ k, entryName e = Some (VString k)).
Proof.
  rewrite compareOutputs_closed. eexists _, _, _. split; [done|].
  split; [apply dictionary_names_NoDup|].
  intros e. rewrite !elem_of_app. intros [Hin|[Hin|Hin]].
  - apply valueEntry_elem_of in Hin as (k & v & _ & _ & ->).
    exists k. apply entryName_nameValue.
  - apply valueEntry_elem_of in Hin as (k & v & _ & _ & ->).
    exists k. apply entryName_nameValue.
  - apply changeEntry_elem_of in Hin as (k & o & n & _ & _ & _ & ->).
    exists k. apply entryName_nameOldNew.
Qed.

(** X9: the text [compareOutputs] returns has one line for every entry of
    the collections it returns, in the order of the entries: the added
    ones with a plus sign, then the removed ones with a minus sign, then
    the changed ones as [formatOutputChange] renders them. *)
Theorem compareOutputs_report_matches (orig new : gmap string value) :
  ∃ (added removed : list (string * value))
    (changed : list (string * value * value)),
    compareOutputs orig new =
      (joinLines ((λ kv, "+ " +:+ kv.1 +:+ ": " +:+ formatValue kv.2 +:+ nl)
                    <$> added)
         +:+ joinLines
               ((λ kv, "- " +:+ kv.1 +:+ ": " +:+ formatValue kv.2 +:+ nl)
                  <$> removed)
         +:+ joinLines
               ((λ t, formatOutputChange t.1.1 t.1.2 t.2) <$> changed),
       diffRecord ((λ kv, nameValue kv.1 kv.2) <$> added)
         ((λ kv, nameValue kv.1 kv.2) <$> removed)
         ((λ t, nameOldNew t.1.1 t.1.2 t.2) <$> changed)).
Proof. rewrite compareOutputs_closed. by eexists _, _, _. Qed.

(** X10: [compareVariables] returns the empty text, a [nil] map and
    [false] when the variables of the two documents are equal; otherwise
    it returns [true], a text that starts with the header of the section
    and ends with an empty line, and collections that classify every
    variable as [compareOutputs] classifies an output. *)
Theorem compareVariables_sections (origPlan newPlan : gmap string value) :
  (getVariables origPlan = getVariables newPlan →
   compareVariables origPlan newPlan = ("", ∅, false)) ∧
  (getVariables origPlan ≠ getVariables newPlan →
   ∃ (body : string) (added removed changed : list (gmap string value)),
     compareVariables origPlan newPlan =
       ("Variables:" +:+ nl +:+ "----------" +:+ nl +:+ body +:+ nl,
        diffRecord added removed changed, true) ∧
     (∀ e, e ∈ added ↔
           ∃ k v, getVariables newPlan !! k = Some v ∧
                  getVariables origPlan !! k = None ∧ e = nameValue k v) ∧
     (∀ e, e ∈ removed ↔
           ∃ k v, getVariables origPlan !! k = Some v ∧
                  getVariables newPlan !! k = None ∧ e = nameValue k v) ∧
     (∀ e, e ∈ changed ↔
           ∃ k old new, getVariables origPlan !! k = Some old ∧
                        getVariables newPlan !! k = Some new ∧
                        old ≠ new ∧ e = nameOldNew k old new)).
Proof.
  split.
  - intros Heq. unfold compareVariables.
    by rewrite (proj2 (bool_decide_eq_true _) Heq : DeepEqual _ _ = true).
  - intros Hne. rewrite (compareVariables_closed _ _ Hne).
    exists
      (joinLines (addedLine <$>
                    omap (absentFrom (getVariables origPlan))
                      (range (getVariables newPlan)))
         +:+ joinLines (removedLine <$>
                          omap (absentFrom (getVariables newPlan))
                            (range (getVariables origPlan)))
         +:+ joinLines (variableChangeLine <$>
                          omap (differingIn (getVariables newPlan))
                            (range (getVariables origPlan)))).
    eexists _, _, _. split.
    { by rewrite !string_app_assoc. }
    split; [|split]; intros e.
    + apply valueEntry_elem_of.
    + apply valueEntry_elem_of.
    + apply changeEntry_elem_of.
Qed.


End DictionaryComparison.


(** ** Further properties of the attribute comparison *)

Section AttributeComparison.

Context {number : Type} `{!EqDecision number}.
Context {R : RangeOrder} {F : Renderer number}.

Abbreviation value := (value number).
Abbreviation attrState := (attrState (number := number)).

Lemma appendState_empty (st : attrState) : appendState st emptyState = st.
Proof.
  destruct st. unfold appendState. simpl.
  by rewrite string_app_nil_r, !app_nil_r.
Qed.

Lemma appendState_assoc (st1 st2 st3 : attrState) :
  appendState (appendState st1 st2) st3 =
    appendState st1 (appendState st2 st3).
Proof.
  unfold appendState. simpl. by rewrite string_app_assoc, <-!app_assoc.
Qed.

Lemma foldl_steps {X : Type} (f : attrState → X → attrState)
    (step : X → attrState) (l : list X) (st : attrState) :
  (∀ st x, f st x = appendState st (step x)) →
  foldl f st l = appendState st (sumStates (step <$> l)).
Proof.
  intros Hf. revert st. induction l as [|x l IH]; intros st; simpl.
  - by rewrite appendState_empty.
  - by rewrite IH, Hf, appendState_assoc.
Qed.

Lemma processPriorityAttributes_steps
    (origAttrs newAttrs : gmap string value) (st : attrState) :
  processPriorityAttributes origAttrs newAttrs priorityAttrs st =
    appendState st
      (sumStates (priorityStep origAttrs newAttrs <$> priorityAttrs)).
Proof.
  apply foldl_steps. clear st. intros st k. unfold priorityStep.
  destruct (origAttrs !! k) as [o|], (newAttrs !! k) as [n|];
    [destruct (DeepEqual o n)|..]; destruct st;
    unfold appendState, emptyState; simpl;
    rewrite ?string_app_nil_r, ?app_nil_r; done.
Qed.

Lemma processRegularAttributeChanges_steps
    (origAttrs newAttrs : gmap string value) (st : attrState) :
  processRegularAttributeChanges origAttrs newAttrs priorityAttrs skipAttrs st
    = appendState st (sumStates (regularStep newAttrs <$> range origAttrs)).
Proof.
  apply foldl_steps. clear st. intros st [k o]. unfold regularStep.
  cbn [fst snd].
  destruct (contains priorityAttrs k || skipped skipAttrs k);
    [|destruct (newAttrs !! k) as [n|]; [destruct (DeepEqual o n)|]];
    destruct st; unfold appendState, emptyState; simpl;
    rewrite ?string_app_nil_r, ?app_nil_r; done.
Qed.

Lemma processAddedAttributes_steps
    (origAttrs newAttrs : gmap string value) (st : attrState) :
  processAddedAttributes origAttrs newAttrs priorityAttrs skipAttrs st =
    appendState st (sumStates (addedStep origAttrs <$> range newAttrs)).
Proof.
  apply foldl_steps. clear st. intros st [k n]. unfold addedStep.
  cbn [fst snd].
  destruct (origAttrs !! k);
    [|destruct (negb (contains priorityAttrs k)
                && negb (skipped skipAttrs k))];
    destruct st; unfold appendState, emptyState; simpl;
    rewrite ?string_app_nil_r, ?app_nil_r; done.
Qed.

(** The three passes add [attributeDelta] to the state they start from. *)
Lemma attributePasses_delta (diff : string)
    (origAttrs newAttrs : gmap string value) :
  attributePasses diff origAttrs newAttrs =
    appendState (AttrState diff [] [] [])
      (attributeDelta origAttrs newAttrs).
Proof.
  unfold attributePasses, attributeDelta.
  rewrite processAddedAttributes_steps,
    processRegularAttributeChanges_steps, processPriorityAttributes_steps.
  by rewrite !appendState_assoc.
Qed.

Lemma processAttributeDifferences_delta (diff : string)
    (origAttrs newAttrs : gmap string value) :
  processAttributeDifferences diff origAttrs newAttrs =
    (diff +:+ st_diff (attributeDelta origAttrs newAttrs),
     diffRecord (st_added (attributeDelta origAttrs newAttrs))
       (st_removed (attributeDelta origAttrs newAttrs))
       (st_changed (attributeDelta origAttrs newAttrs))).
Proof.
  unfold processAttributeDifferences. by rewrite attributePasses_delta.
Qed.

(** X11: [processAttributeDifferences] appends to the builder a text that
    does not depend on what the builder holds, leaving what it holds in
    front, and returns a record that does not depend on the builder
    either. *)
Theorem processAttributeDifferences_frame (diff : string)
    (origAttrs newAttrs : gmap string value) :
  processAttributeDifferences diff origAttrs newAttrs =
    (diff +:+ (processAttributeDifferences "" origAttrs newAttrs).1,
     (processAttributeDifferences "" origAttrs newAttrs).2).
Proof. by rewrite !processAttributeDifferences_delta. Qed.

Lemma contains_true (slice : list string) (s : string) :
  contains slice s = true ↔ s ∈ slice.
Proof.
  induction slice as [|item rest IH]; simpl.
  - split; [done | by intros ?%elem_of_nil].
  - rewrite elem_of_cons. case_bool_decide as Heq.
    + split; [by left | done].
    + rewrite IH. split; [by right | by intros [->|?]].
Qed.

Lemma contains_false (slice : list string) (s : string) :
  contains slice s = false ↔ s ∉ slice.
Proof.
  rewrite <-contains_true. by destruct (contains slice s).
Qed.

Lemma st_added_sum {X : Type} (step : X → attrState) (l : list X) :
  st_added (sumStates (step <$> l)) = l ≫= (λ x, st_added (step x)).
Proof.
  induction l as [|x l IH]; [done|].
  change (st_added (step x) ++ st_added (sumStates (step <$> l)) =
          st_added (step x) ++ (l ≫= (λ x, st_added (step x)))).
  by rewrite IH.
Qed.

Lemma st_removed_sum {X : Type} (step : X → attrState) (l : list X) :
  st_removed (sumStates (step <$> l)) = l ≫= (λ x, st_removed (step x)).
Proof.
  induction l as [|x l IH]; [done|].
  change (st_removed (step x) ++ st_removed (sumStates (step <$> l)) =
          st_removed (step x) ++ (l ≫= (λ x, st_removed (step x)))).
  by rewrite IH.
Qed.

Lemma st_changed_sum {X : Type} (step : X → attrState) (l : list X) :
  st_changed (sumStates (step <$> l)) = l ≫= (λ x, st_changed (step x)).
Proof.
  induction l as [|x l IH]; [done|].
  change (st_changed (step x) ++ st_changed (sumStates (step <$> l)) =
          st_changed (step x) ++ (l ≫= (λ x, st_changed (step x)))).
  by rewrite IH.
Qed.

(** On an entry of the old attributes the regular pass does what the
    priority pass does for a priority key, for the keys that are neither
    priority keys nor skipped. *)
Lemma regularStep_priorityStep (origAttrs newAttrs : gmap string value)
    (k : string) (o : value) :
  origAttrs !! k = Some o →
  regularStep newAttrs (k, o) =
    if contains priorityAttrs k || skipped skipAttrs k then emptyState
    else priorityStep origAttrs newAttrs k.
Proof.
  intros Ho. unfold regularStep, priorityStep. simpl. by rewrite Ho.
Qed.

(** On an entry of the new attributes the last pass does what the priority
    pass does, for the keys the old attributes lack that are neither
    priority keys nor skipped. *)
Lemma addedStep_priorityStep (origAttrs newAttrs : gmap string value)
    (k : string) (n : value) :
  newAttrs !! k = Some n →
  addedStep origAttrs (k, n) =
    if bool_decide (origAttrs !! k = None)
       && negb (contains priorityAttrs k) && negb (skipped skipAttrs k)
    then priorityStep origAttrs newAttrs k
    else emptyState.
Proof.
  intros Hn. unfold addedStep, priorityStep. simpl. rewrite Hn.
  destruct (origAttrs !! k) as [o|]; [done|]. simpl.
  by destruct (negb _ && negb _).
Qed.

Lemma priorityStep_changed (origAttrs newAttrs : gmap string value)
    (k : string) (e : gmap string value) :
  e ∈ st_changed (priorityStep origAttrs newAttrs k) ↔
  ∃ old new, origAttrs !! k = Some old ∧ newAttrs !! k = Some new ∧
             old ≠ new ∧ e = nameOldNew k old new.
Proof.
  unfold priorityStep, DeepEqual.
  destruct (origAttrs !! k) as [o|], (newAttrs !! k) as [n|]; simpl.
  - case_bool_decide as Hdec; simpl.
    + rewrite elem_of_nil. split; [done|].
      intros (o' & n' & [= <-] & [= <-] & Hne & _). done.
    + rewrite list_elem_of_singleton. split.
      * intros ->. by exists o, n.
      * by intros (o' & n' & [= <-] & [= <-] & _ & ->).
  - rewrite elem_of_nil. split; [done|]. by intros (? & ? & _ & ? & _).
  - rewrite elem_of_nil. split; [done|]. by intros (? & ? & ? & _).
  - rewrite elem_of_nil. split; [done|]. by intros (? & ? & ? & _).
Qed.

Lemma priorityStep_removed (origAttrs newAttrs : gmap string value)
    (k : string) (e : gmap string value) :
  e ∈ st_removed (priorityStep origAttrs newAttrs k) ↔
  ∃ old, origAttrs !! k = Some old ∧ newAttrs !! k = None ∧
         e = nameValue k old.
Proof.
  unfold priorityStep, DeepEqual.
  destruct (origAttrs !! k) as [o|], (newAttrs !! k) as [n|]; simpl.
  - destruct (negb _); simpl; rewrite elem_of_nil;
      (split; [done|]); by intros (? & _ & ? & _).
  - rewrite list_elem_of_singleton. split.
    + intros ->. by exists o.
    + by intros (o' & [= <-] & _ & ->).
  - rewrite elem_of_nil. split; [done|]. by intros (? & ? & _).
  - rewrite elem_of_nil. split; [done|]. by intros (? & ? & _).
Qed.

Lemma priorityStep_added (origAttrs newAttrs : gmap string value)
    (k : string) (e : gmap string value) :
  e ∈ st_added (priorityStep origAttrs newAttrs k) ↔
  ∃ new, origAttrs !! k = None ∧ newAttrs !! k = Some new ∧
         e = nameValue k new.
Proof.
  unfold priorityStep, DeepEqual.
  destruct (origAttrs !! k) as [o|], (newAttrs !! k) as [n|]; simpl.
  - destruct (negb _); simpl; rewrite elem_of_nil;
      (split; [done|]); by intros (? & ? & _).
  - rewrite elem_of_nil. split; [done|]. by intros (? & ? & _).
  - rewrite list_elem_of_singleton. split.
    + intros ->. by exists n.
    + by intros (n' & _ & [= <-] & ->).
  - rewrite elem_of_nil. split; [done|]. by intros (? & _ & ? & _).
Qed.

(** The keys a comparison of attributes reports on: those outside the skip
    set that one of the two dictionaries has. *)
Lemma delta_elem_of (origAttrs newAttrs : gmap string value)
    (proj : attrState → list (gmap string value)) (e : gmap string value) :
  (∀ st1 st2, proj (appendState st1 st2) = proj st1 ++ proj st2) →
  proj emptyState = [] →
  (∀ {X : Type} (step : X → attrState) (l : list X),
     proj (sumStates (step <$> l)) = l ≫= (λ x, proj (step x))) →
  e ∈ proj (attributeDelta origAttrs newAttrs) ↔
  ∃ k, skipped skipAttrs k = false ∧
       (is_Some (origAttrs !! k) ∨
        origAttrs !! k = None ∧ is_Some (newAttrs !! k) ∨
        k ∈ priorityAttrs) ∧
       e ∈ proj (priorityStep origAttrs newAttrs k).
Proof.
  intros Happ Hempty Hsum. unfold attributeDelta.
  rewrite !Happ, !Hsum, !elem_of_app, !list_elem_of_bind. split.
  - intros [[(k & He & Hk)|([k o] & He & Hin%range_elem_of)]
           |([k n] & He & Hin%range_elem_of)].
    + exists k. split; [by apply priorityAttrs_unskipped|]. auto.
    + rewrite (regularStep_priorityStep origAttrs) in He by done.
      destruct (contains priorityAttrs k); cbn [orb andb negb] in He.
      { rewrite Hempty in He. by apply elem_of_nil in He. }
      destruct (skipped skipAttrs k) eqn:Hskip; cbn [orb andb negb] in He.
      { rewrite Hempty in He. by apply elem_of_nil in He. }
      exists k. eauto.
    + rewrite (addedStep_priorityStep origAttrs newAttrs) in He by done.
      case_bool_decide as Ho; cbn [orb andb negb] in He;
        [|rewrite Hempty in He; by apply elem_of_nil in He].
      destruct (contains priorityAttrs k); cbn [orb andb negb] in He.
      { rewrite Hempty in He. by apply elem_of_nil in He. }
      destruct (skipped skipAttrs k) eqn:Hskip; cbn [orb andb negb] in He.
      { rewrite Hempty in He. by apply elem_of_nil in He. }
      exists k. eauto 6.
  - intros (k & Hskip & Hk & He).
    destruct (contains priorityAttrs k) eqn:Hprio.
    { left. left. exists k. split; [done|]. by apply contains_true. }
    destruct Hk as [[o Ho]|[[Ho [n Hn]]|Hk]].
    + left. right. exists (k, o). split; [|by apply range_elem_of].
      rewrite (regularStep_priorityStep origAttrs) by done.
      by rewrite Hprio, Hskip.
    + right. exists (k, n). split; [|by apply range_elem_of].
      rewrite (addedStep_priorityStep origAttrs newAttrs) by done.
      by rewrite bool_decide_eq_true_2, Hprio, Hskip.
    + apply contains_true in Hk. congruence.
Qed.


(** X12: for the attributes outside the skip set,
    [processAttributeDifferences] reports a key as added exactly when only
    the new attributes have it, as removed exactly when only the old ones
    have it, and as changed exactly when both have it with values that are
    not deeply equal, priority keys included; it reports nothing else. *)
Theorem processAttributeDifferences_classification (diff : string)
    (origAttrs newAttrs : gmap string value) :
  ∃ added removed changed : list (gmap string value),
    (processAttributeDifferences diff origAttrs newAttrs).2 =
      diffRecord added removed changed ∧
    (∀ e, e ∈ added ↔
          ∃ k new, skipped skipAttrs k = false ∧ origAttrs !! k = None ∧
                   newAttrs !! k = Some new ∧ e = nameValue k new) ∧
    (∀ e, e ∈ removed ↔
          ∃ k old, skipped skipAttrs k = false ∧ origAttrs !! k = Some old ∧
                   newAttrs !! k = None ∧ e = nameValue k old) ∧
    (∀ e, e ∈ changed ↔
          ∃ k old new, skipped skipAttrs k = false ∧
                       origAttrs !! k = Some old ∧
                       newAttrs !! k = Some new ∧ old ≠ new ∧
                       e = nameOldNew k old new).
Proof.
  rewrite processAttributeDifferences_delta. eexists _, _, _.
  split; [done|]. split; [|split]; intros e.
  - rewrite (delta_elem_of _ _ st_added); [|done|done|apply @st_added_sum].
    split.
    + intros (k & Hskip & _ & (n & Ho & Hn & ->)%priorityStep_added).
      by exists k, n.
    + intros (k & n & Hskip & Ho & Hn & ->). exists k.
      split; [done|]. split; [eauto|]. apply priorityStep_added. eauto.
  - rewrite (delta_elem_of _ _ st_removed);
      [|done|done|apply @st_removed_sum].
    split.
    + intros (k & Hskip & _ & (o & Ho & Hn & ->)%priorityStep_removed).
      by exists k, o.
    + intros (k & o & Hskip & Ho & Hn & ->). exists k.
      split; [done|]. split; [eauto|]. apply priorityStep_removed. eauto.
  - rewrite (delta_elem_of _ _ st_changed);
      [|done|done|apply @st_changed_sum].
    split.
    + intros (k & Hskip & _ &
              (o & n & Ho & Hn & Hne & ->)%priorityStep_changed).
      by exists k, o, n.
    + intros (k & o & n & Hskip & Ho & Hn & Hne & ->). exists k.
      split; [done|]. split; [eauto|]. apply priorityStep_changed.
      by exists o, n.
Qed.

Lemma priorityStep_entries (origAttrs newAttrs : gmap string value)
    (k : string) :
  allEntries (priorityStep origAttrs newAttrs k) = [] ∨
  ∃ e, allEntries (priorityStep origAttrs newAttrs k) = [e] ∧
       entryName e = Some (VString k).
Proof.
  unfold priorityStep, allEntries.
  destruct (origAttrs !! k) as [o|], (newAttrs !! k) as [n|];
    [destruct (negb _)|..]; simpl; eauto using entryName_nameValue,
      entryName_nameOldNew.
Qed.

Lemma regularStep_entries (newAttrs : gmap string value)
    (kv : string * value) :
  allEntries (regularStep newAttrs kv) = [] ∨
  ∃ e, allEntries (regularStep newAttrs kv) = [e] ∧
       entryName e = Some (VString kv.1) ∧
       contains priorityAttrs kv.1 = false.
Proof.
  unfold regularStep, allEntries.
  destruct (contains priorityAttrs kv.1) eqn:Hprio,
    (skipped skipAttrs kv.1), (newAttrs !! kv.1) as [n|];
    try destruct (negb (DeepEqual kv.2 n)); simpl;
    first [by left
          |right; eexists; split; [done|];
           by auto using entryName_nameValue, entryName_nameOldNew].
Qed.

Lemma addedStep_entries (origAttrs : gmap string value)
    (kv : string * value) :
  allEntries (addedStep origAttrs kv) = [] ∨
  ∃ e, allEntries (addedStep origAttrs kv) = [e] ∧
       entryName e = Some (VString kv.1) ∧
       contains priorityAttrs kv.1 = false ∧
       origAttrs !! kv.1 = None.
Proof.
  unfold addedStep, allEntries.
  destruct (contains priorityAttrs kv.1) eqn:Hprio,
    (skipped skipAttrs kv.1), (origAttrs !! kv.1) as [o|] eqn:Ho; simpl;
    first [by left
          |right; eexists; split; [done|];
           by auto using entryName_nameValue].
Qed.

Lemma allEntries_append (st1 st2 : attrState) :
  allEntries (appendState st1 st2) ≡ₚ allEntries st1 ++ allEntries st2.
Proof.
  destruct st1 as [d1 a1 r1 c1], st2 as [d2 a2 r2 c2].
  unfold allEntries, appendState. simpl.
  rewrite <-!app_assoc. apply Permutation_app_head.
  rewrite (Permutation_app_swap_app a2 r1). apply Permutation_app_head.
  by rewrite (Permutation_app_swap_app r2 c1),
    (Permutation_app_swap_app a2 c1).
Qed.

Lemma allEntries_sum {X : Type} (step : X → attrState) (l : list X) :
  allEntries (sumStates (step <$> l)) ≡ₚ l ≫= (λ x, allEntries (step x)).
Proof.
  induction l as [|x l IH]; [done|].
  change (allEntries (appendState (step x) (sumStates (step <$> l))) ≡ₚ
          allEntries (step x) ++ (l ≫= (λ x, allEntries (step x)))).
  by rewrite allEntries_append, IH.
Qed.

Lemma priorityAttrs_NoDup : NoDup priorityAttrs.
Proof. unfold priorityAttrs. by compute_done. Qed.

Lemma attributeDelta_names_NoDup (origAttrs newAttrs : gmap string value) :
  NoDup (entryName <$> allEntries (attributeDelta origAttrs newAttrs)).
Proof.
  assert (∀ l : list string,
            NoDup l → NoDup ((λ k, Some (VString k : value)) <$> l))
    as Hinj.
  { intros l Hl. apply NoDup_fmap_2; [|done]. by intros k k' [= ->]. }
  assert (∀ m : gmap string value,
            NoDup ((λ kv : string * value, Some (VString kv.1 : value))
                     <$> range m)) as Hkeys.
  { intros m.
    assert ((λ kv : string * value, Some (VString kv.1 : value))
              <$> range m =
            (λ k, Some (VString k : value)) <$> (range m).*1) as ->.
    { by rewrite <-list_fmap_compose. }
    apply Hinj, range_NoDup_fst. }
  unfold attributeDelta.
  rewrite !allEntries_append, !allEntries_sum, !fmap_app.
  apply NoDup_app. split; [|split].
  - apply NoDup_app. split; [|split].
    + apply (bind_names_NoDup (λ k, Some (VString k : value))).
      * apply Hinj, priorityAttrs_NoDup.
      * intros k e He.
        destruct (priorityStep_entries origAttrs newAttrs k)
          as [Hnil|(e' & Hone & Hname)]; rewrite ?Hnil, ?Hone in He.
        { by apply elem_of_nil in He. }
        by apply list_elem_of_singleton in He as ->.
      * intros k.
        by destruct (priorityStep_entries origAttrs newAttrs k)
          as [->|(e' & -> & _)]; simpl; lia.
    + intros name (e & -> & (k & He & Hk)%list_elem_of_bind)%list_elem_of_fmap
        (e' & Heq & ([k' o'] & He' & _)%list_elem_of_bind)%list_elem_of_fmap.
      destruct (priorityStep_entries origAttrs newAttrs k)
        as [Hnil|(e1 & Hone & Hname)]; rewrite ?Hnil, ?Hone in He;
        [by apply elem_of_nil in He|].
      apply list_elem_of_singleton in He as ->.
      destruct (regularStep_entries newAttrs (k', o'))
        as [Hnil|(e2 & Hone' & Hname' & Hprio)]; rewrite ?Hnil, ?Hone' in He';
        [by apply elem_of_nil in He'|].
      apply list_elem_of_singleton in He' as ->.
      rewrite Hname, Hname' in Heq. injection Heq as ->.
      apply contains_false in Hprio. done.
    + apply (bind_names_NoDup (λ kv, Some (VString kv.1 : value)));
        [apply Hkeys| |].
      * intros kv e He.
        destruct (regularStep_entries newAttrs kv)
          as [Hnil|(e' & Hone & Hname & _)]; rewrite ?Hnil, ?Hone in He.
        { by apply elem_of_nil in He. }
        by apply list_elem_of_singleton in He as ->.
      * intros kv.
        by destruct (regularStep_entries newAttrs kv)
          as [->|(e' & -> & _)]; simpl; lia.
  - intros name Hin
      (e' & Heq & ([k' n'] & He' & _)%list_elem_of_bind)%list_elem_of_fmap.
    destruct (addedStep_entries origAttrs (k', n'))
      as [Hnil|(e2 & Hone' & Hname' & Hprio & Ho)]; rewrite ?Hnil, ?Hone' in He';
      [by apply elem_of_nil in He'|].
    apply list_elem_of_singleton in He' as ->.
    apply elem_of_app in Hin
      as [(e & -> & (k & He & Hk)%list_elem_of_bind)%list_elem_of_fmap
         |(e & -> & ([k o] & He & Hk%range_elem_of)%list_elem_of_bind)
            %list_elem_of_fmap].
    + destruct (priorityStep_entries origAttrs newAttrs k)
        as [Hnil|(e1 & Hone & Hname)]; rewrite ?Hnil, ?Hone in He;
        [by apply elem_of_nil in He|].
      apply list_elem_of_singleton in He as ->.
      rewrite Hname, Hname' in Heq. injection Heq as ->.
      apply contains_false in Hprio. done.
    + destruct (regularStep_entries newAttrs (k, o))
        as [Hnil|(e1 & Hone & Hname & _)]; rewrite ?Hnil, ?Hone in He;
        [by apply elem_of_nil in He|].
      apply list_elem_of_singleton in He as ->.
      rewrite Hname, Hname' in Heq. simpl in *. injection Heq as ->.
      congruence.
  - apply (bind_names_NoDup (λ kv, Some (VString kv.1 : value)));
      [apply Hkeys| |].
    + intros kv e He.
      destruct (addedStep_entries origAttrs kv)
        as [Hnil|(e' & Hone & Hname & _)]; rewrite ?Hnil, ?Hone in He.
      { by apply elem_of_nil in He. }
      by apply list_elem_of_singleton in He as ->.
    + intros kv.
      by destruct (addedStep_entries origAttrs kv)
        as [->|(e' & -> & _)]; simpl; lia.
Qed.

(** X13: in the result of [processAttributeDifferences] no attribute name
    occurs twice: a key is in at most one of the added, removed and
    changed collections, and at most once there, although a priority key
    that the dictionaries hold is visited by two passes. *)
Theorem processAttributeDifferences_names_unique (diff : string)
    (origAttrs newAttrs : gmap string value) :
  ∃ added removed changed : list (gmap string value),
    (processAttributeDifferences diff origAttrs newAttrs).2 =
      diffRecord added removed changed ∧
    NoDup (entryName <$> (added ++ removed ++ changed)).
Proof.
  rewrite processAttributeDifferences_delta. eexists _, _, _.
  split; [done|]. apply attributeDelta_names_NoDup.
Qed.


Lemma single_step_projection (proj : attrState → list (gmap string value))
    (st : attrState) :
  proj st `sublist_of` allEntries st →
  (allEntries st = [] → proj st = []) ∧
  (∀ e, allEntries st = [e] → proj st = [] ∨ proj st = [e]).
Proof.
  intros Hsub. split.
  - intros Hnil. rewrite Hnil in Hsub. by apply sublist_nil_r.
  - intros e Hone. rewrite Hone in Hsub.
    destruct (proj st) as [|e1 [|e2 rest]]; [by left| |].
    + right. apply sublist_subseteq in Hsub.
      assert (e1 ∈ [e]) as ->%list_elem_of_singleton
        by (apply Hsub; left). done.
    + apply sublist_length in Hsub. simpl in Hsub. lia.
Qed.

Lemma priority_names_sublist (proj : attrState → list (gmap string value))
    (origAttrs newAttrs : gmap string value) (l : list string) :
  (∀ st, proj st `sublist_of` allEntries st) →
  (entryName <$> (l ≫= (λ k, proj (priorityStep origAttrs newAttrs k))))
    `sublist_of` ((λ k, Some (VString k : value)) <$> l).
Proof.
  intros Hsub. induction l as [|k l IH]; [done|].
  change ((entryName <$>
             (proj (priorityStep origAttrs newAttrs k) ++
              (l ≫= (λ k, proj (priorityStep origAttrs newAttrs k)))))
            `sublist_of`
          (Some (VString k : value) ::
             ((λ k, Some (VString k : value)) <$> l))).
  destruct (single_step_projection proj _ (Hsub
              (priorityStep origAttrs newAttrs k))) as [Hnil Hone].
  destruct (priorityStep_entries origAttrs newAttrs k)
    as [Hall|(e & Hall & Hname)].
  - rewrite (Hnil Hall). simpl. by apply sublist_cons.
  - destruct (Hone e Hall) as [->| ->]; simpl.
    + by apply sublist_cons.
    + rewrite Hname. by apply sublist_skip.
Qed.

Lemma attributeDelta_priority_first
    (proj : attrState → list (gmap string value))
    (origAttrs newAttrs : gmap string value) :
  (∀ st1 st2, proj (appendState st1 st2) = proj st1 ++ proj st2) →
  (∀ {X : Type} (step : X → attrState) (l : list X),
     proj (sumStates (step <$> l)) = l ≫= (λ x, proj (step x))) →
  (∀ st, proj st `sublist_of` allEntries st) →
  ∃ first rest : list (gmap string value),
    proj (attributeDelta origAttrs newAttrs) = first ++ rest ∧
    (entryName <$> first) `sublist_of`
      ((λ k, Some (VString k : value)) <$> priorityAttrs) ∧
    ∀ e, e ∈ rest →
         ∃ k, entryName e = Some (VString k) ∧ k ∉ priorityAttrs.
Proof.
  intros Happ Hsum Hsub. unfold attributeDelta.
  rewrite !Happ, !Hsum, <-app_assoc. eexists _, _. split; [done|].
  split; [by apply priority_names_sublist|].
  intros e [([k o] & He & _)%list_elem_of_bind
           |([k n] & He & _)%list_elem_of_bind]%elem_of_app.
  - apply (sublist_subseteq _ _ (Hsub _)) in He.
    destruct (regularStep_entries newAttrs (k, o))
      as [Hnil|(e' & Hone & Hname & Hprio)]; rewrite ?Hnil, ?Hone in He;
      [by apply elem_of_nil in He|].
    apply list_elem_of_singleton in He as ->.
    exists k. split; [done|]. by apply contains_false.
  - apply (sublist_subseteq _ _ (Hsub _)) in He.
    destruct (addedStep_entries origAttrs (k, n))
      as [Hnil|(e' & Hone & Hname & Hprio & _)]; rewrite ?Hnil, ?Hone in He;
      [by apply elem_of_nil in He|].
    apply list_elem_of_singleton in He as ->.
    exists k. split; [done|]. by apply contains_false.
Qed.

(** X14: in each of the three collections [processAttributeDifferences]
    returns, the entries for the priority attributes come first, in the
    order [id], [url], [content] of the priority list, before the entries
    of every other attribute. *)
Theorem processAttributeDifferences_priority_first (diff : string)
    (origAttrs newAttrs : gmap string value) (category : string) :
  category ∈ ["added"; "removed"; "changed"] →
  ∃ first rest : list (gmap string value),
    (processAttributeDifferences diff origAttrs newAttrs).2 !! category =
      Some (records (first ++ rest)) ∧
    (entryName <$> first) `sublist_of`
      [Some (VString "id"); Some (VString "url"); Some (VString "content")] ∧
    ∀ e, e ∈ rest →
         ∃ k, entryName e = Some (VString k) ∧ k ∉ ["id"; "url"; "content"].
Proof.
  intros Hcat. rewrite processAttributeDifferences_delta. cbn [snd].
  rewrite !elem_of_cons, elem_of_nil in Hcat.
  destruct Hcat as [->|[->|[->|[]]]].
  - destruct (attributeDelta_priority_first st_added origAttrs newAttrs)
      as (first & rest & -> & Hfirst & Hrest);
      [done | apply @st_added_sum | |].
    { intros st. unfold allEntries. by apply sublist_inserts_r. }
    exists first, rest. by rewrite diffRecord_lookup_added.
  - destruct (attributeDelta_priority_first st_removed origAttrs newAttrs)
      as (first & rest & -> & Hfirst & Hrest);
      [done | apply @st_removed_sum | |].
    { intros st. unfold allEntries.
      by apply sublist_inserts_l, sublist_inserts_r. }
    exists first, rest. by rewrite diffRecord_lookup_removed.
  - destruct (attributeDelta_priority_first st_changed origAttrs newAttrs)
      as (first & rest & -> & Hfirst & Hrest);
      [done | apply @st_changed_sum | |].
    { intros st. unfold allEntries. by do 2 apply sublist_inserts_l. }
    exists first, rest. by rewrite diffRecord_lookup_changed.
Qed.


End AttributeComparison.


(** ** Further properties of the comparison of two documents *)

Section DocumentComparison.

Context {number : Type} `{!EqDecision number}.
Context {R : RangeOrder} {F : Renderer number}.

Abbreviation value := (value number).

(** [compareResources] in closed form. *)
Lemma compareResources_closed (orig new : gmap string value) :
  compareResources orig new =
    (joinLines ((λ kv, "+ " +:+ kv.1 +:+ nl)
                  <$> omap (absentFrom orig) (range new))
       +:+ joinLines ((λ kv, "- " +:+ kv.1 +:+ nl)
                        <$> omap (absentFrom new) (range orig))
       +:+ joinLines (changedResourceLines
                        <$> omap (differingIn new) (range orig)),
     diffRecord (resourceEntry <$> omap (absentFrom orig) (range new))
       (resourceEntry <$> omap (absentFrom new) (range orig))
       (changedResourceEntry <$> omap (differingIn new) (range orig))).
Proof.
  unfold compareResources, processResourceAdditionsAndRemovals,
    processChangedResources.
  rewrite (foldl_select (absentFrom orig) (λ kv, "+ " +:+ kv.1 +:+ nl)
             resourceEntry).
  2:{ intros diff acc [k v]. unfold absentFrom. simpl.
      by destruct (orig !! k). }
  rewrite (foldl_select (absentFrom new) (λ kv, "- " +:+ kv.1 +:+ nl)
             resourceEntry).
  2:{ intros diff acc [k v]. unfold absentFrom. simpl.
      by destruct (new !! k). }
  rewrite (foldl_select (differingIn new) changedResourceLines
             changedResourceEntry).
  2:{ intros diff acc [k v]. unfold differingIn. cbn [fst snd].
      destruct (new !! k) as [n|]; [|done].
      destruct (DeepEqual v n); [done|]. cbn [negb].
      rewrite processAttributeDifferences_delta.
      unfold changedResourceLines, changedResourceEntry. cbn [fst snd].
      rewrite processAttributeDifferences_delta. cbn [fst snd].
      by rewrite !string_app_assoc. }
  cbn [fst snd]. unfold diffRecord. by rewrite !string_app_assoc.
Qed.

Lemma addressValue_inj (k k' : string) (v v' : value) :
  addressValue k v = addressValue k' v' → k = k' ∧ v = v'.
Proof.
  intros Heq. split.
  - apply (f_equal (λ m : gmap string value, m !! "address")) in Heq.
    unfold addressValue in Heq. simplify_map_eq. done.
  - apply (f_equal (λ m : gmap string value, m !! "value")) in Heq.
    unfold addressValue in Heq. simplify_map_eq. done.
Qed.

(** X15: [compareResources] reports an address as added exactly when only
    the new dictionary has it, as removed exactly when only the old one
    has it, both with the record, and as changed exactly when both have
    it with records that are not deeply equal; the entry of a changed
    address carries the attribute comparison of the effective attributes
    of its two records. *)
Theorem compareResources_classification (orig new : gmap string value) :
  ∃ added removed changed : list (gmap string value),
    (compareResources orig new).2 = diffRecord added removed changed ∧
    (∀ e, e ∈ added ↔
          ∃ k v, new !! k = Some v ∧ orig !! k = None ∧
                 e = addressValue k v) ∧
    (∀ e, e ∈ removed ↔
          ∃ k v, orig !! k = Some v ∧ new !! k = None ∧
                 e = addressValue k v) ∧
    (∀ e, e ∈ changed ↔
          ∃ k origV newV,
            orig !! k = Some origV ∧ new !! k = Some newV ∧ origV ≠ newV ∧
            e = {[ "address" := VString k;
                   "attributes" :=
                     VObject (processAttributeDifferences ""
                                (getResourceAttributes origV)
                                (getResourceAttributes newV)).2 ]}).
Proof.
  rewrite compareResources_closed. eexists _, _, _. split; [done|].
  split; [|split]; intros e; rewrite list_elem_of_fmap.
  - split.
    + intros ([k v] & -> & [Hn Ho]%absentFrom_elem_of). by exists k, v.
    + intros (k & v & Hn & Ho & ->). exists (k, v). split; [done|].
      by apply absentFrom_elem_of.
  - split.
    + intros ([k v] & -> & [Ho Hn]%absentFrom_elem_of). by exists k, v.
    + intros (k & v & Ho & Hn & ->). exists (k, v). split; [done|].
      by apply absentFrom_elem_of.
  - split.
    + intros ([[k o] n] & -> & (Ho & Hn & Hne)%differingIn_elem_of).
      by exists k, o, n.
    + intros (k & o & n & Ho & Hn & Hne & ->). exists (k, o, n).
      split; [done|]. by apply differingIn_elem_of.
Qed.

Lemma compareOutputSections_closed (origPlan newPlan : gmap string value) :
  getOutputs origPlan ≠ getOutputs newPlan →
  compareOutputSections origPlan newPlan =
    ("Outputs:" +:+ nl +:+ "--------" +:+ nl
       +:+ (compareOutputs (getOutputs origPlan) (getOutputs newPlan)).1,
     (compareOutputs (getOutputs origPlan) (getOutputs newPlan)).2, true).
Proof.
  intros Hne. unfold compareOutputSections.
  rewrite (proj2 (DeepEqual_false _ _) Hne).
  destruct (compareOutputs _ _) as [t m]. simpl.
  by rewrite !string_app_assoc.
Qed.

Lemma compareResourceSections_closed (origPlan newPlan : gmap string value) :
  getResources origPlan ≠ getResources newPlan →
  compareResourceSections origPlan newPlan =
    ("Resources:" +:+ nl +:+ "-----------" +:+ nl +:+ nl
       +:+ (compareResources (getResources origPlan)
              (getResources newPlan)).1 +:+ nl,
     (compareResources (getResources origPlan) (getResources newPlan)).2,
     true).
Proof.
  intros Hne. unfold compareResourceSections.
  rewrite (proj2 (DeepEqual_false _ _) Hne).
  destruct (compareResources _ _) as [t m]. simpl.
  by rewrite !string_app_assoc.
Qed.

Lemma section_equal_empty (origPlan newPlan : gmap string value) :
  (getVariables origPlan = getVariables newPlan →
   compareVariables origPlan newPlan = ("", ∅, false)) ∧
  (getResources origPlan = getResources newPlan →
   compareResourceSections origPlan newPlan = ("", ∅, false)) ∧
  (getOutputs origPlan = getOutputs newPlan →
   compareOutputSections origPlan newPlan = ("", ∅, false)).
Proof.
  unfold compareVariables, compareResourceSections, compareOutputSections.
  split; [|split]; intros Heq; by rewrite (proj2 (DeepEqual_true _ _) Heq).
Qed.

(** The report of [generatePlanDiff] is the reports of the three section
    comparisons one after the other. *)
Lemma generatePlanDiff_text (origPlan newPlan : gmap string value) :
  (generatePlanDiff origPlan newPlan).1.1 =
    (compareVariables origPlan newPlan).1.1
      +:+ (compareResourceSections origPlan newPlan).1.1
      +:+ (compareOutputSections origPlan newPlan).1.1.
Proof.
  destruct (section_equal_empty origPlan newPlan) as (Hv & Hr & Ho).
  pose proof (compareVariables_hasDiff origPlan newPlan) as Hvf.
  pose proof (compareResourceSections_hasDiff origPlan newPlan) as Hrf.
  pose proof (compareOutputSections_hasDiff origPlan newPlan) as Hof.
  unfold generatePlanDiff.
  destruct (compareVariables origPlan newPlan) as [[t1 m1] h1].
  destruct (compareResourceSections origPlan newPlan) as [[t2 m2] h2].
  destruct (compareOutputSections origPlan newPlan) as [[t3 m3] h3].
  simpl in *.
  assert (h1 = false → t1 = "") as H1.
  { intros ->. symmetry in Hvf. apply negb_false_iff in Hvf.
    apply (proj1 (DeepEqual_true _ _)) in Hvf.
    specialize (Hv Hvf). congruence. }
  assert (h2 = false → t2 = "") as H2.
  { intros ->. symmetry in Hrf. apply negb_false_iff in Hrf.
    apply (proj1 (DeepEqual_true _ _)) in Hrf.
    specialize (Hr Hrf). congruence. }
  assert (h3 = false → t3 = "") as H3.
  { intros ->. symmetry in Hof. apply negb_false_iff in Hof.
    apply (proj1 (DeepEqual_true _ _)) in Hof.
    specialize (Ho Hof). congruence. }
  destruct h1, h2, h3; simpl;
    rewrite ?H1, ?H2, ?H3, ?string_app_nil_r, ?string_app_assoc by done;
    done.
Qed.

(** X16: the report of [generatePlanDiff] has the sections in the order
    variables, resources, outputs; a section whose dictionaries are equal
    contributes nothing, and a section whose dictionaries differ starts
    with its header. *)
Theorem generatePlanDiff_sections_in_order
    (origPlan newPlan : gmap string value) :
  ∃ variables resources outputs : string,
    (generatePlanDiff origPlan newPlan).1.1 =
      variables +:+ resources +:+ outputs ∧
    (getVariables origPlan = getVariables newPlan → variables = "") ∧
    (getVariables origPlan ≠ getVariables newPlan →
     ∃ body, variables =
               "Variables:" +:+ nl +:+ "----------" +:+ nl +:+ body) ∧
    (getResources origPlan = getResources newPlan → resources = "") ∧
    (getResources origPlan ≠ getResources newPlan →
     ∃ body, resources =
               "Resources:" +:+ nl +:+ "-----------" +:+ nl +:+ nl
                 +:+ body) ∧
    (getOutputs origPlan = getOutputs newPlan → outputs = "") ∧
    (getOutputs origPlan ≠ getOutputs newPlan →
     ∃ body, outputs = "Outputs:" +:+ nl +:+ "--------" +:+ nl +:+ body).
Proof.
  destruct (section_equal_empty origPlan newPlan) as (Hv & Hr & Ho).
  eexists _, _, _. split; [apply generatePlanDiff_text|].
  split; [by intros ->%Hv|]. split.
  { intros Hne. rewrite (compareVariables_closed _ _ Hne). by eexists. }
  split; [by intros ->%Hr|]. split.
  { intros Hne. rewrite (compareResourceSections_closed _ _ Hne).
    by eexists. }
  split; [by intros ->%Ho|].
  intros Hne. rewrite (compareOutputSections_closed _ _ Hne). by eexists.
Qed.

(** X17: [generatePlanDiff] reports no difference exactly when its report
    is the empty text, and exactly when its structured diff is the empty
    map. *)
Theorem generatePlanDiff_empty_iff (origPlan newPlan : gmap string value) :
  ((generatePlanDiff origPlan newPlan).2 = false ↔
   (generatePlanDiff origPlan newPlan).1.1 = "") ∧
  ((generatePlanDiff origPlan newPlan).2 = false ↔
   (generatePlanDiff origPlan newPlan).1.2 = ∅).
Proof.
  destruct (section_equal_empty origPlan newPlan) as (Hv & Hr & Ho).
  destruct (generatePlanDiff_map origPlan newPlan) as (Hmv & Hmr & Hmo & _).
  rewrite generatePlanDiff_text, generatePlanDiff_hasDiff,
    compareVariables_hasDiff, compareResourceSections_hasDiff,
    compareOutputSections_hasDiff.
  rewrite compareVariables_hasDiff in Hmv.
  rewrite compareResourceSections_hasDiff in Hmr.
  rewrite compareOutputSections_hasDiff in Hmo.
  rewrite !orb_false_iff, !negb_false_iff, !DeepEqual_true.
  split; split.
  - intros ((Hev & Her) & Heo). by rewrite (Hv Hev), (Hr Her), (Ho Heo).
  - rewrite !string_app_empty. intros (Htv & Htr & Hto).
    destruct (decide (getVariables origPlan = getVariables newPlan))
      as [Hev|Hne].
    2:{ rewrite (compareVariables_closed _ _ Hne) in Htv. discriminate. }
    destruct (decide (getResources origPlan = getResources newPlan))
      as [Her|Hne].
    2:{ rewrite (compareResourceSections_closed _ _ Hne) in Htr.
        discriminate. }
    destruct (decide (getOutputs origPlan = getOutputs newPlan))
      as [Heo|Hne]; [done|].
    rewrite (compareOutputSections_closed _ _ Hne) in Hto. discriminate.
  - intros ((Hev & Her) & Heo). apply map_eq. intros k.
    rewrite lookup_empty.
    rewrite (proj2 (DeepEqual_true _ _) Hev) in Hmv.
    rewrite (proj2 (DeepEqual_true _ _) Her) in Hmr.
    rewrite (proj2 (DeepEqual_true _ _) Heo) in Hmo.
    destruct (generatePlanDiff_map origPlan newPlan) as (_ & _ & _ & Hother).
    destruct (decide (k = "variables")) as [->|?]; [done|].
    destruct (decide (k = "resources")) as [->|?]; [done|].
    destruct (decide (k = "outputs")) as [->|?]; [done|].
    by apply Hother.
  - intros Hempty. rewrite Hempty, !lookup_empty in Hmv, Hmr, Hmo.
    destruct (DeepEqual (getVariables origPlan) (getVariables newPlan))
      eqn:H1; [|done].
    destruct (DeepEqual (getResources origPlan) (getResources newPlan))
      eqn:H2; [|done].
    destruct (DeepEqual (getOutputs origPlan) (getOutputs newPlan))
      eqn:H3; [|done].
    by rewrite !DeepEqual_true in H1, H2, H3.
Qed.

(** X18: the structured diff of [generatePlanDiff] has the key
    [variables], [resources] or [outputs] exactly when the dictionaries
    of that section differ, and no other key; what it holds under a key
    is a record with the three collections. *)
Theorem generatePlanDiff_shape (origPlan newPlan : gmap string value) :
  let diffMap := (generatePlanDiff origPlan newPlan).1.2 in
  (is_Some (diffMap !! "variables") ↔
   getVariables origPlan ≠ getVariables newPlan) ∧
  (is_Some (diffMap !! "resources") ↔
   getResources origPlan ≠ getResources newPlan) ∧
  (is_Some (diffMap !! "outputs") ↔
   getOutputs origPlan ≠ getOutputs newPlan) ∧
  (∀ k section, diffMap !! k = Some section →
     k ∈ ["variables"; "resources"; "outputs"] ∧
     ∃ added removed changed : list (gmap string value),
       section = VObject (diffRecord added removed changed)).
Proof.
  intros diffMap.
  destruct (generatePlanDiff_map origPlan newPlan) as (Hmv & Hmr & Hmo & Hk).
  fold diffMap in Hmv, Hmr, Hmo, Hk.
  rewrite compareVariables_hasDiff in Hmv.
  rewrite compareResourceSections_hasDiff in Hmr.
  rewrite compareOutputSections_hasDiff in Hmo.
  assert (∀ (x y : gmap string value) (v : value),
            is_Some (if negb (DeepEqual x y) then Some v else None) ↔ x ≠ y)
    as Hflag.
  { intros x y v. unfold DeepEqual. case_bool_decide; simpl.
    - split; [by intros [? ?] | done].
    - split; [done | eauto]. }
  split; [by rewrite Hmv, Hflag|].
  split; [by rewrite Hmr, Hflag|].
  split; [by rewrite Hmo, Hflag|].
  intros k section Hsec.
  destruct (decide (k = "variables")) as [->|Hnv].
  { split; [rewrite !elem_of_cons; tauto|]. rewrite Hmv in Hsec.
    destruct (DeepEqual (getVariables origPlan) (getVariables newPlan)) eqn:Hd;
      [done|]. apply DeepEqual_false in Hd.
    injection Hsec as <-. rewrite (compareVariables_closed _ _ Hd).
    by eexists _, _, _. }
  destruct (decide (k = "resources")) as [->|Hnr].
  { split; [rewrite !elem_of_cons; tauto|]. rewrite Hmr in Hsec.
    destruct (DeepEqual (getResources origPlan) (getResources newPlan)) eqn:Hd;
      [done|]. apply DeepEqual_false in Hd.
    injection Hsec as <-. rewrite (compareResourceSections_closed _ _ Hd).
    cbn [fst snd]. rewrite compareResources_closed. by eexists _, _, _. }
  destruct (decide (k = "outputs")) as [->|Hno].
  { split; [rewrite !elem_of_cons; tauto|]. rewrite Hmo in Hsec.
    destruct (DeepEqual (getOutputs origPlan) (getOutputs newPlan)) eqn:Hd;
      [done|]. apply DeepEqual_false in Hd.
    injection Hsec as <-. rewrite (compareOutputSections_closed _ _ Hd).
    cbn [fst snd]. rewrite compareOutputs_closed. by eexists _, _, _. }
  rewrite (Hk k) in Hsec by done. done.
Qed.



End DocumentComparison.


(** ** The order in which a map is ranged over *)

Section IterationOrder.

Context {number : Type} `{!EqDecision number}.
Context (R1 R2 : RangeOrder) (F1 F2 : Renderer number).

Abbreviation value := (value number).

Lemma range_Permutation (m : gmap string value) :
  range (RangeOrder := R1) m ≡ₚ range (RangeOrder := R2) m.
Proof. by rewrite !range_perm. Qed.

Lemma sortMapKeys_order (m : gmap string value) :
  sortMapKeys (R := R1) m = sortMapKeys (R := R2) m.
Proof. by rewrite !sortMapKeys_id. Qed.

Lemma getResourceAttributes_order (resource : value) :
  getResourceAttributes (R := R1) resource =
    getResourceAttributes (R := R2) resource.
Proof. by rewrite !getResourceAttributes_union. Qed.

Lemma diffRecord_entries_Permutation (category : string)
    (added1 removed1 changed1 added2 removed2 changed2
       : list (gmap string value)) :
  added1 ≡ₚ added2 → removed1 ≡ₚ removed2 → changed1 ≡ₚ changed2 →
  entriesOf category (diffRecord added1 removed1 changed1) ≡ₚ
    entriesOf category (diffRecord added2 removed2 changed2).
Proof.
  intros Ha Hr Hc. rewrite !entriesOf_diffRecord.
  repeat case_decide; by rewrite ?Ha, ?Hr, ?Hc.
Qed.

(** X20: the dictionaries the extractors build and the map the normalizer
    returns do not depend on the order in which Go ranges over a map. *)
Theorem extractors_order_independent (plan : gmap string value)
    (resource : value) :
  getVariables (R := R1) plan = getVariables (R := R2) plan ∧
  getOutputs (R := R1) plan = getOutputs (R := R2) plan ∧
  getResourceAttributes (R := R1) resource =
    getResourceAttributes (R := R2) resource ∧
  sortMapKeys (R := R1) plan = sortMapKeys (R := R2) plan.
Proof.
  split; [apply map_eq; intros k; by rewrite !getVariables_lookup|].
  split; [by rewrite !getOutputs_union|].
  split; [apply getResourceAttributes_order | apply sortMapKeys_order].
Qed.

(** X21: the flag of [generatePlanDiff] and the keys of its structured
    diff depend neither on the order in which the maps are ranged over
    nor on the rendering of values. *)
Theorem generatePlanDiff_flag_order_independent
    (origPlan newPlan : gmap string value) :
  (generatePlanDiff (R := R1) (F := F1) origPlan newPlan).2 =
    (generatePlanDiff (R := R2) (F := F2) origPlan newPlan).2 ∧
  ∀ k, is_Some ((generatePlanDiff (R := R1) (F := F1) origPlan newPlan).1.2
                  !! k) ↔
       is_Some ((generatePlanDiff (R := R2) (F := F2) origPlan newPlan).1.2
                  !! k).
Proof.
  assert (∀ {A} (b : bool) (x y : A),
            is_Some (if b then Some x else None) ↔
            is_Some (if b then Some y else None)) as Hsome.
  { intros A [] x y; [|done]. split; eauto. }
  destruct (generatePlanDiff_map (R := R1) (F := F1) origPlan newPlan)
    as (Hv1 & Hr1 & Ho1 & Hk1).
  destruct (generatePlanDiff_map (R := R2) (F := F2) origPlan newPlan)
    as (Hv2 & Hr2 & Ho2 & Hk2).
  rewrite (generatePlanDiff_hasDiff (R := R1) (F := F1)),
    (generatePlanDiff_hasDiff (R := R2) (F := F2)).
  rewrite (compareVariables_hasDiff (R := R1) (F := F1)),
    (compareResourceSections_hasDiff (R := R1) (F := F1)),
    (compareOutputSections_hasDiff (R := R1) (F := F1)) in *.
  rewrite (compareVariables_hasDiff (R := R2) (F := F2)),
    (compareResourceSections_hasDiff (R := R2) (F := F2)),
    (compareOutputSections_hasDiff (R := R2) (F := F2)) in *.
  rewrite !(getVariables_order R1 R2), !(getOutputs_order R1 R2) in *.
  split; [done|]. intros k.
  destruct (decide (k = "variables")) as [->|?];
    [rewrite Hv1, Hv2; apply Hsome|].
  destruct (decide (k = "resources")) as [->|?];
    [rewrite Hr1, Hr2; apply Hsome|].
  destruct (decide (k = "outputs")) as [->|?];
    [rewrite Ho1, Ho2; apply Hsome|].
  by rewrite Hk1, Hk2.
Qed.

(** X22: two runs that range over the maps in different orders report
    the same entries of the variables and of the outputs, in each of the
    three collections, up to the order of the entries. *)
Theorem dictionary_entries_order_independent
    (origPlan newPlan orig new : gmap string value) (category : string) :
  entriesOf category (compareOutputs (R := R1) (F := F1) orig new).2 ≡ₚ
    entriesOf category (compareOutputs (R := R2) (F := F2) orig new).2 ∧
  entriesOf category
      (compareVariables (R := R1) (F := F1) origPlan newPlan).1.2 ≡ₚ
    entriesOf category
      (compareVariables (R := R2) (F := F2) origPlan newPlan).1.2.
Proof.
  split.
  - rewrite !compareOutputs_closed.
    apply diffRecord_entries_Permutation;
      by rewrite (range_Permutation _).
  - destruct (decide (getVariables (R := R1) origPlan =
                        getVariables (R := R1) newPlan)) as [Heq|Hne].
    + pose proof Heq as Heq'.
      rewrite !(getVariables_order R1 R2) in Heq'.
      rewrite (proj1 (section_equal_empty (R := R1) (F := F1) _ _) Heq).
      by rewrite (proj1 (section_equal_empty (R := R2) (F := F2) _ _) Heq').
    + pose proof Hne as Hne'.
      rewrite !(getVariables_order R1 R2) in Hne'.
      rewrite (compareVariables_closed (R := R1) (F := F1) _ _ Hne).
      rewrite (compareVariables_closed (R := R2) (F := F2) _ _ Hne').
      cbn [fst snd]. rewrite !(getVariables_order R1 R2).
      apply diffRecord_entries_Permutation;
        by rewrite (range_Permutation _).
Qed.

(** X23: two runs report the same added and the same removed resources,
    up to the order of the entries. *)
Theorem compareResources_entries_order_independent
    (orig new : gmap string value) :
  entriesOf "added" (compareResources (R := R1) (F := F1) orig new).2 ≡ₚ
    entriesOf "added" (compareResources (R := R2) (F := F2) orig new).2 ∧
  entriesOf "removed" (compareResources (R := R1) (F := F1) orig new).2 ≡ₚ
    entriesOf "removed" (compareResources (R := R2) (F := F2) orig new).2.
Proof.
  rewrite (compareResources_closed (R := R1) (F := F1)),
    (compareResources_closed (R := R2) (F := F2)).
  cbn [snd]. rewrite !entriesOf_diffRecord.
  repeat case_decide; try done.
  split; by rewrite (range_Permutation _).
Qed.

End IterationOrder.


(** ** The entry points *)

Section EntryPointProperties.

Context {number : Type} `{!EqDecision number}.
Context {R : RangeOrder} {F : Renderer number} {E : Externals number}.

Abbreviation value := (value number).

Lemma string_app_grows (s t : string) : t ≠ "" → s +:+ t ≠ s.
Proof.
  intros Ht Heq. apply (f_equal String.length) in Heq.
  rewrite string_app_length in Heq.
  destruct t as [|a t]; [done|]. simpl in Heq. lia.
Qed.

Lemma string_app_nl_nonempty (s : string) : s +:+ nl ≠ "".
Proof. rewrite string_app_empty. by intros [_ ?]. Qed.

(** The shared part in closed form: the maps it sorts are the maps it was
    given. *)
Lemma sortAndReport_closed (origPlan newPlan : gmap string value)
    (w : world) :
  sortAndReport origPlan newPlan w =
    ((generatePlanDiff origPlan newPlan, None),
     World
       (stdout w +:+
          (if (generatePlanDiff origPlan newPlan).2 then
             nl +:+ "Diff Output" +:+ nl +:+ "===========" +:+ nl +:+ nl
               +:+ (generatePlanDiff origPlan newPlan).1.1 +:+ nl
           else "The planfiles are identical" +:+ nl))
       (logged w ++ ["Parsed both JSONs. Sorting maps now...";
                     "Sorted maps. Generating diff now..."])
       (shown w) (removedDirs w)).
Proof.
  unfold sortAndReport. rewrite !sortMapKeys_id.
  destruct (generatePlanDiff origPlan newPlan) as [[diff diffMap] [|]];
    unfold Fprintln, log_Printf; cbn [stdout logged shown removedDirs fst snd];
    rewrite <-?(assoc_L (++)); simpl (_ ++ _);
    rewrite ?string_app_assoc; done.
Qed.

Lemma getTerraformPlanJSON_closed (planFile : string) (w : world) :
  getTerraformPlanJSON planFile w =
    (match terraform_show planFile with
     | inl err => ("", Some (Wrap err "error running terraform show"))
     | inr output =>
         ((extractJSONFromOutput output).1,
          Static <$> (extractJSONFromOutput output).2)
     end,
     World (stdout w)
       (logged w ++
          match terraform_show planFile with
          | inl _ => ["Running terraform show..."]
          | inr _ => ["Running terraform show...";
                      "Extracting JSON from output..."]
          end)
       (shown w ++ [planFile]) (removedDirs w)).
Proof.
  unfold getTerraformPlanJSON, runTerraformShow, log_Printf.
  cbn [stdout logged shown removedDirs].
  destruct (terraform_show planFile) as [err|output]; [done|].
  destruct (extractJSONFromOutput output) as [json err].
  cbn [stdout logged shown removedDirs fst snd].
  by rewrite <-(assoc_L (++)).
Qed.

(** X24: [ComparePlansAndGenerateDiff] returns an error exactly when one
    of the two texts does not parse. It then returns the empty report,
    the nil map and no difference, prints and logs nothing, and the error
    of the original text is the one reported when both fail. *)
Theorem ComparePlansAndGenerateDiff_error_iff
    (origPlanFileJSON newPlanFileJSON : string) (w : world) :
  let r := ComparePlansAndGenerateDiff origPlanFileJSON newPlanFileJSON w in
  (r.1.2 = None ↔
   ∃ origPlan newPlan, json_Unmarshal origPlanFileJSON = inr origPlan ∧
                       json_Unmarshal newPlanFileJSON = inr newPlan) ∧
  (r.1.2 ≠ None → r.1.1 = ("", ∅, false) ∧ r.2 = w) ∧
  (∀ err, json_Unmarshal origPlanFileJSON = inl err →
          r.1.2 = Some (Wrap err "error parsing original plan JSON")) ∧
  (∀ origPlan err,
     json_Unmarshal origPlanFileJSON = inr origPlan →
     json_Unmarshal newPlanFileJSON = inl err →
     r.1.2 = Some (Wrap err "error parsing new plan JSON")).
Proof.
  unfold ComparePlansAndGenerateDiff.
  destruct (json_Unmarshal origPlanFileJSON) as [e1|origPlan].
  { cbn [fst snd]. split; [split; [done|by intros (? & ? & ? & _)]|].
    split; [done|]. split; [by intros ? [= ->] | by intros]. }
  destruct (json_Unmarshal newPlanFileJSON) as [e2|newPlan].
  { cbn [fst snd]. split; [split; [done|by intros (? & ? & _ & ?)]|].
    split; [done|]. split; [by intros | by intros ?? _ [= ->]]. }
  rewrite sortAndReport_closed. cbn [fst snd].
  split; [split; [by eauto|done]|]. split; [done|]. split; by intros.
Qed.

(** X25: when both texts parse, [ComparePlansAndGenerateDiff] returns what
    [generatePlanDiff] returns on the two parsed documents and no error.
    It prints the line that the plan files are identical exactly when the
    variables, the resources and the outputs of the two documents are
    equal, and otherwise the banner followed by the report it returns. It
    runs no command and removes no directory. *)
Theorem ComparePlansAndGenerateDiff_result
    (origPlanFileJSON newPlanFileJSON : string) (w : world)
    (origPlan newPlan : gmap string value) :
  json_Unmarshal origPlanFileJSON = inr origPlan →
  json_Unmarshal newPlanFileJSON = inr newPlan →
  let r := ComparePlansAndGenerateDiff origPlanFileJSON newPlanFileJSON w in
  r.1 = (generatePlanDiff origPlan newPlan, None) ∧
  (stdout r.2 = stdout w +:+ "The planfiles are identical" +:+ nl ↔
   getVariables origPlan = getVariables newPlan ∧
   getResources origPlan = getResources newPlan ∧
   getOutputs origPlan = getOutputs newPlan) ∧
  (stdout r.2 ≠ stdout w +:+ "The planfiles are identical" +:+ nl →
   stdout r.2 =
     stdout w +:+ nl +:+ "Diff Output" +:+ nl +:+ "===========" +:+ nl
       +:+ nl +:+ r.1.1.1.1 +:+ nl) ∧
  shown r.2 = shown w ∧ removedDirs r.2 = removedDirs w.
Proof.
  intros Ho Hn. unfold ComparePlansAndGenerateDiff. rewrite Ho, Hn.
  rewrite sortAndReport_closed. cbn [fst snd stdout shown removedDirs].
  split; [done|].
  pose proof (generatePlanDiff_hasDiff origPlan newPlan) as Hflag.
  rewrite compareVariables_hasDiff, compareResourceSections_hasDiff,
    compareOutputSections_hasDiff in Hflag.
  destruct (generatePlanDiff origPlan newPlan) as [[diff diffMap] hasDiff].
  cbn [fst snd] in *.
  assert (hasDiff = false ↔
          getVariables origPlan = getVariables newPlan ∧
          getResources origPlan = getResources newPlan ∧
          getOutputs origPlan = getOutputs newPlan) as Hequal.
  { rewrite Hflag, !orb_false_iff, !negb_false_iff, !DeepEqual_true.
    tauto. }
  destruct hasDiff.
  - split; [|done]. split.
    + intros Heq. exfalso.
      apply (f_equal (λ s, String.get (String.length (stdout w)) s)) in Heq.
      revert Heq. generalize (stdout w). intros s.
      induction s as [|a s IH]; [discriminate | apply IH].
    + intros Hsame. by apply Hequal in Hsame.
  - split; [|done]. split; [intros _; by apply Hequal | done].
Qed.


(** X27: when [terraform show] succeeds on both plan files and both
    outputs hold a brace, [comparePlansAndGenerateDiff] returns and prints
    what [ComparePlansAndGenerateDiff] returns and prints on the two
    extracted texts; the command was run on the original plan file first
    and on the new one second. *)
Theorem comparePlansAndGenerateDiff_agrees
    (origPlanFile newPlanFile : string) (w : world)
    (origOutput newOutput origPlanJSON newPlanJSON : string) :
  terraform_show origPlanFile = inr origOutput →
  terraform_show newPlanFile = inr newOutput →
  extractJSONFromOutput origOutput = (origPlanJSON, None) →
  extractJSONFromOutput newOutput = (newPlanJSON, None) →
  let r := comparePlansAndGenerateDiff origPlanFile newPlanFile w in
  let r' := ComparePlansAndGenerateDiff origPlanJSON newPlanJSON w in
  r.1 = r'.1 ∧ stdout r.2 = stdout r'.2 ∧
  shown r.2 = shown w ++ [origPlanFile; newPlanFile] ∧
  removedDirs r.2 = removedDirs w.
Proof.
  intros Hso Hsn Heo Hen.
  unfold comparePlansAndGenerateDiff, ComparePlansAndGenerateDiff.
  rewrite getTerraformPlanJSON_closed, Hso, Heo.
  cbn [fst snd fmap option_fmap option_map].
  rewrite getTerraformPlanJSON_closed, Hsn, Hen.
  cbn [fst snd fmap option_fmap option_map].
  unfold log_Printf. cbn [stdout logged shown removedDirs].
  destruct (json_Unmarshal origPlanJSON) as [e1|origPlan].
  { cbn [fst snd stdout shown removedDirs].
    by rewrite <-(assoc_L (++)). }
  destruct (json_Unmarshal newPlanJSON) as [e2|newPlan].
  { cbn [fst snd stdout shown removedDirs].
    by rewrite <-(assoc_L (++)). }
  rewrite !sortAndReport_closed. cbn [fst snd stdout shown removedDirs].
  by rewrite <-(assoc_L (++)).
Qed.

(** X28: [comparePlansAndGenerateDiff] stops at the original plan when
    its [terraform show] fails or prints no brace: the error names the
    original plan and wraps the cause, the results are the empty report,
    the nil map and no difference, nothing is printed and the command is
    not run on the new plan file. *)
Theorem comparePlansAndGenerateDiff_original_fails
    (origPlanFile newPlanFile : string) (w : world) :
  let r := comparePlansAndGenerateDiff origPlanFile newPlanFile w in
  (∀ err, terraform_show origPlanFile = inl err →
     r.1 = ("", ∅, false,
            Some (Wrap (Wrap err "error running terraform show")
                    "error getting JSON for original plan")) ∧
     stdout r.2 = stdout w ∧ shown r.2 = shown w ++ [origPlanFile]) ∧
  (∀ output, terraform_show origPlanFile = inr output →
     braceFree output →
     r.1 = ("", ∅, false,
            Some (Wrap (Static ErrNoJSONOutput)
                    "error getting JSON for original plan")) ∧
     stdout r.2 = stdout w ∧ shown r.2 = shown w ++ [origPlanFile]).
Proof.
  unfold comparePlansAndGenerateDiff.
  rewrite getTerraformPlanJSON_closed. split.
  - intros err Herr. by rewrite Herr.
  - intros output Hout Hfree. rewrite Hout.
    destruct (extract_cases output)
      as [[_ Hex]|(pre & post & -> & _ & _)].
    + by rewrite Hex.
    + exfalso. apply (Hfree (String.length pre)).
      clear. induction pre as [|a pre IH]; [done | apply IH].
Qed.

(** X29: whenever [TerraformPlanDiff] returns an error, it returns the
    empty report, the nil map and no difference and has printed nothing;
    whenever it returns no error, it has printed. *)
Theorem TerraformPlanDiff_prints_iff_no_error
    (tfplanpathOld tfplanpathNew : string) (w : world) :
  let r := TerraformPlanDiff tfplanpathOld tfplanpathNew w in
  (r.1.2 ≠ None → r.1.1 = ("", ∅, false) ∧ stdout r.2 = stdout w) ∧
  (r.1.2 = None → stdout r.2 ≠ stdout w).
Proof.
  assert (∀ origPlanFile newPlanFile,
            let r := comparePlansAndGenerateDiff origPlanFile newPlanFile w in
            (r.1.2 ≠ None → r.1.1 = ("", ∅, false) ∧ stdout r.2 = stdout w) ∧
            (r.1.2 = None → stdout r.2 ≠ stdout w)) as Hcompare.
  { intros origPlanFile newPlanFile. unfold comparePlansAndGenerateDiff.
    rewrite getTerraformPlanJSON_closed.
    destruct (terraform_show origPlanFile) as [e|o1]; [done|].
    destruct (extractJSONFromOutput o1) as [j1 [e|]]; [done|].
    cbn [fst snd fmap option_fmap option_map].
    rewrite getTerraformPlanJSON_closed.
    destruct (terraform_show newPlanFile) as [e|o2]; [done|].
    destruct (extractJSONFromOutput o2) as [j2 [e|]]; [done|].
    cbn [fst snd fmap option_fmap option_map].
    destruct (json_Unmarshal j1) as [e|origPlan]; [done|].
    destruct (json_Unmarshal j2) as [e|newPlan]; [done|].
    rewrite sortAndReport_closed.
    cbn [fst snd stdout logged shown removedDirs log_Printf].
    split; [done|]. intros _.
    apply string_app_grows.
    destruct (generatePlanDiff origPlan newPlan).2; [|done].
    rewrite string_app_empty. by intros [? _]. }
  unfold TerraformPlanDiff.
  destruct os_MkdirTemp as [e|tmpDir]; [done|].
  destruct (os_notExist tfplanpathOld); [done|].
  destruct (os_notExist tfplanpathNew); [done|].
  specialize (Hcompare tfplanpathOld tfplanpathNew).
  destruct (comparePlansAndGenerateDiff tfplanpathOld tfplanpathNew w)
    as [result w'].
  done.
Qed.

(** X30: [TerraformPlanDiff] removes the temporary directory it created on
    every return, and nothing else. When the directory cannot be created
    nothing has happened. When a plan file is missing the error says
    which, the old one first, and [terraform show] is not run. When both
    are there the results are those of [comparePlansAndGenerateDiff]. *)
Theorem TerraformPlanDiff_cleanup (tfplanpathOld tfplanpathNew : string)
    (w : world) :
  let r := TerraformPlanDiff tfplanpathOld tfplanpathNew w in
  (∀ err, os_MkdirTemp = inl err →
     r = (("", ∅, false,
           Some (Wrap err "error creating temporary directory")), w)) ∧
  (∀ tmpDir, os_MkdirTemp = inr tmpDir →
     removedDirs r.2 = removedDirs w ++ [tmpDir] ∧
     (os_notExist tfplanpathOld = true →
      r.1.2 = Some (New "old plan file does not exist") ∧
      shown r.2 = shown w ∧ logged r.2 = logged w) ∧
     (os_notExist tfplanpathOld = false →
      os_notExist tfplanpathNew = true →
      r.1.2 = Some (New "new plan file does not exist") ∧
      shown r.2 = shown w ∧ logged r.2 = logged w) ∧
     (os_notExist tfplanpathOld = false →
      os_notExist tfplanpathNew = false →
      r.1 = (comparePlansAndGenerateDiff tfplanpathOld tfplanpathNew w).1)).
Proof.
  assert (∀ origPlanFile newPlanFile,
            removedDirs
              (comparePlansAndGenerateDiff origPlanFile newPlanFile w).2 =
              removedDirs w) as Hkeeps.
  { intros origPlanFile newPlanFile. unfold comparePlansAndGenerateDiff.
    rewrite getTerraformPlanJSON_closed.
    destruct (terraform_show origPlanFile) as [e|o1]; [done|].
    destruct (extractJSONFromOutput o1) as [j1 [e|]]; [done|].
    cbn [fst snd fmap option_fmap option_map].
    rewrite getTerraformPlanJSON_closed.
    destruct (terraform_show newPlanFile) as [e|o2]; [done|].
    destruct (extractJSONFromOutput o2) as [j2 [e|]]; [done|].
    cbn [fst snd fmap option_fmap option_map].
    destruct (json_Unmarshal j1) as [e|origPlan]; [done|].
    destruct (json_Unmarshal j2) as [e|newPlan]; [done|].
    by rewrite sortAndReport_closed. }
  unfold TerraformPlanDiff.
  destruct os_MkdirTemp as [e|tmpDir].
  { split; [by intros ? [= ->] | by intros]. }
  split; [by intros|]. intros ? [= <-].
  destruct (os_notExist tfplanpathOld); [done|].
  destruct (os_notExist tfplanpathNew); [done|].
  specialize (Hkeeps tfplanpathOld tfplanpathNew).
  destruct (comparePlansAndGenerateDiff tfplanpathOld tfplanpathNew w)
    as [result w'].
  cbn [fst snd removedDirs] in *. by rewrite Hkeeps.
Qed.

End EntryPointProperties.


(** ** The theorems at the sample documents *)

Lemma agreeOutsideSkipSet_filter {number : Type}
    (origAttrs newAttrs : gmap string (value number)) :
  filter (λ kv, skipped skipAttrs kv.1 = false) origAttrs =
    filter (λ kv, skipped skipAttrs kv.1 = false) newAttrs →
  agreeOutsideSkipSet origAttrs newAttrs.
Proof.
  intros Heq k Hk.
  apply (f_equal (λ m : gmap string (value number), m !! k)) in Heq.
  rewrite !map_lookup_filter in Heq.
  destruct (origAttrs !! k) as [o|], (newAttrs !! k) as [n|]; simpl in Heq;
    rewrite ?option_guard_True in Heq by done; simpl in Heq; congruence.
Qed.

Lemma extractJSONFromOutput_first_brace_witness :
  extractJSONFromOutput "Plan: 1 to add{x:{}}" = ("{x:{}}", None) ∧
  extractJSONFromOutput "Error: no plan" = ("", Some ErrNoJSONOutput).
Proof.
  split.
  - apply (proj1 (extractJSONFromOutput_first_brace "Plan: 1 to add{x:{}}")
             "Plan: 1 to add" "x:{}}").
    + reflexivity.
    + apply (bool_decide_unpack (braceFree "Plan: 1 to add")).
      vm_compute. exact I.
  - apply (proj1 (proj2 (extractJSONFromOutput_first_brace "Error: no plan"))).
    apply (bool_decide_unpack (braceFree "Error: no plan")).
    vm_compute. exact I.
Defined.

Lemma getOutputs_planned_values_first_witness :
  getOutputs (R := listRange) sample_outputs_plan !! "url" =
    Some (VString "https://new.example") ∧
  getOutputs (R := listRange) sample_outputs_plan !! "arn" =
    Some (VString "arn:aws:s3:::b").
Proof.
  pose proof (getOutputs_planned_values_first (R := listRange)
    sample_outputs_plan sample_planned_values sample_outputs
    sample_output_changes "url"
    (VString "https://new.example") (VString "https://old.example")
    eq_refl eq_refl eq_refl eq_refl eq_refl ltac:(discriminate))
    as [Hurl Hall].
  split; [exact Hurl | exact (Hall "arn")].
Defined.

Lemma getResources_precedence_witness :
  getResources sample_resources_plan !! "null_resource.a" =
    Some sample_change_record ∧
  getResources sample_prior_plan !! "null_resource.a" =
    Some sample_prior_record.
Proof.
  split.
  - apply (proj1 (proj2 (getResources_precedence sample_resources_plan
                           "null_resource.a")) sample_change_record).
    vm_compute. reflexivity.
  - apply (proj2 (proj2 (proj2 (getResources_precedence sample_prior_plan
                                  "null_resource.a"))) sample_prior_record).
    + vm_compute. reflexivity.
    + vm_compute. reflexivity.
    + vm_compute. reflexivity.
Defined.

Lemma getResourceAttributes_overlay_witness :
  getResourceAttributes (R := listRange) sample_both_record !! "size" =
    Some (VNumber 3%Z) ∧
  getResourceAttributes (R := listRange) sample_both_record !! "id" =
    Some (VString "1") ∧
  getResourceAttributes (R := listRange)
    (VObject {[ "address" := VString "null_resource.c" ]} : value Z) = ∅ ∧
  getResourceAttributes (R := listRange) (VString "text" : value Z) = ∅.
Proof.
  split; [|split; [|split]].
  - apply (proj1 (getResourceAttributes_overlay (R := listRange)
                    sample_both_record) "size").
  - apply (proj1 (getResourceAttributes_overlay (R := listRange)
                    sample_both_record) "id").
  - apply (proj1 (proj2 (getResourceAttributes_overlay (R := listRange)
             (VObject {[ "address" := VString "null_resource.c" ]}))));
      vm_compute; reflexivity.
  - apply (proj2 (proj2 (getResourceAttributes_overlay (R := listRange)
             (VString "text")))).
    reflexivity.
Defined.

Lemma skip_set_never_reported_witness :
  ∃ l : list (value Z),
    (processAttributeDifferences (R := listRange) (F := sampleRenderer) ""
       sample_old_attrs sample_new_attrs).2 !! "changed" = Some (VArray l) ∧
    ∀ e, e ∈ l →
      ∃ (m : gmap string (value Z)) (k' : string),
        e = VObject m ∧ m !! "name" = Some (VString k') ∧ (k' ∉ skipSet) ∧
        m !! "name" ≠ Some (VString "content_md5").
Proof.
  apply (skip_set_never_reported (R := listRange) (F := sampleRenderer) ""
           sample_old_attrs sample_new_attrs "content_md5" "changed").
  - apply (bool_decide_unpack _). vm_compute. exact I.
  - apply (bool_decide_unpack _). vm_compute. exact I.
Defined.

Lemma generatePlanDiff_no_diff_iff_witness :
  (generatePlanDiff (R := listRange) (F := sampleRenderer)
     (sortMapKeys (R := listRange) sample_east)
     (sortMapKeys (R := listRange) sample_east)).2 = false.
Proof.
  apply (proj1 (proj2 (generatePlanDiff_no_diff_iff (R := listRange)
                         (F := sampleRenderer) sample_east sample_east))).
  reflexivity.
Defined.

Lemma skip_only_difference_reported_witness :
  (generatePlanDiff (R := listRange) (F := sampleRenderer)
     sample_prior_plan sample_change_plan).2 = true ∧
  ∃ (resourcesMap : gmap string (value Z)) (changed : list (value Z)),
    (generatePlanDiff (R := listRange) (F := sampleRenderer)
       sample_prior_plan sample_change_plan).1.2 !! "resources" =
      Some (VObject resourcesMap) ∧
    resourcesMap !! "changed" = Some (VArray changed) ∧
    VObject {[ "address" := VString "null_resource.a";
               "attributes" :=
                 VObject {[ "added" := VArray [];
                            "removed" := VArray [];
                            "changed" := VArray [] ]} ]} ∈ changed.
Proof.
  apply (skip_only_difference_reported (R := listRange) (F := sampleRenderer)
           sample_prior_plan sample_change_plan "null_resource.a"
           sample_prior_record sample_change_record).
  - vm_compute. reflexivity.
  - vm_compute. reflexivity.
  - discriminate.
  - apply agreeOutsideSkipSet_filter. vm_compute. reflexivity.
Defined.

(** The claim C5 as stated fails: two normalized documents that are not
    equal and are compared without any difference reported. *)
Lemma no_diff_unequal_documents :
  sortMapKeys (R := listRange) sample_versioned = sample_versioned ∧
  sortMapKeys (R := listRange) sample_unversioned = sample_unversioned ∧
  generatePlanDiff (R := listRange) (F := sampleRenderer)
    sample_versioned sample_unversioned = ("", ∅, false) ∧
  sample_versioned ≠ sample_unversioned.
Proof.
  split; [|split; [|split]].
  - vm_compute. reflexivity.
  - vm_compute. reflexivity.
  - vm_compute. reflexivity.
  - intros Heq.
    apply (f_equal (λ m : gmap string (value Z), m !! "terraform_version"))
      in Heq.
    discriminate Heq.
Qed.

(** The end-to-end scenario of the variables section. *)
Example generatePlanDiff_region :
  (generatePlanDiff (R := listRange) (F := sampleRenderer)
     sample_east sample_west).2 = true ∧
  (generatePlanDiff (R := listRange) (F := sampleRenderer)
     sample_east sample_west).1.2 =
    {[ "variables" :=
         VObject {[ "changed" :=
                      VArray [ VObject {[ "name" := VString "region";
                                          "old" := VString "us-east-1";
                                          "new" := VString "us-west-2" ]} ];
                    "added" := VArray [];
                    "removed" := VArray [] ]} ]}.
Proof. split; vm_compute; reflexivity. Qed.

(** A skipped attribute and another one change: only the other one is
    reported. *)
Example processAttributeDifferences_sample :
  (processAttributeDifferences (R := listRange) (F := sampleRenderer) ""
     sample_old_attrs sample_new_attrs).2 =
    {[ "added" := VArray [];
       "removed" := VArray [];
       "changed" :=
         VArray [ VObject {[ "name" := VString "filename";
                             "old" := VString "a.txt";
                             "new" := VString "b.txt" ]} ] ]}.
Proof. vm_compute. reflexivity. Qed.

Lemma sample_heap_represents :
  Heap.represents sample_heap (Heap.HMap 1%positive)
    (VObject sample_heap_document).
Proof.
  apply (Heap.represents_map _ _
           {[ "b" := Heap.HSlice 2%positive; "a" := Heap.HNumber 1%Z ]});
    [reflexivity|].
  apply represents_entries_insert; [|apply represents_entries_singleton].
  - apply (Heap.represents_slice _ _ [Heap.HString "x"; Heap.HNull]);
      [reflexivity|].
    repeat constructor.
  - constructor.
Qed.

Lemma sortMapKeys_idempotent_witness :
  ∃ (result : Heap.loc) (hnew : gmap Heap.loc Heap.object),
    Heap.sortMapKeys (R := listRange)
      (value_size (VObject sample_heap_document)) 1%positive sample_heap =
      Some (result, sample_heap ∪ hnew) ∧
    sample_heap ##ₘ hnew ∧
    (∀ l o, sample_heap !! l = Some o → (sample_heap ∪ hnew) !! l = Some o) ∧
    Heap.represents (sample_heap ∪ hnew) (Heap.HMap 1%positive)
      (VObject sample_heap_document) ∧
    Heap.represents hnew (Heap.HMap result)
      (VObject (sortMapKeys (R := listRange) sample_heap_document)).
Proof.
  apply (proj2 (proj2 (proj2 (proj2 (proj2 (proj2 (proj2 (proj2
           (sortMapKeys_idempotent (R := listRange)
              sample_heap_document))))))))).
  exact sample_heap_represents.
Defined.

(** The run of [sortMapKeys] on the sample heap: the two objects given are
    left as they are and two objects are added. *)
Example sortMapKeys_sample_heap :
  Heap.sortMapKeys (R := listRange) 2 1%positive sample_heap =
    Some (3%positive,
          {[ 1%positive :=
               Heap.OMap {[ "b" := Heap.HSlice 2%positive;
                            "a" := Heap.HNumber 1%Z ]};
             2%positive := Heap.OSlice [Heap.HString "x"; Heap.HNull];
             3%positive :=
               Heap.OMap {[ "b" := Heap.HSlice 4%positive;
                            "a" := Heap.HNumber 1%Z ]};
             4%positive := Heap.OSlice [Heap.HString "x"; Heap.HNull] ]}).
Proof. vm_compute. reflexivity. Qed.

(** Two orders of ranging give the added entries in two orders. *)
Example compareOutputs_orders :
  entriesOf "added"
    (compareOutputs (R := listRange) (F := sampleRenderer)
       ∅ sample_output_changes).2 =
    reverse
      (entriesOf "added"
         (compareOutputs (R := reverseRange) (F := sampleRenderer)
            ∅ sample_output_changes).2) ∧
  length (entriesOf "added"
            (compareOutputs (R := listRange) (F := sampleRenderer)
               ∅ sample_output_changes).2) = 2.
Proof. split; vm_compute; reflexivity. Qed.

Lemma extractJSONFromOutput_idempotent_witness :
  String.get 0 "{x:{}}" = Some "{"%char ∧
  String.length "{x:{}}" ≤ String.length "Plan: 1 to add{x:{}}" ∧
  extractJSONFromOutput "{x:{}}" = ("{x:{}}", None).
Proof.
  apply (extractJSONFromOutput_idempotent "Plan: 1 to add{x:{}}" "{x:{}}").
  reflexivity.
Defined.

Lemma getResources_reads_three_sources_witness :
  getResources sample_versioned_resources_plan =
    getResources sample_resources_plan.
Proof.
  apply (getResources_reads_three_sources sample_versioned_resources_plan
           sample_resources_plan).
  - vm_compute. reflexivity.
  - vm_compute. reflexivity.
  - vm_compute. reflexivity.
Defined.

Lemma compareVariables_sections_witness :
  compareVariables (R := listRange) (F := sampleRenderer)
    sample_east sample_east = ("", ∅, false).
Proof.
  apply (proj1 (compareVariables_sections (R := listRange)
                  (F := sampleRenderer) sample_east sample_east)).
  reflexivity.
Defined.

Lemma processAttributeDifferences_priority_first_witness :
  ∃ first rest : list (gmap string (value Z)),
    (processAttributeDifferences (R := listRange) (F := sampleRenderer) ""
       sample_old_attrs sample_new_attrs).2 !! "changed" =
      Some (records (first ++ rest)) ∧
    (entryName <$> first) `sublist_of`
      [Some (VString "id"); Some (VString "url"); Some (VString "content")] ∧
    ∀ e, e ∈ rest →
         ∃ k, entryName e = Some (VString k) ∧ k ∉ ["id"; "url"; "content"].
Proof.
  apply (processAttributeDifferences_priority_first (R := listRange)
           (F := sampleRenderer) "" sample_old_attrs sample_new_attrs
           "changed").
  apply (bool_decide_unpack ("changed" ∈ ["added"; "removed"; "changed"])).
  vm_compute. exact I.
Defined.

Lemma ComparePlansAndGenerateDiff_result_witness :
  let r := ComparePlansAndGenerateDiff (R := listRange) (F := sampleRenderer)
             (E := sampleExternals) sample_east_json sample_west_json
             sample_world in
  r.1 = (generatePlanDiff (R := listRange) (F := sampleRenderer)
           sample_east sample_west, None) ∧
  (stdout r.2 = stdout sample_world +:+ "The planfiles are identical" +:+ nl ↔
   getVariables (R := listRange) sample_east =
     getVariables (R := listRange) sample_west ∧
   getResources sample_east = getResources sample_west ∧
   getOutputs (R := listRange) sample_east =
     getOutputs (R := listRange) sample_west) ∧
  (stdout r.2 ≠ stdout sample_world +:+ "The planfiles are identical" +:+ nl →
   stdout r.2 =
     stdout sample_world +:+ nl +:+ "Diff Output" +:+ nl +:+ "==========="
       +:+ nl +:+ nl +:+ r.1.1.1.1 +:+ nl) ∧
  shown r.2 = shown sample_world ∧
  removedDirs r.2 = removedDirs sample_world.
Proof.
  apply (ComparePlansAndGenerateDiff_result (R := listRange)
           (F := sampleRenderer) (E := sampleExternals)
           sample_east_json sample_west_json sample_world
           sample_east sample_west).
  - vm_compute. reflexivity.
  - vm_compute. reflexivity.
Defined.


Lemma comparePlansAndGenerateDiff_agrees_witness :
  let r := comparePlansAndGenerateDiff (R := listRange) (F := sampleRenderer)
             (E := sampleExternals) "old.tfplan" "new.tfplan"
             sample_world in
  let r' := ComparePlansAndGenerateDiff (R := listRange)
              (F := sampleRenderer) (E := sampleExternals)
              sample_east_json sample_west_json sample_world in
  r.1 = r'.1 ∧ stdout r.2 = stdout r'.2 ∧
  shown r.2 = shown sample_world ++ ["old.tfplan"; "new.tfplan"] ∧
  removedDirs r.2 = removedDirs sample_world.
Proof.
  apply (comparePlansAndGenerateDiff_agrees (R := listRange)
           (F := sampleRenderer) (E := sampleExternals)
           "old.tfplan" "new.tfplan" sample_world
           ("Warning: deprecated" +:+ nl +:+ sample_east_json)
           sample_west_json sample_east_json sample_west_json).
  - vm_compute. reflexivity.
  - vm_compute. reflexivity.
  - vm_compute. reflexivity.
  - vm_compute. reflexivity.
Defined.

Lemma comparePlansAndGenerateDiff_original_fails_witness :
  (comparePlansAndGenerateDiff (R := listRange) (F := sampleRenderer)
     (E := sampleExternals) "empty.tfplan" "new.tfplan" sample_world).1 =
    ("", ∅, false,
     Some (Wrap (Static ErrNoJSONOutput)
             "error getting JSON for original plan")) ∧
  stdout (comparePlansAndGenerateDiff (R := listRange) (F := sampleRenderer)
            (E := sampleExternals) "empty.tfplan" "new.tfplan"
            sample_world).2 = stdout sample_world ∧
  shown (comparePlansAndGenerateDiff (R := listRange) (F := sampleRenderer)
           (E := sampleExternals) "empty.tfplan" "new.tfplan"
           sample_world).2 = shown sample_world ++ ["empty.tfplan"].
Proof.
  apply (proj2 (comparePlansAndGenerateDiff_original_fails (R := listRange)
                  (F := sampleRenderer) (E := sampleExternals)
                  "empty.tfplan" "new.tfplan" sample_world) "No state.").
  - vm_compute. reflexivity.
  - apply (bool_decide_unpack (braceFree "No state.")).
    vm_compute. exact I.
Defined.

Lemma TerraformPlanDiff_cleanup_witness :
  removedDirs
    (TerraformPlanDiff (R := listRange) (F := sampleRenderer)
       (E := sampleExternals) "old.tfplan" "missing.tfplan"
       sample_world).2 =
    removedDirs sample_world ++ ["/tmp/terraform-plan-diff1"] ∧
  (TerraformPlanDiff (R := listRange) (F := sampleRenderer)
     (E := sampleExternals) "old.tfplan" "missing.tfplan"
     sample_world).1.2 = Some (New "new plan file does not exist") ∧
  shown
    (TerraformPlanDiff (R := listRange) (F := sampleRenderer)
       (E := sampleExternals) "old.tfplan" "missing.tfplan"
       sample_world).2 = shown sample_world.
Proof.
  pose proof (proj2 (TerraformPlanDiff_cleanup (R := listRange)
                       (F := sampleRenderer) (E := sampleExternals)
                       "old.tfplan" "missing.tfplan" sample_world)
                "/tmp/terraform-plan-diff1" eq_refl)
    as (Hremoved & _ & Hnew & _).
  split; [exact Hremoved|].
  destruct (Hnew eq_refl eq_refl) as (Herr & Hshown & _).
  split; [exact Herr | exact Hshown].
Defined.
